(** * Cache-aware matrix transposes of [trans.c]

    A shallow embedding of the transpose routines of [trans.c] and of the
    oracle [is_transpose], together with the properties of the
    natural-language specification that were checked against them.

    Modelling conventions.

    - A matrix declared [int X[R][C]] is a contiguous row-major buffer,
      here a [list Z]; the cell [X[r][c]] sits at offset [r * C + c].
    - The C types fix the rectangles: [A] is [N] rows of [M] columns and
      [B] is [M] rows of [N] columns.  A subscript outside the declared
      rectangle is undefined behaviour in C; the model stops there with
      the fault [OutOfBounds], which names the offending access.
    - [int] indices are modelled in [Z].  No routine computes an index
      above [max M N + 8], so for dimensions up to [INT_MAX - 8] no index
      arithmetic leaves the range of [int].  The cell values are only
      copied and compared, never computed with.
    - The scalar locals [c0] .. [c7] and [tmp] are declared without an
      initialiser: a local holds [None] until it is assigned, and using it
      before is the fault [Uninitialised].
    - Every run keeps a chronological log of its memory accesses and of
      the assignments to and uses of its scalar locals. *)

From Stdlib Require Import ZArith Lia List Bool.
From stdpp Require Import base list.
Import ListNotations.

Local Open Scope Z_scope.

(** ** Data model *)

(** The two matrices of a call. *)
Inductive arr : Set := ArrA | ArrB.

(** The scalar locals of the routines. *)
Inductive var : Set := c0 | c1 | c2 | c3 | c4 | c5 | c6 | c7 | tmp.

Definition var_eqb (x y : var) : bool :=
  match x, y with
  | c0, c0 | c1, c1 | c2, c2 | c3, c3 | c4, c4
  | c5, c5 | c6, c6 | c7, c7 | tmp, tmp => true
  | _, _ => false
  end.

(** What a run leaves in its log. *)
Inductive event : Set :=
| Rd (a : arr) (r c : Z)      (* a read of  a[r][c] *)
| Wr (a : arr) (r c : Z)      (* a write of a[r][c] *)
| Def (x : var)               (* the local x is assigned *)
| Use (x : var).              (* the local x is read *)

Inductive fault : Set :=
| OutOfBounds (a : arr) (r c : Z)
| BadBuffer (a : arr)
| Uninitialised (x : var)
| OutOfFuel.

Record state : Type := mkState {
  memA : list Z;
  memB : list Z;
  locals : var -> option Z;
  log : list event
}.

Inductive outcome (X : Type) : Type :=
| Ok (x : X) (s : state)
| Fault (e : fault) (s : state).
Arguments Ok {X} x s.
Arguments Fault {X} e s.

Definition final {X} (o : outcome X) : state :=
  match o with Ok _ s => s | Fault _ s => s end.

Definition result {X} (o : outcome X) : X + fault :=
  match o with Ok x _ => inl x | Fault e _ => inr e end.

(** ** The monad of the routines: state and faults *)

Definition prog (X : Type) : Type := state -> outcome X.

Definition ret {X} (x : X) : prog X := fun s => Ok x s.

Definition bind {X Y} (m : prog X) (k : X -> prog Y) : prog Y :=
  fun s => match m s with
           | Ok x s' => k x s'
           | Fault e s' => Fault e s'
           end.

Definition fail {X} (e : fault) : prog X := fun s => Fault e s.

Notation "x <- m ;; k" := (bind m (fun x => k))
  (at level 100, m at next level, right associativity).
Notation "m ;; k" := (bind m (fun _ => k))
  (at level 100, right associativity).

Definition no_locals : var -> option Z := fun _ => None.

Definition set_local (x : var) (v : Z) (f : var -> option Z) : var -> option Z :=
  fun y => if var_eqb y x then Some v else f y.

Definition emit (e : event) (s : state) : state :=
  mkState (memA s) (memB s) (locals s) (log s ++ [e]).

Definition mem (s : state) (a : arr) : list Z :=
  match a with ArrA => memA s | ArrB => memB s end.

Definition set_mem (a : arr) (l : list Z) (s : state) : state :=
  match a with
  | ArrA => mkState l (memB s) (locals s) (log s)
  | ArrB => mkState (memA s) l (locals s) (log s)
  end.

(** Entry of a routine: its locals are declared, none is initialised. *)
Definition declare_locals : prog unit :=
  fun s => Ok tt (mkState (memA s) (memB s) no_locals (log s)).

(** [x = v] for a scalar local. *)
Definition assign (x : var) (v : Z) : prog unit :=
  fun s => Ok tt (emit (Def x)
                    (mkState (memA s) (memB s) (set_local x v (locals s)) (log s))).

(** The value of a scalar local. *)
Definition use (x : var) : prog Z :=
  fun s => match locals s x with
           | Some v => Ok v (emit (Use x) s)
           | None => Fault (Uninitialised x) s
           end.

(** Loops.  [for_up fuel k hi step body] is
    [for (; k < hi; k += step) body], [for_down fuel k lo body] is
    [for (; k >= lo; k--) body]. *)
Fixpoint for_up (fuel : nat) (k hi step : Z) (body : Z -> prog unit) : prog unit :=
  match fuel with
  | O => fail OutOfFuel
  | S f => if k <? hi then body k ;; for_up f (k + step) hi step body
           else ret tt
  end.

Fixpoint for_down (fuel : nat) (k lo : Z) (body : Z -> prog unit) : prog unit :=
  match fuel with
  | O => fail OutOfFuel
  | S f => if k >=? lo then body k ;; for_down f (k - 1) lo body
           else ret tt
  end.

(** A loop whose body may [return v] from the enclosing function:
    the body answers [Some v] to return, [None] to go on. *)
Fixpoint for_up_ret (fuel : nat) (k hi : Z) (body : Z -> prog (option Z))
  : prog (option Z) :=
  match fuel with
  | O => fail OutOfFuel
  | S f => if k <? hi
           then r <- body k ;;
                match r with
                | Some v => ret (Some v)
                | None => for_up_ret f (k + 1) hi body
                end
           else ret None
  end.

Section Routines.

(** The shape arguments shared by every routine:
    [void f(int M, int N, int A[N][M], int B[M][N])]. *)
Variables M N : Z.

Definition rows (a : arr) : Z := match a with ArrA => N | ArrB => M end.
Definition cols (a : arr) : Z := match a with ArrA => M | ArrB => N end.

Definition in_rect (a : arr) (r c : Z) : bool :=
  (0 <=? r) && (r <? rows a) && (0 <=? c) && (c <? cols a).

Definition offset (a : arr) (r c : Z) : nat := Z.to_nat (r * cols a + c).

(** The rvalue [a[r][c]]. *)
Definition read (a : arr) (r c : Z) : prog Z :=
  fun s =>
    if in_rect a r c then
      match mem s a !! offset a r c with
      | Some v => Ok v (emit (Rd a r c) s)
      | None => Fault (BadBuffer a) s
      end
    else Fault (OutOfBounds a r c) s.

(** The assignment [a[r][c] = v]. *)
Definition write (a : arr) (r c : Z) (v : Z) : prog unit :=
  fun s =>
    if in_rect a r c then
      if (offset a r c <? length (mem s a))%nat
      then Ok tt (emit (Wr a r c) (set_mem a (<[offset a r c := v]> (mem s a)) s))
      else Fault (BadBuffer a) s
    else Fault (OutOfBounds a r c) s.

(** [x = A[r][c];] *)
Definition load (x : var) (r c : Z) : prog unit :=
  v <- read ArrA r c ;; assign x v.

(** [B[r][c] = x;] *)
Definition store (r c : Z) (x : var) : prog unit :=
  v <- use x ;; write ArrB r c v.

(** [trans]: the baseline row-wise scan. *)
Definition trans : prog unit :=
  declare_locals ;;
  for_up (S (Z.to_nat N)) 0 N 1 (fun i =>
    for_up (S (Z.to_nat M)) 0 M 1 (fun j =>
      load tmp i j ;;
      store j i tmp)).

Definition transpose32x32 : prog unit :=
  declare_locals ;;
  for_up (S (Z.to_nat N)) 0 N 8 (fun i =>
    for_up (S (Z.to_nat M)) 0 M 8 (fun j =>
      for_up 9 i (i + 8) 1 (fun k =>
        load c0 k j ;;
        load c1 k (j + 1) ;;
        load c2 k (j + 2) ;;
        load c3 k (j + 3) ;;
        load c4 k (j + 4) ;;
        load c5 k (j + 5) ;;
        load c6 k (j + 6) ;;
        load c7 k (j + 7) ;;
        store j k c0 ;;
        store (j + 1) k c1 ;;
        store (j + 2) k c2 ;;
        store (j + 3) k c3 ;;
        store (j + 4) k c4 ;;
        store (j + 5) k c5 ;;
        store (j + 6) k c6 ;;
        store (j + 7) k c7))).

(** The stripe test [(j/4) % 2 == 0], with C's truncating [/] and [%]. *)
Definition even_stripe (j : Z) : bool := Z.rem (Z.quot j 4) 2 =? 0.

Definition transpose32x64 : prog unit :=
  declare_locals ;;
  for_up (S (Z.to_nat N)) 0 N 8 (fun i =>
    for_up (S (Z.to_nat M)) 0 M 4 (fun j =>
      if even_stripe j then
        for_up 9 i (i + 8) 1 (fun k =>
          load c0 k j ;;
          load c1 k (j + 1) ;;
          load c2 k (j + 2) ;;
          load c3 k (j + 3) ;;
          store j k c0 ;;
          store (j + 1) k c1 ;;
          store (j + 2) k c2 ;;
          store (j + 3) k c3)
      else
        for_down 9 (i + 7) i (fun k =>
          load c0 k j ;;
          load c1 k (j + 1) ;;
          load c2 k (j + 2) ;;
          load c3 k (j + 3) ;;
          store j k c0 ;;
          store (j + 1) k c1 ;;
          store (j + 2) k c2 ;;
          store (j + 3) k c3))).

Definition transpose64x64 : prog unit :=
  declare_locals ;;
  for_up (S (Z.to_nat N)) 0 N 8 (fun i =>
    for_up (S (Z.to_nat M)) 0 M 4 (fun j =>
      if even_stripe j then
        for_up 9 i (i + 8) 1 (fun k =>
          load c0 k j ;;
          load c1 k (j + 1) ;;
          load c2 k (j + 2) ;;
          load c3 k (j + 3) ;;
          (if k =? i + 1 then
             load c4 k (j + 4) ;;
             load c5 k (j + 5) ;;
             load c6 k (j + 6) ;;
             load c7 k (j + 7)
           else ret tt) ;;
          store j k c0 ;;
          store (j + 1) k c1 ;;
          store (j + 2) k c2 ;;
          store (j + 3) k c3)
      else
        for_down 9 (i + 7) i (fun k =>
          if k =? i + 1 then
            store j k c4 ;;
            store (j + 1) k c5 ;;
            store (j + 2) k c6 ;;
            store (j + 3) k c7
          else
            load c0 k j ;;
            load c1 k (j + 1) ;;
            load c2 k (j + 2) ;;
            load c3 k (j + 3) ;;
            store j k c0 ;;
            store (j + 1) k c1 ;;
            store (j + 2) k c2 ;;
            store (j + 3) k c3))).

(** [test]: the experimental routine, the same statements as
    [transpose64x64]. *)
Definition test : prog unit :=
  declare_locals ;;
  for_up (S (Z.to_nat N)) 0 N 8 (fun i =>
    for_up (S (Z.to_nat M)) 0 M 4 (fun j =>
      if even_stripe j then
        for_up 9 i (i + 8) 1 (fun k =>
          load c0 k j ;;
          load c1 k (j + 1) ;;
          load c2 k (j + 2) ;;
          load c3 k (j + 3) ;;
          (if k =? i + 1 then
             load c4 k (j + 4) ;;
             load c5 k (j + 5) ;;
             load c6 k (j + 6) ;;
             load c7 k (j + 7)
           else ret tt) ;;
          store j k c0 ;;
          store (j + 1) k c1 ;;
          store (j + 2) k c2 ;;
          store (j + 3) k c3)
      else
        for_down 9 (i + 7) i (fun k =>
          if k =? i + 1 then
            store j k c4 ;;
            store (j + 1) k c5 ;;
            store (j + 2) k c6 ;;
            store (j + 3) k c7
          else
            load c0 k j ;;
            load c1 k (j + 1) ;;
            load c2 k (j + 2) ;;
            load c3 k (j + 3) ;;
            store j k c0 ;;
            store (j + 1) k c1 ;;
            store (j + 2) k c2 ;;
            store (j + 3) k c3))).

(** [transpose_submit]: the dispatcher. *)
Definition transpose_submit : prog unit :=
  if (M =? 32) && (N =? 32) then transpose32x32
  else if (M =? 32) && (N =? 64) then transpose32x64
  else transpose64x64.

(** [is_transpose]: the oracle.  It has no scalar local besides its
    loop counters; the first mismatch returns 0. *)
Definition is_transpose : prog Z :=
  r <- for_up_ret (S (Z.to_nat N)) 0 N (fun i =>
         for_up_ret (S (Z.to_nat M)) 0 M (fun j =>
           a <- read ArrA i j ;;
           b <- read ArrB j i ;;
           if negb (a =? b) then ret (Some 0) else ret None)) ;;
  match r with
  | Some v => ret v
  | None => ret 1
  end.

End Routines.

(** A call starts from the two buffers, an empty log and no local. *)
Definition start (A B : list Z) : state := mkState A B no_locals [].

(** ** Vocabulary of the specification and of the proofs *)

(** [wp m Q s]: the run of [m] from [s] returns normally and [Q] holds
    of its result and final state. *)
Definition wp {X} (m : prog X) (Q : X -> state -> Prop) (s : state) : Prop :=
  match m s with
  | Ok x s' => Q x s'
  | Fault _ _ => False
  end.

(** The loop indices [ix 0, ix 1, .., ix (n-1)]. *)
Definition iters (ix : nat -> Z) (n : nat) : list Z := map ix (seq 0 n).

Definition up (lo step : Z) : nat -> Z := fun t => lo + Z.of_nat t * step.
Definition down (hi : Z) : nat -> Z := fun t => hi - Z.of_nat t.

Definition ev_load (x : var) (r c : Z) : list event := [Rd ArrA r c; Def x].
Definition ev_store (r c : Z) (x : var) : list event := [Use x; Wr ArrB r c].

(** Log of [c0..c3 = A[k][j..j+3]; B[j..j+3][k] = c0..c3]. *)
Definition quad_log (k j : Z) : list event :=
  ev_load c0 k j ++ ev_load c1 k (j + 1) ++ ev_load c2 k (j + 2) ++ ev_load c3 k (j + 3) ++
  ev_store j k c0 ++ ev_store (j + 1) k c1 ++ ev_store (j + 2) k c2 ++ ev_store (j + 3) k c3.

(** The four cells [B[j..j+3][k]]. *)
Definition quad_dom (k j : Z) : Z -> Z -> bool :=
  fun r c => (c =? k) && (j <=? r) && (r <? j + 4).

Definition is_carry (x : var) : bool :=
  match x with c4 | c5 | c6 | c7 => true | _ => false end.

Definition no_var (x : var) : bool := false.

(** Four rows [j..j+3] of [B] over the band of columns [i..i+7]. *)
Definition stripe_dom (i j : Z) : Z -> Z -> bool :=
  fun r c => (j <=? r) && (r <? j + 4) && (i <=? c) && (c <? i + 8).

(** The 8x8 block of [B] at rows [j..j+7], columns [i..i+7]. *)
Definition block_dom (i j : Z) : Z -> Z -> bool :=
  fun r c => (j <=? r) && (r <? j + 8) && (i <=? c) && (c <? i + 8).

(** The columns [i..i+w-1] of [B]. *)
Definition band_dom (i w : Z) : Z -> Z -> bool :=
  fun r c => (i <=? c) && (c <? i + w).

Definition all_dom : Z -> Z -> bool := fun _ _ => true.

Definition true_state (s : state) : Prop := True.

Definition preserves {X} (I : state -> Prop) (m : prog X) : Prop :=
  forall s, I s -> I (final (m s)).



(** Every logged access is inside the declared rectangle of its matrix. *)
Definition in_bounds (M N : Z) (e : event) : bool :=
  match e with
  | Rd a r c | Wr a r c => in_rect M N a r c
  | Def _ | Use _ => true
  end.

Definition log_in_bounds (M N : Z) (s : state) : Prop :=
  Forall (fun e => in_bounds M N e = true) (log s).

(** [B[j][i] == A[i][j]] for every [i] in [0,N) and [j] in [0,M). *)
Definition is_transposed (M N : Z) (A B : list Z) : Prop :=
  forall i j, 0 <= i < N -> 0 <= j < M ->
    exists v, A !! offset M N ArrA i j = Some v /\ B !! offset M N ArrB j i = Some v.

Fixpoint count (f : event -> bool) (l : list event) : nat :=
  match l with
  | [] => 0
  | e :: l' => (if f e then 1 else 0) + count f l'
  end.

Definition is_def (x : var) (e : event) : bool :=
  match e with Def y => var_eqb y x | _ => false end.

Definition is_use (x : var) (e : event) : bool :=
  match e with Use y => var_eqb y x | _ => false end.

(** A read of row [r] of [A]. *)
Definition reads_row (r : Z) (e : event) : bool :=
  match e with Rd ArrA r' _ => r' =? r | _ => false end.

(** *** The cache of the evaluation *)

(** Modelled from the spec: the driver and its cache simulator are not in
    [trans.c].  The spec fixes a 1 KiB direct-mapped cache with 32-byte
    lines: 32 sets of one line, 8 four-byte elements per line, cold at
    entry.  It places both buffers on a 1 KiB boundary (equal offsets in
    [A] and [B] map to the same set) and apart from each other (no line
    holds cells of both).  A line is then named by its matrix and the
    index of the line inside it; only the accesses to [A] and [B] count,
    the scalar locals live in registers. *)
Module Cache.

Definition line : Type := (arr * Z)%type.

Definition line_of (M N : Z) (a : arr) (r c : Z) : line :=
  (a, (r * cols M N a + c) / 8).

Definition set_of (l : line) : nat := Z.to_nat (snd l mod 32).

Definition arr_eqb (a b : arr) : bool :=
  match a, b with ArrA, ArrA | ArrB, ArrB => true | _, _ => false end.

Definition line_eqb (l l' : line) : bool :=
  arr_eqb (fst l) (fst l') && (snd l =? snd l').

Definition cache : Type := list (option line).

Definition cold : cache := repeat None 32.

Definition hit (cch : cache) (l : line) : bool :=
  match cch !! set_of l with
  | Some (Some l') => line_eqb l l'
  | _ => false
  end.

(** One access: a miss loads the line into its set. *)
Definition access (st : cache * nat) (l : line) : cache * nat :=
  if hit (fst st) l then st
  else (<[set_of l := Some l]> (fst st), S (snd st)).

Definition touch (M N : Z) (st : cache * nat) (e : event) : cache * nat :=
  match e with
  | Rd a r c | Wr a r c => access st (line_of M N a r c)
  | Def _ | Use _ => st
  end.

(** The misses of a log replayed against the cold cache. *)
Definition misses (M N : Z) (t : list event) : nat :=
  snd (fold_left (touch M N) t (cold, 0%nat)).

End Cache.

(** The test matrix [A[i][j] = i * cols + j] and a zeroed buffer. *)
Definition ramp (n : nat) : list Z := map Z.of_nat (seq 0 n).
Definition zeros (n : nat) : list Z := repeat 0 n.

(** The shapes with a routine of their own in the specification. *)
Definition supported (M N : Z) : Prop :=
  (M = 32 /\ N = 32) \/ (M = 32 /\ N = 64) \/ (M = 64 /\ N = 64).

(** *** Runs that may stop *)

(** [wpf ok m Q s]: the run of [m] from [s] either returns, and then [Q]
    holds, or stops at a fault that satisfies [ok]. *)
Definition wpf {X} (ok : fault -> Prop) (m : prog X) (Q : X -> state -> Prop)
           (s : state) : Prop :=
  match m s with
  | Ok x s' => Q x s'
  | Fault e _ => ok e
  end.

(** In the model the run of [m] stops at a fault, from every state. *)
Definition always_stops {X} (m : prog X) : Prop :=
  forall s, match m s with Ok _ _ => False | Fault _ _ => True end.

(** The four carry locals have been assigned. *)
Definition carry_set (s : state) : Prop :=
  forall x, is_carry x = true -> locals s x <> None.

(** The fault is a subscript outside the declared rectangle. *)
Definition out_of_rect (M N : Z) (e : fault) : Prop :=
  match e with
  | OutOfBounds a r c => in_rect M N a r c = false
  | _ => False
  end.

(** The run of [m] from [s] returns, and every access it made is inside
    the declared rectangles. *)
Definition keeps_rect (M N : Z) (m : prog unit) (s : state) : Prop :=
  exists s', m s = Ok tt s' /\ log_in_bounds M N s'.

(** The run of [m] from [s] comes to a subscript [a[r][c]] outside the
    declared rectangle of [a], every access before it being inside.  The
    model stops there; in C the behaviour is undefined from there on, and
    the compiled routine may well go on and return. *)
Definition leaves_rect (M N : Z) (m : prog unit) (s : state) : Prop :=
  exists a r c s', m s = Fault (OutOfBounds a r c) s' /\
                   in_rect M N a r c = false /\ log_in_bounds M N s'.

(** *** Which cells a run touched *)

(** The cells of [B] written, in the order of the log. *)
Fixpoint written (l : list event) : list (Z * Z) :=
  match l with
  | [] => []
  | Wr ArrB r c :: l' => (r, c) :: written l'
  | _ :: l' => written l'
  end.

(** The cells of [A] read, in the order of the log. *)
Fixpoint fetched (l : list event) : list (Z * Z) :=
  match l with
  | [] => []
  | Rd ArrA r c :: l' => (r, c) :: fetched l'
  | _ :: l' => fetched l'
  end.

(** Either the cell [B[r][c]] has been written or it holds what it held. *)
Definition unwritten_kept (M N r c : Z) (v0 : option Z) (s : state) : Prop :=
  (r, c) ∈ written (log s) \/ memB s !! offset M N ArrB r c = v0.

(** Two runs in step: the same log, buffers of the same sizes, the same
    locals assigned; and, as long as [A[r][c]] has not been read, the same
    [B], the same values in the locals and the same [A] but for that cell. *)
Definition in_step (M N r c : Z) (s1 s2 : state) : Prop :=
  log s1 = log s2 /\
  length (memA s1) = length (memA s2) /\
  length (memB s1) = length (memB s2) /\
  (forall x, locals s1 x = None <-> locals s2 x = None) /\
  ((r, c) ∈ fetched (log s1) \/
   (memB s1 = memB s2 /\
    (forall x, locals s1 x = locals s2 x) /\
    forall n, n <> offset M N ArrA r c -> memA s1 !! n = memA s2 !! n)).

(** [m] keeps two runs related by [R], and ends both the same way. *)
Definition preserves2 (R : state -> state -> Prop) (m : prog unit) : Prop :=
  forall s1 s2, R s1 s2 ->
    match m s1, m s2 with
    | Ok _ s1', Ok _ s2' => R s1' s2'
    | Fault e1 s1', Fault e2 s2' => e1 = e2 /\ R s1' s2'
    | _, _ => False
    end.

(** The copy goes one way: the access is neither a read of [B] nor a
    write of [A]. *)
Definition one_way (e : event) : bool :=
  match e with
  | Rd ArrB _ _ | Wr ArrA _ _ => false
  | _ => true
  end.

Definition log_one_way (s : state) : Prop :=
  Forall (fun e => one_way e = true) (log s).

(** The log reads only [A] and writes only [B]; it writes every cell of
    [B] once and nothing else, and reads every cell of [A] once and
    nothing else. *)
Definition each_cell_once (M N : Z) (t : list event) : Prop :=
  Forall (fun e => one_way e = true) t /\
  NoDup (written t) /\
  (forall r c, (r, c) ∈ written t <-> in_rect M N ArrB r c = true) /\
  NoDup (fetched t) /\
  (forall r c, (r, c) ∈ fetched t <-> in_rect M N ArrA r c = true).

(** *** The life of a carried local *)

(** [carried x held t] follows the local [x] through the log [t]: [held]
    says whether [x] holds a value that has been assigned and not used
    yet.  An assignment while a value is held, or a use while none is
    held, is an error, [None]; otherwise the answer is whether a value is
    held at the end of [t]. *)
Fixpoint carried (x : var) (held : bool) (t : list event) : option bool :=
  match t with
  | [] => Some held
  | Def y :: t' =>
      if var_eqb y x then (if held then None else carried x true t')
      else carried x held t'
  | Use y :: t' =>
      if var_eqb y x then (if held then carried x false t' else None)
      else carried x held t'
  | _ :: t' => carried x held t'
  end.

(** *** The reads of the oracle *)

(** The two reads of the comparison [A[i][j] != B[j][i]]. *)
Definition pair_log (i j : Z) : list event := [Rd ArrA i j; Rd ArrB j i].

(** The reads for the cells that come before [(i, j)] in the row-major
    order of [A]: the rows [0..i-1] in full, then row [i] up to [j-1]. *)
Definition checked_log (M i j : Z) : list event :=
  flat_map (fun i' => flat_map (pair_log i') (iters (up 0 1) (Z.to_nat M)))
           (iters (up 0 1) (Z.to_nat i))
  ++ flat_map (pair_log i) (iters (up 0 1) (Z.to_nat j)).

(** The notions that depend on the shape of the call. *)
Section Vocabulary.

Variables M N : Z.

(** The caller's buffers have the declared sizes. *)
Definition bufs_ok (s : state) : Prop :=
  length (memA s) = Z.to_nat (N * M) /\ length (memB s) = Z.to_nat (M * N).

(** The content of [a[r][c]]. *)
Definition cell (s : state) (a : arr) (r c : Z) : option Z :=
  mem s a !! offset M N a r c.

(** The state after [x = A[r][c]] read the value [v]. *)
Definition after_load (x : var) (v : Z) (r c : Z) (s : state) : state :=
  mkState (memA s) (memB s) (set_local x v (locals s))
          (log s ++ [Rd ArrA r c; Def x]).

(** The state after [B[r][c] = x] wrote the value [v] of [x]. *)
Definition after_store (r c : Z) (x : var) (v : Z) (s : state) : state :=
  mkState (memA s) (<[offset M N ArrB r c := v]> (memB s)) (locals s)
          (log s ++ [Use x; Wr ArrB r c]).

(** [effect dom keep t s s']: from [s] to [s'] the cells of [B] in [dom]
    received the transposed cells of [A], every other cell of [B] and all
    of [A] are as before, the locals in [keep] are as before, and the log
    grew by [t]. *)
Record effect (dom : Z -> Z -> bool) (keep : var -> bool) (t : list event)
       (s s' : state) : Prop := {
  eff_A : memA s' = memA s;
  eff_len : length (memB s') = length (memB s);
  eff_dom : forall r c, in_rect M N ArrB r c = true ->
            cell s' ArrB r c = if dom r c then cell s ArrA c r else cell s ArrB r c;
  eff_keep : forall x, keep x = true -> locals s' x = locals s x;
  eff_log : log s' = log s ++ t
}.

(** The body of the 8x8 block loop of [transpose32x32]. *)
Definition oct_log (k j : Z) : list event :=
  ev_load c0 k j ++ ev_load c1 k (j + 1) ++ ev_load c2 k (j + 2) ++ ev_load c3 k (j + 3) ++
  ev_load c4 k (j + 4) ++ ev_load c5 k (j + 5) ++ ev_load c6 k (j + 6) ++ ev_load c7 k (j + 7) ++
  ev_store j k c0 ++ ev_store (j + 1) k c1 ++ ev_store (j + 2) k c2 ++ ev_store (j + 3) k c3 ++
  ev_store (j + 4) k c4 ++ ev_store (j + 5) k c5 ++ ev_store (j + 6) k c6 ++ ev_store (j + 7) k c7.

Definition oct_dom (k j : Z) : Z -> Z -> bool :=
  fun r c => (c =? k) && (j <=? r) && (r <? j + 8).

(** The body of the baseline scan. *)
Definition one_log (i j : Z) : list event := ev_load tmp i j ++ ev_store j i tmp.

Definition one_dom (i j : Z) : Z -> Z -> bool := fun r c => (r =? j) && (c =? i).

(** The carry of [transpose64x64]: [c4..c7] hold [A[i+1][j..j+3]]. *)
Definition carry (s : state) (i j : Z) : Prop :=
  locals s c4 = cell s ArrA (i + 1) j /\
  locals s c5 = cell s ArrA (i + 1) (j + 1) /\
  locals s c6 = cell s ArrA (i + 1) (j + 2) /\
  locals s c7 = cell s ArrA (i + 1) (j + 3).

(** The body of an even stripe of [transpose64x64] at row [k]. *)
Definition fill_log (i k j : Z) : list event :=
  ev_load c0 k j ++ ev_load c1 k (j + 1) ++ ev_load c2 k (j + 2) ++ ev_load c3 k (j + 3) ++
  (if k =? i + 1
   then ev_load c4 k (j + 4) ++ ev_load c5 k (j + 5) ++
        ev_load c6 k (j + 6) ++ ev_load c7 k (j + 7)
   else []) ++
  ev_store j k c0 ++ ev_store (j + 1) k c1 ++ ev_store (j + 2) k c2 ++ ev_store (j + 3) k c3.

Definition keep_fill (i k : Z) : var -> bool :=
  fun x => is_carry x && negb (k =? i + 1).

(** The body of an odd stripe of [transpose64x64] at row [k]. *)
Definition drain_log (i k j : Z) : list event :=
  if k =? i + 1
  then ev_store j k c4 ++ ev_store (j + 1) k c5 ++ ev_store (j + 2) k c6 ++ ev_store (j + 3) k c7
  else quad_log k j.

(** The invariant of a loop whose [t]-th iteration, at index [ix t],
    transposes the cells [d (S t)] not yet in [d t] and logs [l (ix t)]. *)
Definition loop_inv (d : nat -> Z -> Z -> bool) (keep : var -> bool)
           (l : Z -> list event) (ix : nat -> Z) (P : state -> Prop)
           (s : state) : nat -> state -> Prop :=
  fun t s' => (effect (d t) keep (flat_map l (iters ix t)) s s' /\ P s')
              /\ bufs_ok s'.

Definition row_log (i : Z) : list event :=
  flat_map (one_log i) (iters (up 0 1) (Z.to_nat M)).

(** The accesses of [trans], in order. *)
Definition trans_log : list event :=
  flat_map row_log (iters (up 0 1) (Z.to_nat N)).

Definition block32_log (i j : Z) : list event :=
  flat_map (fun k => oct_log k j) (iters (up i 1) 8).

Definition band32_log (i : Z) : list event :=
  flat_map (block32_log i) (iters (up 0 8) (Z.to_nat (M / 8))).

(** The accesses of [transpose32x32], in order. *)
Definition log32x32 : list event :=
  flat_map band32_log (iters (up 0 8) (Z.to_nat (N / 8))).

Definition up_stripe_log (i j : Z) : list event :=
  flat_map (fun k => quad_log k j) (iters (up i 1) 8).

Definition down_stripe_log (i j : Z) : list event :=
  flat_map (fun k => quad_log k j) (iters (down (i + 7)) 8).

Definition stripe_log (i j : Z) : list event :=
  if even_stripe j then up_stripe_log i j else down_stripe_log i j.

Definition band3264_log (i : Z) : list event :=
  flat_map (stripe_log i) (iters (up 0 4) (Z.to_nat (M / 4))).

(** The accesses of [transpose32x64], in order. *)
Definition log32x64 : list event :=
  flat_map band3264_log (iters (up 0 8) (Z.to_nat (N / 8))).

Definition fill_stripe_log (i j : Z) : list event :=
  flat_map (fun k => fill_log i k j) (iters (up i 1) 8).

Definition drain_stripe_log (i j : Z) : list event :=
  flat_map (fun k => drain_log i k j) (iters (down (i + 7)) 8).

Definition stripe64_log (i j : Z) : list event :=
  if even_stripe j then fill_stripe_log i j else drain_stripe_log i j.

(** The accesses of the even stripe at [j] and of the odd stripe that
    follows it, at [j + 4]. *)
Definition pair64_log (i j : Z) : list event :=
  fill_stripe_log i j ++ drain_stripe_log i (j + 4).

Definition band64_log (i : Z) : list event :=
  flat_map (stripe64_log i) (iters (up 0 4) (Z.to_nat (M / 4))).

(** The accesses of [transpose64x64], in order. *)
Definition log64x64 : list event :=
  flat_map band64_log (iters (up 0 8) (Z.to_nat (N / 8))).

(** The even stripe at rows [i..i+7], columns [j..j+3] of [A]: it
    transposes its 32 cells and leaves [A[i+1][j+4..j+7]] in [c4..c7]. *)
Definition fill_stripe (i j : Z) : prog unit :=
  for_up 9 i (i + 8) 1 (fun k =>
    load M N c0 k j ;;
    load M N c1 k (j + 1) ;;
    load M N c2 k (j + 2) ;;
    load M N c3 k (j + 3) ;;
    (if k =? i + 1 then
       load M N c4 k (j + 4) ;;
       load M N c5 k (j + 5) ;;
       load M N c6 k (j + 6) ;;
       load M N c7 k (j + 7)
     else ret tt) ;;
    store M N j k c0 ;;
    store M N (j + 1) k c1 ;;
    store M N (j + 2) k c2 ;;
    store M N (j + 3) k c3).

(** The odd stripe at rows [i+7..i], columns [j..j+3] of [A]. *)
Definition drain_stripe (i j : Z) : prog unit :=
  for_down 9 (i + 7) i (fun k =>
    if k =? i + 1 then
      store M N j k c4 ;;
      store M N (j + 1) k c5 ;;
      store M N (j + 2) k c6 ;;
      store M N (j + 3) k c7
    else
      load M N c0 k j ;;
      load M N c1 k (j + 1) ;;
      load M N c2 k (j + 2) ;;
      load M N c3 k (j + 3) ;;
      store M N j k c0 ;;
      store M N (j + 1) k c1 ;;
      store M N (j + 2) k c2 ;;
      store M N (j + 3) k c3).

(** [B] is the transpose of [A] on the declared rectangles. *)
Definition agree (s : state) : Prop :=
  forall i j, 0 <= i < N -> 0 <= j < M ->
              cell s ArrA i j = cell s ArrB j i.

Definition same_mem (s s' : state) : Prop :=
  memA s' = memA s /\ memB s' = memB s.

(** A mismatch at some cell of the rectangle. *)
Definition mismatch (s : state) : Prop :=
  exists i j, 0 <= i < N /\ 0 <= j < M /\
              cell s ArrA i j <> cell s ArrB j i.

End Vocabulary.

(** ** Runs on concrete inputs *)

Example trans_2x2 :
  let o := trans 2 2 (start [1; 2; 3; 4] [0; 0; 0; 0]) in
  result o = inl tt /\ memA (final o) = [1; 2; 3; 4] /\
  memB (final o) = [1; 3; 2; 4] /\
  log (final o) = one_log 0 0 ++ one_log 0 1 ++ one_log 1 0 ++ one_log 1 1.
Proof. vm_compute. repeat split. Qed.

Example transpose_submit_8x8 :
  let o := transpose_submit 8 8 (start (ramp 64) (zeros 64)) in
  result o = inl tt /\
  memB (final o) =
  [0; 8; 16; 24; 32; 40; 48; 56; 1; 9; 17; 25; 33; 41; 49; 57;
   2; 10; 18; 26; 34; 42; 50; 58; 3; 11; 19; 27; 35; 43; 51; 59;
   4; 12; 20; 28; 36; 44; 52; 60; 5; 13; 21; 29; 37; 45; 53; 61;
   6; 14; 22; 30; 38; 46; 54; 62; 7; 15; 23; 31; 39; 47; 55; 63].
Proof. vm_compute. split; reflexivity. Qed.

Example transpose_submit_4x8_stops :
  result (transpose_submit 4 8 (start (ramp 32) (zeros 32)))
  = inr (OutOfBounds ArrA 1 4).
Proof. vm_compute. reflexivity. Qed.

Example is_transpose_accepts :
  result (is_transpose 2 2 (start [1; 2; 3; 4] [1; 3; 2; 4])) = inl 1.
Proof. vm_compute. reflexivity. Qed.

Example is_transpose_rejects :
  result (is_transpose 2 2 (start [1; 2; 3; 4] [1; 3; 2; 5])) = inl 0.
Proof. vm_compute. reflexivity. Qed.

(** ** Reasoning about runs *)

Section Logic.

Context {X Y : Type}.

Lemma wp_ok (m : prog X) Q s :
  wp m Q s <-> exists x s', m s = Ok x s' /\ Q x s'.
Proof.
  unfold wp. split.
  - destruct (m s) as [x s'|e s']; [eauto | tauto].
  - intros (x & s' & -> & HQ). exact HQ.
Qed.

Lemma wp_ret (x : X) Q s : Q x s -> wp (ret x) Q s.
Proof. intro H. exact H. Qed.

Lemma wp_bind (m : prog X) (k : X -> prog Y) Q s :
  wp m (fun x s' => wp (k x) Q s') s -> wp (bind m k) Q s.
Proof.
  unfold wp, bind. destruct (m s) as [x s'|e s']; [tauto | tauto].
Qed.

Lemma wp_mono (m : prog X) (Q Q' : X -> state -> Prop) s :
  wp m Q s -> (forall x s', Q x s' -> Q' x s') -> wp m Q' s.
Proof.
  unfold wp. destruct (m s) as [x s'|e s']; [auto | tauto].
Qed.

End Logic.

Lemma iters_S ix n : iters ix (S n) = iters ix n ++ [ix n].
Proof. unfold iters. rewrite seq_S, map_app. reflexivity. Qed.

(** [n] iterations of an ascending loop, with an invariant indexed by the
    number of iterations done. *)
Lemma wp_for_up (Inv : nat -> state -> Prop) (n : nat) body step :
  0 < step ->
  forall fuel lo hi s,
  (n < fuel)%nat ->
  hi = lo + Z.of_nat n * step ->
  Inv 0%nat s ->
  (forall t s', (t < n)%nat -> Inv t s' ->
     wp (body (up lo step t)) (fun _ => Inv (S t)) s') ->
  wp (for_up fuel lo hi step body) (fun _ => Inv n) s.
Proof.
  intros Hstep. revert Inv. induction n as [|n IH]; intros Inv fuel lo hi s Hf Hhi H0 Hb.
  - destruct fuel as [|f]; [lia|]. cbn [for_up].
    replace (lo <? hi) with false by (symmetry; apply Z.ltb_ge; lia).
    apply wp_ret, H0.
  - destruct fuel as [|f]; [lia|]. cbn [for_up].
    replace (lo <? hi) with true by (symmetry; apply Z.ltb_lt; nia).
    apply wp_bind.
    assert (Hlo : up lo step 0 = lo) by (unfold up; lia).
    generalize (Hb 0%nat s ltac:(lia) H0). rewrite Hlo. intro Hfirst.
    apply (wp_mono _ _ _ _ Hfirst). intros _ s1 H1.
    apply (IH (fun t => Inv (S t))); [lia | lia | exact H1 |].
    intros t s' Ht Hi.
    replace (up (lo + step) step t) with (up lo step (S t)) by (unfold up; lia).
    apply Hb; [lia | exact Hi].
Qed.

(** The same for a descending loop [for (k = hi; k >= lo; k--)]. *)
Lemma wp_for_down (Inv : nat -> state -> Prop) (n : nat) body :
  forall fuel hi lo s,
  (n < fuel)%nat ->
  hi = lo + Z.of_nat n - 1 ->
  Inv 0%nat s ->
  (forall t s', (t < n)%nat -> Inv t s' ->
     wp (body (down hi t)) (fun _ => Inv (S t)) s') ->
  wp (for_down fuel hi lo body) (fun _ => Inv n) s.
Proof.
  revert Inv. induction n as [|n IH]; intros Inv fuel hi lo s Hf Hhi H0 Hb.
  - destruct fuel as [|f]; [lia|]. cbn [for_down].
    replace (hi >=? lo) with false by (rewrite Z.geb_leb; symmetry; apply Z.leb_gt; lia).
    apply wp_ret, H0.
  - destruct fuel as [|f]; [lia|]. cbn [for_down].
    replace (hi >=? lo) with true by (rewrite Z.geb_leb; symmetry; apply Z.leb_le; lia).
    apply wp_bind.
    assert (Hhi0 : down hi 0 = hi) by (unfold down; lia).
    generalize (Hb 0%nat s ltac:(lia) H0). rewrite Hhi0. intro Hfirst.
    apply (wp_mono _ _ _ _ Hfirst). intros _ s1 H1.
    apply (IH (fun t => Inv (S t))); [lia | lia | exact H1 |].
    intros t s' Ht Hi.
    replace (down (hi - 1) t) with (down hi (S t)) by (unfold down; lia).
    apply Hb; [lia | exact Hi].
Qed.

(** ** Cells, valid buffers and the effect of a block of statements *)

Section Effects.

Variables M N : Z.

Lemma in_rect_spec a r c :
  in_rect M N a r c = true <-> (0 <= r < rows M N a /\ 0 <= c < cols M N a).
Proof.
  unfold in_rect. rewrite !andb_true_iff, !Z.leb_le, !Z.ltb_lt. lia.
Qed.

Lemma offset_lt a r c :
  in_rect M N a r c = true ->
  (offset M N a r c < Z.to_nat (rows M N a * cols M N a))%nat.
Proof.
  intros H%in_rect_spec. unfold offset. apply Z2Nat.inj_lt; nia.
Qed.

Lemma offset_inj a r c r' c' :
  in_rect M N a r c = true -> in_rect M N a r' c' = true ->
  offset M N a r c = offset M N a r' c' -> r = r' /\ c = c'.
Proof.
  intros H%in_rect_spec H'%in_rect_spec Heq. unfold offset in Heq.
  apply Z2Nat.inj in Heq; [|nia|nia].
  assert (r = r') by nia. subst r'. lia.
Qed.

Lemma mem_length s a :
  bufs_ok M N s -> length (mem s a) = Z.to_nat (rows M N a * cols M N a).
Proof. intros [HA HB]. destruct a; assumption. Qed.

Lemma cell_Some s a r c :
  bufs_ok M N s -> in_rect M N a r c = true -> exists v, cell M N s a r c = Some v.
Proof.
  intros Hb Hin. unfold cell.
  destruct (lookup_lt_is_Some_2 (mem s a) (offset M N a r c)) as [v Hv].
  - rewrite (mem_length _ _ Hb). apply offset_lt, Hin.
  - exists v. exact Hv.
Qed.

Lemma bufs_ok_after_load x v r c s : bufs_ok M N s -> bufs_ok M N (after_load x v r c s).
Proof. intro H. exact H. Qed.

Lemma bufs_ok_after_store r c x v s : bufs_ok M N s -> bufs_ok M N (after_store M N r c x v s).
Proof.
  intros [HA HB]. split; [exact HA|]. cbn [after_store memB].
  rewrite length_insert. exact HB.
Qed.

Lemma cell_after_load x v r' c' s a r c :
  cell M N (after_load x v r' c' s) a r c = cell M N s a r c.
Proof. destruct a; reflexivity. Qed.

Lemma cellA_after_store r' c' x v s r c :
  cell M N (after_store M N r' c' x v s) ArrA r c = cell M N s ArrA r c.
Proof. reflexivity. Qed.

Lemma cellB_after_store r' c' x v s r c :
  bufs_ok M N s -> in_rect M N ArrB r' c' = true -> in_rect M N ArrB r c = true ->
  cell M N (after_store M N r' c' x v s) ArrB r c =
  if (r =? r') && (c =? c') then Some v else cell M N s ArrB r c.
Proof.
  intros Hb Hin' Hin. unfold cell. cbn [after_store mem memB].
  destruct (Z.eqb_spec r r') as [->|Hr]; cbn [andb].
  - destruct (Z.eqb_spec c c') as [->|Hc].
    + apply list_lookup_insert_eq.
      rewrite (proj2 Hb). apply (offset_lt ArrB), Hin.
    + apply list_lookup_insert_ne. intro Heq.
      apply offset_inj in Heq; [lia | assumption | assumption].
  - apply list_lookup_insert_ne. intro Heq.
    apply offset_inj in Heq; [lia | assumption | assumption].
Qed.

Lemma load_run x r c v s :
  in_rect M N ArrA r c = true -> cell M N s ArrA r c = Some v ->
  load M N x r c s = Ok tt (after_load x v r c s).
Proof.
  intros Hin Hv. unfold load, bind, read. rewrite Hin.
  unfold cell in Hv. rewrite Hv. unfold assign, emit, after_load.
  cbn [memA memB locals log]. rewrite <- app_assoc. reflexivity.
Qed.

Lemma store_run r c x v s :
  bufs_ok M N s -> in_rect M N ArrB r c = true -> locals s x = Some v ->
  store M N r c x s = Ok tt (after_store M N r c x v s).
Proof.
  intros Hb Hin Hx. unfold store, bind, use, write. rewrite Hx.
  cbn [emit mem memA memB locals log]. rewrite Hin.
  replace (_ <? _)%nat with true.
  - unfold emit, set_mem, after_store. cbn [memA memB locals log mem].
    rewrite <- app_assoc. reflexivity.
  - symmetry. apply Nat.ltb_lt. rewrite (proj2 Hb).
    apply (offset_lt ArrB), Hin.
Qed.

(** Symbolic execution of one statement in front of a continuation. *)
Lemma wp_load {X} x r c (k : prog X) Q s :
  bufs_ok M N s -> in_rect M N ArrA r c = true ->
  (forall v, cell M N s ArrA r c = Some v -> wp k Q (after_load x v r c s)) ->
  wp (load M N x r c ;; k) Q s.
Proof.
  intros Hb Hin Hk. destruct (cell_Some s ArrA r c Hb Hin) as [v Hv].
  apply wp_bind. unfold wp at 1. rewrite (load_run x r c v s Hin Hv).
  apply Hk, Hv.
Qed.

Lemma wp_load_last x r c (Q : unit -> state -> Prop) s :
  bufs_ok M N s -> in_rect M N ArrA r c = true ->
  (forall v, cell M N s ArrA r c = Some v -> Q tt (after_load x v r c s)) ->
  wp (load M N x r c) Q s.
Proof.
  intros Hb Hin Hk. destruct (cell_Some s ArrA r c Hb Hin) as [v Hv].
  unfold wp. rewrite (load_run x r c v s Hin Hv). apply Hk, Hv.
Qed.

Lemma wp_store {X} r c x v (k : prog X) Q s :
  bufs_ok M N s -> in_rect M N ArrB r c = true -> locals s x = Some v ->
  wp k Q (after_store M N r c x v s) ->
  wp (store M N r c x ;; k) Q s.
Proof.
  intros Hb Hin Hx Hk. apply wp_bind. unfold wp at 1.
  rewrite (store_run r c x v s Hb Hin Hx). exact Hk.
Qed.

Lemma wp_store_last r c x v (Q : unit -> state -> Prop) s :
  bufs_ok M N s -> in_rect M N ArrB r c = true -> locals s x = Some v ->
  Q tt (after_store M N r c x v s) ->
  wp (store M N r c x) Q s.
Proof.
  intros Hb Hin Hx Hk. unfold wp.
  rewrite (store_run r c x v s Hb Hin Hx). exact Hk.
Qed.

Lemma effect_bufs dom keep t s s' : effect M N dom keep t s s' -> bufs_ok M N s -> bufs_ok M N s'.
Proof.
  intros E [HA HB]. split.
  - rewrite (eff_A _ _ _ _ _ _ _ E). exact HA.
  - rewrite (eff_len _ _ _ _ _ _ _ E). exact HB.
Qed.

Lemma effect_refl dom keep s :
  (forall r c, in_rect M N ArrB r c = true -> dom r c = false) ->
  effect M N dom keep [] s s.
Proof.
  intro Hd. split; try reflexivity.
  - intros r c Hin. rewrite (Hd r c Hin). reflexivity.
  - symmetry. apply app_nil_r.
Qed.

(** Sequencing two effects, up to a pointwise description of the result. *)
Lemma effect_seq d1 k1 t1 d2 k2 t2 d k t s s1 s2 :
  effect M N d1 k1 t1 s s1 -> effect M N d2 k2 t2 s1 s2 ->
  (forall r c, in_rect M N ArrB r c = true -> d r c = d1 r c || d2 r c) ->
  (forall x, k x = true -> k1 x = true /\ k2 x = true) ->
  t = t1 ++ t2 ->
  effect M N d k t s s2.
Proof.
  intros E1 E2 Hd Hk ->. split.
  - rewrite (eff_A _ _ _ _ _ _ _ E2). apply (eff_A _ _ _ _ _ _ _ E1).
  - rewrite (eff_len _ _ _ _ _ _ _ E2). apply (eff_len _ _ _ _ _ _ _ E1).
  - intros r c Hin. rewrite (eff_dom _ _ _ _ _ _ _ E2 r c Hin), (Hd r c Hin).
    unfold cell at 1. cbn [mem]. rewrite (eff_A _ _ _ _ _ _ _ E1).
    rewrite (eff_dom _ _ _ _ _ _ _ E1 r c Hin).
    destruct (d1 r c), (d2 r c); reflexivity.
  - intros x Hx. destruct (Hk x Hx) as [H1 H2].
    rewrite (eff_keep _ _ _ _ _ _ _ E2 x H2). apply (eff_keep _ _ _ _ _ _ _ E1 x H1).
  - rewrite (eff_log _ _ _ _ _ _ _ E2), (eff_log _ _ _ _ _ _ _ E1), app_assoc. reflexivity.
Qed.

End Effects.

(** ** The blocks of statements inside the innermost loops *)

Ltac rect := apply in_rect_spec; cbn [rows cols]; lia.

Ltac bufs :=
  repeat first [ assumption | apply bufs_ok_after_store | apply bufs_ok_after_load ].

Ltac held :=
  first [ reflexivity
        | cbn [locals after_store after_load]; eassumption ].

Ltac step :=
  lazymatch goal with
  | |- wp (load _ _ _ _ _ ;; _) _ _ =>
      let v := fresh "v" in
      let Hv := fresh "Hv" in
      apply wp_load;
      [bufs | rect | intros v Hv; rewrite ?cell_after_load, ?cellA_after_store in Hv]
  | |- wp (load _ _ _ _ _) _ _ =>
      let v := fresh "v" in
      let Hv := fresh "Hv" in
      apply wp_load_last;
      [bufs | rect | intros v Hv; rewrite ?cell_after_load, ?cellA_after_store in Hv]
  | |- wp (store _ _ _ _ _ ;; _) _ _ =>
      eapply wp_store; [bufs | rect | held | ]
  | |- wp (store _ _ _ _ _) _ _ =>
      eapply wp_store_last; [bufs | rect | held | ]
  | |- wp (ret tt ;; _) _ _ => apply wp_bind, wp_ret
  | |- wp ((_ ;; _) ;; _) _ _ => apply wp_bind
  end.

(** Decide a cell-by-cell comparison of two descriptions by cases on the
    index tests. *)
Ltac cases_idx :=
  repeat match goal with
  | |- context [?a =? ?b] => destruct (Z.eqb_spec a b)
  | |- context [?a <=? ?b] => destruct (Z.leb_spec a b)
  | |- context [?a <? ?b] => destruct (Z.ltb_spec a b)
  end;
  cbn [andb orb negb]; try reflexivity; try lia; try (subst; congruence).

Ltac effect_fields :=
  split;
  [ reflexivity
  | cbn [memB after_store after_load]; rewrite ?length_insert; reflexivity
  | intros ?r ?c ?Hin;
    repeat (rewrite cellB_after_store by (first [rect | assumption | bufs]));
    rewrite ?cell_after_load
  | let x := fresh "x" in let Hx := fresh "Hx" in
    intros x Hx; destruct x; try discriminate Hx; reflexivity
  | cbn [log after_store after_load]; rewrite <- ?app_assoc; reflexivity ].

Section Blocks.

Variables M N : Z.

Lemma wp_quad k j s :
  bufs_ok M N s -> 0 <= k < N -> 0 <= j -> j + 4 <= M ->
  wp (load M N c0 k j ;;
      load M N c1 k (j + 1) ;;
      load M N c2 k (j + 2) ;;
      load M N c3 k (j + 3) ;;
      store M N j k c0 ;;
      store M N (j + 1) k c1 ;;
      store M N (j + 2) k c2 ;;
      store M N (j + 3) k c3)
     (fun _ s' => effect M N (quad_dom k j) is_carry (quad_log k j) s s') s.
Proof.
  intros Hb Hk Hj HjM.
  do 8 step.
  effect_fields.
  unfold quad_dom. cases_idx.
Qed.

Lemma wp_oct k j s :
  bufs_ok M N s -> 0 <= k < N -> 0 <= j -> j + 8 <= M ->
  wp (load M N c0 k j ;;
      load M N c1 k (j + 1) ;;
      load M N c2 k (j + 2) ;;
      load M N c3 k (j + 3) ;;
      load M N c4 k (j + 4) ;;
      load M N c5 k (j + 5) ;;
      load M N c6 k (j + 6) ;;
      load M N c7 k (j + 7) ;;
      store M N j k c0 ;;
      store M N (j + 1) k c1 ;;
      store M N (j + 2) k c2 ;;
      store M N (j + 3) k c3 ;;
      store M N (j + 4) k c4 ;;
      store M N (j + 5) k c5 ;;
      store M N (j + 6) k c6 ;;
      store M N (j + 7) k c7)
     (fun _ s' => effect M N (oct_dom k j) no_var (oct_log k j) s s') s.
Proof.
  intros Hb Hk Hj HjM.
  do 16 step.
  effect_fields.
  unfold oct_dom. cases_idx.
Qed.

Lemma wp_one i j s :
  bufs_ok M N s -> 0 <= i < N -> 0 <= j < M ->
  wp (load M N tmp i j ;; store M N j i tmp)
     (fun _ s' => effect M N (one_dom i j) no_var (one_log i j) s s') s.
Proof.
  intros Hb Hi Hj.
  do 2 step.
  effect_fields.
  unfold one_dom. cases_idx.
Qed.

Lemma carry_effect dom keep t s s' i j :
  effect M N dom keep t s s' ->
  (forall x, is_carry x = true -> keep x = true) ->
  carry M N s i j -> carry M N s' i j.
Proof.
  intros E Hk (H4 & H5 & H6 & H7). unfold carry, cell. cbn [mem].
  rewrite (eff_A _ _ _ _ _ _ _ E).
  rewrite !(eff_keep _ _ _ _ _ _ _ E) by (apply Hk; reflexivity).
  repeat split; assumption.
Qed.

Lemma wp_fill i k j s :
  bufs_ok M N s -> 0 <= k < N -> 0 <= j -> j + 8 <= M ->
  wp (load M N c0 k j ;;
      load M N c1 k (j + 1) ;;
      load M N c2 k (j + 2) ;;
      load M N c3 k (j + 3) ;;
      (if k =? i + 1 then
         load M N c4 k (j + 4) ;;
         load M N c5 k (j + 5) ;;
         load M N c6 k (j + 6) ;;
         load M N c7 k (j + 7)
       else ret tt) ;;
      store M N j k c0 ;;
      store M N (j + 1) k c1 ;;
      store M N (j + 2) k c2 ;;
      store M N (j + 3) k c3)
     (fun _ s' => effect M N (quad_dom k j) (keep_fill i k) (fill_log i k j) s s' /\
                  (k = i + 1 -> carry M N s' i (j + 4))) s.
Proof.
  intros Hb Hk Hj HjM. unfold fill_log, keep_fill.
  do 4 step.
  destruct (Z.eqb_spec k (i + 1)) as [->|Hne].
  - do 9 step. split.
    + effect_fields. unfold quad_dom. cases_idx.
    + intros _. unfold carry.
      rewrite !cellA_after_store, !cell_after_load.
      cbn [locals after_store after_load set_local var_eqb].
      replace (j + 4 + 1) with (j + 5) by lia.
      replace (j + 4 + 2) with (j + 6) by lia.
      replace (j + 4 + 3) with (j + 7) by lia.
      repeat split; congruence.
  - do 5 step. split.
    + effect_fields. unfold quad_dom. cases_idx.
    + intro Heq. contradiction.
Qed.

Lemma wp_drain i k j s :
  bufs_ok M N s -> carry M N s i j -> 0 <= k < N -> 0 <= j -> j + 4 <= M ->
  wp (if k =? i + 1 then
        store M N j k c4 ;;
        store M N (j + 1) k c5 ;;
        store M N (j + 2) k c6 ;;
        store M N (j + 3) k c7
      else
        load M N c0 k j ;;
        load M N c1 k (j + 1) ;;
        load M N c2 k (j + 2) ;;
        load M N c3 k (j + 3) ;;
        store M N j k c0 ;;
        store M N (j + 1) k c1 ;;
        store M N (j + 2) k c2 ;;
        store M N (j + 3) k c3)
     (fun _ s' => effect M N (quad_dom k j) is_carry (drain_log i k j) s s') s.
Proof.
  intros Hb (H4 & H5 & H6 & H7) Hk Hj HjM. unfold drain_log.
  destruct (Z.eqb_spec k (i + 1)) as [->|Hne].
  - destruct (cell_Some M N s ArrA (i + 1) j Hb ltac:(rect)) as [v4 Hv4].
    destruct (cell_Some M N s ArrA (i + 1) (j + 1) Hb ltac:(rect)) as [v5 Hv5].
    destruct (cell_Some M N s ArrA (i + 1) (j + 2) Hb ltac:(rect)) as [v6 Hv6].
    destruct (cell_Some M N s ArrA (i + 1) (j + 3) Hb ltac:(rect)) as [v7 Hv7].
    rewrite Hv4 in H4. rewrite Hv5 in H5. rewrite Hv6 in H6. rewrite Hv7 in H7.
    do 4 step.
    effect_fields. unfold quad_dom. cases_idx.
  - apply wp_quad; assumption.
Qed.

End Blocks.

(** ** Loops of blocks *)

Section Loops.

Variables M N : Z.

Lemma effect_ext d d' k k' t s s' :
  effect M N d k t s s' ->
  (forall r c, in_rect M N ArrB r c = true -> d' r c = d r c) ->
  (forall x, k' x = true -> k x = true) ->
  effect M N d' k' t s s'.
Proof.
  intros E Hd Hk. split.
  - apply (eff_A _ _ _ _ _ _ _ E).
  - apply (eff_len _ _ _ _ _ _ _ E).
  - intros r c Hin. rewrite (Hd r c Hin). apply (eff_dom _ _ _ _ _ _ _ E r c Hin).
  - intros x Hx. apply (eff_keep _ _ _ _ _ _ _ E), Hk, Hx.
  - apply (eff_log _ _ _ _ _ _ _ E).
Qed.

Lemma flat_map_iters_S {E} (l : Z -> list E) ix t :
  flat_map l (iters ix (S t)) = flat_map l (iters ix t) ++ l (ix t).
Proof.
  rewrite iters_S, flat_map_app. cbn [flat_map]. rewrite app_nil_r. reflexivity.
Qed.

Lemma loop_inv_0 d keep l ix (P : state -> Prop) s :
  (forall r c, in_rect M N ArrB r c = true -> d 0%nat r c = false) ->
  bufs_ok M N s -> P s -> loop_inv M N d keep l ix P s 0%nat s.
Proof.
  intros Hd Hb HP. split; [split|]; [|exact HP|exact Hb].
  apply effect_refl, Hd.
Qed.

Lemma loop_inv_S d keep l ix (P : state -> Prop) s t s' s'' db kb :
  loop_inv M N d keep l ix P s t s' ->
  effect M N db kb (l (ix t)) s' s'' ->
  (forall x, keep x = true -> kb x = true) ->
  (forall r c, in_rect M N ArrB r c = true -> d (S t) r c = d t r c || db r c) ->
  P s'' ->
  loop_inv M N d keep l ix P s (S t) s''.
Proof.
  intros [[E _] Hb] Eb Hk Hd HP. split; [split|]; [|exact HP|].
  - apply (effect_seq M N _ _ _ _ _ _ _ _ _ _ _ _ E Eb Hd).
    + intros x Hx. split; [exact Hx | apply Hk, Hx].
    + apply flat_map_iters_S.
  - apply (effect_bufs M N _ _ _ _ _ Eb Hb).
Qed.

Lemma for_up_effect d keep l (P : state -> Prop) body n step fuel lo hi s :
  0 < step -> (n < fuel)%nat -> hi = lo + Z.of_nat n * step ->
  (forall r c, in_rect M N ArrB r c = true -> d 0%nat r c = false) ->
  (forall t s', (t < n)%nat -> bufs_ok M N s' -> P s' ->
     wp (body (up lo step t))
        (fun _ s'' => P s'' /\ exists db,
             effect M N db keep (l (up lo step t)) s' s'' /\
             forall r c, in_rect M N ArrB r c = true ->
                         d (S t) r c = d t r c || db r c) s') ->
  bufs_ok M N s -> P s ->
  wp (for_up fuel lo hi step body)
     (fun _ s' => effect M N (d n) keep (flat_map l (iters (up lo step) n)) s s' /\ P s') s.
Proof.
  intros Hstep Hf Hhi Hd0 Hbody Hb HP.
  apply (wp_mono _ (fun _ => loop_inv M N d keep l (up lo step) P s n)).
  - apply wp_for_up; [exact Hstep | exact Hf | exact Hhi | |].
    + apply loop_inv_0; assumption.
    + intros t s' Ht Hinv.
      apply (wp_mono _ _ _ _ (Hbody t s' Ht (proj2 Hinv) (proj2 (proj1 Hinv)))).
      intros _ s'' (HP'' & db & Eb & Hdb).
      apply (loop_inv_S _ _ _ _ _ _ _ _ _ db keep Hinv Eb); auto.
  - intros _ s' [H _]. exact H.
Qed.

Lemma for_down_effect d keep l (P : state -> Prop) body n fuel hi lo s :
  (n < fuel)%nat -> hi = lo + Z.of_nat n - 1 ->
  (forall r c, in_rect M N ArrB r c = true -> d 0%nat r c = false) ->
  (forall t s', (t < n)%nat -> bufs_ok M N s' -> P s' ->
     wp (body (down hi t))
        (fun _ s'' => P s'' /\ exists db,
             effect M N db keep (l (down hi t)) s' s'' /\
             forall r c, in_rect M N ArrB r c = true ->
                         d (S t) r c = d t r c || db r c) s') ->
  bufs_ok M N s -> P s ->
  wp (for_down fuel hi lo body)
     (fun _ s' => effect M N (d n) keep (flat_map l (iters (down hi) n)) s s' /\ P s') s.
Proof.
  intros Hf Hhi Hd0 Hbody Hb HP.
  apply (wp_mono _ (fun _ => loop_inv M N d keep l (down hi) P s n)).
  - apply wp_for_down; [exact Hf | exact Hhi | |].
    + apply loop_inv_0; assumption.
    + intros t s' Ht Hinv.
      apply (wp_mono _ _ _ _ (Hbody t s' Ht (proj2 Hinv) (proj2 (proj1 Hinv)))).
      intros _ s'' (HP'' & db & Eb & Hdb).
      apply (loop_inv_S _ _ _ _ _ _ _ _ _ db keep Hinv Eb); auto.
  - intros _ s' [H _]. exact H.
Qed.

(** Entering a routine: only the locals change. *)
Lemma wp_declare {X} (k : prog X) Q s :
  (forall s0, effect M N (fun _ _ => false) no_var [] s s0 ->
              locals s0 = no_locals -> wp k Q s0) ->
  wp (declare_locals ;; k) Q s.
Proof.
  intro Hk. apply wp_bind. unfold wp at 1, declare_locals. apply Hk; [|reflexivity].
  split; cbn [memA memB locals log]; try reflexivity.
  - intros x Hx. discriminate Hx.
  - symmetry. apply app_nil_r.
Qed.

End Loops.

(** ** The routines *)

Section Baseline.

Variables M N : Z.

Lemma wp_trans_row i s :
  bufs_ok M N s -> 0 <= M -> 0 <= i < N ->
  wp (for_up (S (Z.to_nat M)) 0 M 1 (fun j =>
        load M N tmp i j ;; store M N j i tmp))
     (fun _ s' => effect M N (band_dom i 1) no_var (row_log M i) s s') s.
Proof.
  intros Hb HM Hi.
  eapply wp_mono.
  - apply (for_up_effect M N
             (fun t r c => (c =? i) && (r <? Z.of_nat t)) no_var (one_log i) true_state
             _ (Z.to_nat M)); try (exact I || assumption || lia).
    + intros r c Hin%in_rect_spec. cases_idx.
    + intros t s' Ht Hb' _.
      eapply wp_mono; [apply wp_one; unfold up; try assumption; lia|].
      intros ? s'' E. split; [exact I|]. eexists. split; [exact E|].
      intros r c Hin%in_rect_spec. unfold one_dom, up. cases_idx.
  - intros _ s' [E _]. apply (effect_ext M N _ _ _ _ _ _ _ E); [|auto].
    intros r c Hin%in_rect_spec. unfold band_dom. cbn [rows cols] in Hin. cases_idx.
Qed.

Lemma wp_trans s :
  bufs_ok M N s -> 0 <= M -> 0 <= N ->
  wp (trans M N) (fun _ s' => effect M N all_dom no_var (trans_log M N) s s') s.
Proof.
  intros Hb HM HN. unfold trans.
  apply (wp_declare M N). intros s0 E0 _.
  assert (Hb0 : bufs_ok M N s0) by apply (effect_bufs M N _ _ _ _ _ E0 Hb).
  eapply wp_mono.
  - apply (for_up_effect M N
             (fun t r c => c <? Z.of_nat t) no_var (row_log M) true_state
             _ (Z.to_nat N)); try (exact I || assumption || lia).
    + intros r c Hin%in_rect_spec. cases_idx.
    + intros t s' Ht Hb' _.
      eapply wp_mono; [apply wp_trans_row; unfold up; try assumption; lia|].
      intros ? s'' E. split; [exact I|]. eexists. split; [exact E|].
      intros r c Hin%in_rect_spec. unfold band_dom, up. cases_idx.
  - intros _ s' [E _].
    apply (effect_seq M N _ _ _ _ _ _ all_dom no_var (trans_log M N) _ _ _ E0 E).
    + intros r c Hin%in_rect_spec. unfold all_dom. cbn [rows cols] in Hin. cases_idx.
    + intros y Hy. discriminate Hy.
    + reflexivity.
Qed.

End Baseline.

(** Counting the iterations of [for (x = 0; x < X; x += w)] when [w]
    divides [X]. *)
Lemma stride_count w X :
  0 < w -> 0 <= X -> (w | X) ->
  X = 0 + Z.of_nat (Z.to_nat (X / w)) * w /\ (Z.to_nat (X / w) < S (Z.to_nat X))%nat.
Proof.
  intros Hw HX [q Hq]. subst X. rewrite Z.div_mul by lia. split; nia.
Qed.

Lemma stride_index w X t :
  0 < w -> (w | X) -> (t < Z.to_nat (X / w))%nat ->
  0 <= up 0 w t /\ up 0 w t + w <= X.
Proof.
  intros Hw [q Hq] Ht. subst X. rewrite Z.div_mul in Ht by lia. unfold up. nia.
Qed.

Section Tuned32x32.

Variables M N : Z.

Lemma wp_block32 i j s :
  bufs_ok M N s -> 0 <= i -> i + 8 <= N -> 0 <= j -> j + 8 <= M ->
  wp (for_up 9 i (i + 8) 1 (fun k =>
        load M N c0 k j ;;
        load M N c1 k (j + 1) ;;
        load M N c2 k (j + 2) ;;
        load M N c3 k (j + 3) ;;
        load M N c4 k (j + 4) ;;
        load M N c5 k (j + 5) ;;
        load M N c6 k (j + 6) ;;
        load M N c7 k (j + 7) ;;
        store M N j k c0 ;;
        store M N (j + 1) k c1 ;;
        store M N (j + 2) k c2 ;;
        store M N (j + 3) k c3 ;;
        store M N (j + 4) k c4 ;;
        store M N (j + 5) k c5 ;;
        store M N (j + 6) k c6 ;;
        store M N (j + 7) k c7))
     (fun _ s' => effect M N (block_dom i j) no_var (block32_log i j) s s') s.
Proof.
  intros Hb Hi HiN Hj HjM.
  eapply wp_mono.
  - apply (for_up_effect M N
             (fun t r c => (j <=? r) && (r <? j + 8) && (i <=? c) && (c <? i + Z.of_nat t))
             no_var (fun k => oct_log k j) true_state _ 8);
      try (exact I || assumption || lia).
    + intros r c Hin%in_rect_spec. cases_idx.
    + intros t s' Ht Hb' _.
      eapply wp_mono; [apply wp_oct; unfold up; try assumption; lia|].
      intros ? s'' E. split; [exact I|]. eexists. split; [exact E|].
      intros r c Hin%in_rect_spec. unfold oct_dom, up. cases_idx.
  - intros ? s' [E _]. exact E.
Qed.

Lemma wp_band32 i s :
  bufs_ok M N s -> 0 <= i -> i + 8 <= N -> 0 <= M -> (8 | M) ->
  wp (for_up (S (Z.to_nat M)) 0 M 8 (fun j =>
      for_up 9 i (i + 8) 1 (fun k =>
        load M N c0 k j ;;
        load M N c1 k (j + 1) ;;
        load M N c2 k (j + 2) ;;
        load M N c3 k (j + 3) ;;
        load M N c4 k (j + 4) ;;
        load M N c5 k (j + 5) ;;
        load M N c6 k (j + 6) ;;
        load M N c7 k (j + 7) ;;
        store M N j k c0 ;;
        store M N (j + 1) k c1 ;;
        store M N (j + 2) k c2 ;;
        store M N (j + 3) k c3 ;;
        store M N (j + 4) k c4 ;;
        store M N (j + 5) k c5 ;;
        store M N (j + 6) k c6 ;;
        store M N (j + 7) k c7)))
     (fun _ s' => effect M N (band_dom i 8) no_var (band32_log M i) s s') s.
Proof.
  intros Hb Hi HiN HM HdM.
  destruct (stride_count 8 M ltac:(lia) HM HdM) as [HMn Hfuel].
  eapply wp_mono.
  - apply (for_up_effect M N
             (fun t r c => (r <? 8 * Z.of_nat t) && (i <=? c) && (c <? i + 8))
             no_var (block32_log i) true_state _ (Z.to_nat (M / 8)));
      try (exact I || assumption || lia).
    + intros r c Hin%in_rect_spec. cases_idx.
    + intros t s' Ht Hb' _.
      destruct (stride_index 8 M t ltac:(lia) HdM Ht) as [Hj HjM].
      eapply wp_mono; [apply wp_block32; try assumption; lia|].
      intros ? s'' E. split; [exact I|]. eexists. split; [exact E|].
      intros r c Hin%in_rect_spec. unfold block_dom, up. cases_idx.
  - intros ? s' [E _]. apply (effect_ext M N _ _ _ _ _ _ _ E); [|auto].
    intros r c Hin%in_rect_spec. unfold band_dom. cbn [rows cols] in Hin. cases_idx.
Qed.

Lemma wp_transpose32x32 s :
  bufs_ok M N s -> 0 <= M -> (8 | M) -> 0 <= N -> (8 | N) ->
  wp (transpose32x32 M N) (fun _ s' => effect M N all_dom no_var (log32x32 M N) s s') s.
Proof.
  intros Hb HM HdM HN HdN. unfold transpose32x32.
  destruct (stride_count 8 N ltac:(lia) HN HdN) as [HNn Hfuel].
  apply (wp_declare M N). intros s0 E0 _.
  assert (Hb0 : bufs_ok M N s0) by apply (effect_bufs M N _ _ _ _ _ E0 Hb).
  eapply wp_mono.
  - apply (for_up_effect M N
             (fun t r c => c <? 8 * Z.of_nat t) no_var (band32_log M) true_state
             _ (Z.to_nat (N / 8))); try (exact I || assumption || lia).
    + intros r c Hin%in_rect_spec. cases_idx.
    + intros t s' Ht Hb' _.
      destruct (stride_index 8 N t ltac:(lia) HdN Ht) as [Hi HiN].
      eapply wp_mono; [apply wp_band32; try assumption; lia|].
      intros ? s'' E. split; [exact I|]. eexists. split; [exact E|].
      intros r c Hin%in_rect_spec. unfold band_dom, up. cases_idx.
  - intros ? s' [E _].
    apply (effect_seq M N _ _ _ _ _ _ all_dom no_var (log32x32 M N) _ _ _ E0 E).
    + intros r c Hin%in_rect_spec. unfold all_dom. cbn [rows cols] in Hin. cases_idx.
    + intros y Hy. discriminate Hy.
    + reflexivity.
Qed.

End Tuned32x32.

Lemma even_stripe_up t : even_stripe (up 0 4 t) = Nat.even t.
Proof.
  unfold even_stripe, up. destruct (Nat.even t) eqn:He.
  - apply Nat.even_spec in He. destruct He as [u ->].
    apply Z.eqb_eq. Z.to_euclidean_division_equations. lia.
  - assert (Ho : Nat.odd t = true) by (rewrite <- Nat.negb_even, He; reflexivity).
    apply Nat.odd_spec in Ho. destruct Ho as [u ->].
    apply Z.eqb_neq. Z.to_euclidean_division_equations. lia.
Qed.

(** An even stripe of a matrix whose width is a multiple of 8 has the
    next stripe to its right. *)
Lemma stripe_pair X t :
  (8 | X) -> (t < Z.to_nat (X / 4))%nat -> Nat.even t = true ->
  up 0 4 t + 8 <= X.
Proof.
  intros [q Hq] Ht He. apply Nat.even_spec in He. destruct He as [u ->].
  subst X. replace (q * 8 / 4) with (q * 2) in Ht
    by (Z.to_euclidean_division_equations; lia).
  unfold up. lia.
Qed.

Lemma divide_8_4 X : (8 | X) -> (4 | X).
Proof. intros [q ->]. exists (q * 2). lia. Qed.

Section Tuned32x64.

Variables M N : Z.

Lemma wp_up_stripe i j s :
  bufs_ok M N s -> 0 <= i -> i + 8 <= N -> 0 <= j -> j + 4 <= M ->
  wp (for_up 9 i (i + 8) 1 (fun k =>
        load M N c0 k j ;;
        load M N c1 k (j + 1) ;;
        load M N c2 k (j + 2) ;;
        load M N c3 k (j + 3) ;;
        store M N j k c0 ;;
        store M N (j + 1) k c1 ;;
        store M N (j + 2) k c2 ;;
        store M N (j + 3) k c3))
     (fun _ s' => effect M N (stripe_dom i j) is_carry (up_stripe_log i j) s s') s.
Proof.
  intros Hb Hi HiN Hj HjM.
  eapply wp_mono.
  - apply (for_up_effect M N
             (fun t r c => (j <=? r) && (r <? j + 4) && (i <=? c) && (c <? i + Z.of_nat t))
             is_carry (fun k => quad_log k j) true_state _ 8);
      try (exact I || assumption || lia).
    + intros r c Hin%in_rect_spec. cases_idx.
    + intros t s' Ht Hb' _.
      eapply wp_mono; [apply wp_quad; unfold up; try assumption; lia|].
      intros ? s'' E. split; [exact I|]. eexists. split; [exact E|].
      intros r c Hin%in_rect_spec. unfold quad_dom, up. cases_idx.
  - intros ? s' [E _]. exact E.
Qed.

Lemma wp_down_stripe i j s :
  bufs_ok M N s -> 0 <= i -> i + 8 <= N -> 0 <= j -> j + 4 <= M ->
  wp (for_down 9 (i + 7) i (fun k =>
        load M N c0 k j ;;
        load M N c1 k (j + 1) ;;
        load M N c2 k (j + 2) ;;
        load M N c3 k (j + 3) ;;
        store M N j k c0 ;;
        store M N (j + 1) k c1 ;;
        store M N (j + 2) k c2 ;;
        store M N (j + 3) k c3))
     (fun _ s' => effect M N (stripe_dom i j) is_carry (down_stripe_log i j) s s') s.
Proof.
  intros Hb Hi HiN Hj HjM.
  eapply wp_mono.
  - apply (for_down_effect M N
             (fun t r c => (j <=? r) && (r <? j + 4) &&
                           (i + 8 - Z.of_nat t <=? c) && (c <? i + 8))
             is_carry (fun k => quad_log k j) true_state _ 8);
      try (exact I || assumption || lia).
    + intros r c Hin%in_rect_spec. cases_idx.
    + intros t s' Ht Hb' _.
      eapply wp_mono; [apply wp_quad; unfold down; try assumption; lia|].
      intros ? s'' E. split; [exact I|]. eexists. split; [exact E|].
      intros r c Hin%in_rect_spec. unfold quad_dom, down. cases_idx.
  - intros ? s' [E _]. apply (effect_ext M N _ _ _ _ _ _ _ E); [|auto].
    intros r c Hin%in_rect_spec. unfold stripe_dom. cases_idx.
Qed.

Lemma wp_transpose32x64 s :
  bufs_ok M N s -> 0 <= M -> (4 | M) -> 0 <= N -> (8 | N) ->
  wp (transpose32x64 M N) (fun _ s' => effect M N all_dom no_var (log32x64 M N) s s') s.
Proof.
  intros Hb HM HdM HN HdN. unfold transpose32x64.
  destruct (stride_count 8 N ltac:(lia) HN HdN) as [HNn HfuelN].
  destruct (stride_count 4 M ltac:(lia) HM HdM) as [HMn HfuelM].
  apply (wp_declare M N). intros s0 E0 _.
  assert (Hb0 : bufs_ok M N s0) by apply (effect_bufs M N _ _ _ _ _ E0 Hb).
  eapply wp_mono.
  - apply (for_up_effect M N
             (fun t r c => c <? 8 * Z.of_nat t) no_var (band3264_log M) true_state
             _ (Z.to_nat (N / 8))); try (exact I || assumption || lia).
    + intros r c Hin%in_rect_spec. cases_idx.
    + intros t s' Ht Hb' _.
      destruct (stride_index 8 N t ltac:(lia) HdN Ht) as [Hi HiN].
      set (i := up 0 8 t) in *.
      eapply wp_mono.
      * apply (for_up_effect M N
                 (fun u r c => (r <? 4 * Z.of_nat u) && (i <=? c) && (c <? i + 8))
                 no_var (stripe_log i) true_state _ (Z.to_nat (M / 4)));
          try (exact I || assumption || lia).
        -- intros r c Hin%in_rect_spec. cases_idx.
        -- intros u s1 Hu Hb1 _.
           destruct (stride_index 4 M u ltac:(lia) HdM Hu) as [Hj HjM].
           unfold stripe_log. destruct (even_stripe (up 0 4 u)).
           ++ eapply wp_mono; [apply wp_up_stripe; try assumption; lia|].
              intros ? s2 E. split; [exact I|]. eexists. split.
              ** apply (effect_ext M N _ _ _ _ _ _ _ E); [reflexivity|]. intros y Hy. discriminate Hy.
              ** intros r c Hin%in_rect_spec. unfold stripe_dom, up. cases_idx.
           ++ eapply wp_mono; [apply wp_down_stripe; try assumption; lia|].
              intros ? s2 E. split; [exact I|]. eexists. split.
              ** apply (effect_ext M N _ _ _ _ _ _ _ E); [reflexivity|]. intros y Hy. discriminate Hy.
              ** intros r c Hin%in_rect_spec. unfold stripe_dom, up. cases_idx.
      * intros ? s'' [E _]. split; [exact I|]. exists (band_dom i 8). split.
        -- apply (effect_ext M N _ _ _ _ _ _ _ E); [|auto].
           intros r c Hin%in_rect_spec. unfold band_dom. cbn [rows cols] in Hin. cases_idx.
        -- intros r c Hin%in_rect_spec. unfold band_dom, i, up. cases_idx.
  - intros ? s' [E _].
    apply (effect_seq M N _ _ _ _ _ _ all_dom no_var (log32x64 M N) _ _ _ E0 E).
    + intros r c Hin%in_rect_spec. unfold all_dom. cbn [rows cols] in Hin. cases_idx.
    + intros y Hy. discriminate Hy.
    + reflexivity.
Qed.

End Tuned32x64.

Section Tuned64x64.

Variables M N : Z.

(** The routine is its two stripes under the two outer loops. *)
Lemma transpose64x64_stripes :
  transpose64x64 M N =
  (declare_locals ;;
   for_up (S (Z.to_nat N)) 0 N 8 (fun i =>
     for_up (S (Z.to_nat M)) 0 M 4 (fun j =>
       if even_stripe j then fill_stripe M N i j else drain_stripe M N i j))).
Proof. reflexivity. Qed.

Lemma wp_fill_stripe i j s :
  bufs_ok M N s -> 0 <= i -> i + 8 <= N -> 0 <= j -> j + 8 <= M ->
  wp (fill_stripe M N i j)
     (fun _ s' => effect M N (stripe_dom i j) no_var (fill_stripe_log i j) s s' /\
                  carry M N s' i (j + 4)) s.
Proof.
  intros Hb Hi HiN Hj HjM. unfold fill_stripe.
  set (d := fun (t : nat) r c =>
              (j <=? r) && (r <? j + 4) && (i <=? c) && (c <? i + Z.of_nat t)).
  apply (wp_mono _ (fun _ s' =>
           loop_inv M N d no_var (fun k => fill_log i k j) (up i 1) true_state s 8 s' /\
           ((2 <= 8)%nat -> carry M N s' i (j + 4)))).
  - apply (wp_for_up (fun t s' =>
             loop_inv M N d no_var (fun k => fill_log i k j) (up i 1) true_state s t s' /\
             ((2 <= t)%nat -> carry M N s' i (j + 4))) 8); try lia.
    + split; [|lia]. apply loop_inv_0; [|assumption|exact I].
      intros r c Hin%in_rect_spec. unfold d. cases_idx.
    + intros t s' Ht [Hinv Hc].
      eapply wp_mono; [apply (wp_fill M N i); unfold up; try lia; apply Hinv|].
      intros ? s'' [E Hnew]. split.
      * apply (loop_inv_S M N _ _ _ _ _ _ _ _ _ _ _ Hinv E); [| |exact I].
        -- intros y Hy. discriminate Hy.
        -- intros r c Hin%in_rect_spec. unfold d, quad_dom, up. cases_idx.
      * intros Ht2. destruct (Nat.eq_dec t 1%nat) as [->|Hne].
        -- apply Hnew. unfold up. lia.
        -- apply (carry_effect M N _ _ _ _ _ _ _ E); [|apply Hc; lia].
           intros y Hy. unfold keep_fill. rewrite Hy.
           replace (up i 1 t =? i + 1) with false; [reflexivity|].
           symmetry. apply Z.eqb_neq. unfold up. lia.
  - intros ? s' [[[E _] _] Hc]. split; [exact E | apply Hc; lia].
Qed.

Lemma wp_drain_stripe i j s :
  bufs_ok M N s -> carry M N s i j -> 0 <= i -> i + 8 <= N -> 0 <= j -> j + 4 <= M ->
  wp (drain_stripe M N i j)
     (fun _ s' => effect M N (stripe_dom i j) is_carry (drain_stripe_log i j) s s') s.
Proof.
  intros Hb Hc Hi HiN Hj HjM. unfold drain_stripe.
  eapply wp_mono.
  - apply (for_down_effect M N
             (fun t r c => (j <=? r) && (r <? j + 4) &&
                           (i + 8 - Z.of_nat t <=? c) && (c <? i + 8))
             is_carry (fun k => drain_log i k j) (fun s' => carry M N s' i j) _ 8);
      try (assumption || lia).
    + intros r c Hin%in_rect_spec. cases_idx.
    + intros t s' Ht Hb' Hc'.
      eapply wp_mono; [apply (wp_drain M N i); unfold down; try assumption; lia|].
      intros ? s'' E. split.
      * apply (carry_effect M N _ _ _ _ _ _ _ E); [auto | exact Hc'].
      * eexists. split; [exact E|].
        intros r c Hin%in_rect_spec. unfold quad_dom, down. cases_idx.
  - intros ? s' [E _]. apply (effect_ext M N _ _ _ _ _ _ _ E); [|auto].
    intros r c Hin%in_rect_spec. unfold stripe_dom. cases_idx.
Qed.

(** One band of eight rows of [A]: the stripes alternate, and whenever an
    odd stripe is about to start [c4..c7] hold its row [i+1]. *)
Lemma wp_band64 i s :
  bufs_ok M N s -> 0 <= i -> i + 8 <= N -> 0 <= M -> (8 | M) ->
  wp (for_up (S (Z.to_nat M)) 0 M 4 (fun j =>
        if even_stripe j then fill_stripe M N i j else drain_stripe M N i j))
     (fun _ s' => effect M N (band_dom i 8) no_var (band64_log M i) s s') s.
Proof.
  intros Hb Hi HiN HM HdM.
  assert (HdM4 : (4 | M)) by apply divide_8_4, HdM.
  destruct (stride_count 4 M ltac:(lia) HM HdM4) as [HMn Hfuel].
  set (d := fun (t : nat) r c => (r <? 4 * Z.of_nat t) && (i <=? c) && (c <? i + 8)).
  set (Inv := fun t s' =>
         loop_inv M N d no_var (stripe64_log i) (up 0 4) true_state s t s' /\
         (Nat.even t = false -> carry M N s' i (up 0 4 t))).
  apply (wp_mono _ (fun _ => Inv (Z.to_nat (M / 4)))).
  - apply (wp_for_up Inv); try (assumption || lia).
    + split; [|discriminate]. apply loop_inv_0; [|assumption|exact I].
      intros r c Hin%in_rect_spec. unfold d. cases_idx.
    + intros t s' Ht [Hinv Hc].
      destruct (stride_index 4 M t ltac:(lia) HdM4 Ht) as [Hj HjM].
      assert (Hb' : bufs_ok M N s') by apply Hinv.
      pose proof (even_stripe_up t) as Hev. unfold Inv.
      assert (Hnext : Nat.even (S t) = negb (Nat.even t)) by (rewrite Nat.even_succ, <- Nat.negb_even; reflexivity).
      destruct (Nat.even t) eqn:He; rewrite Hev.
      * pose proof (stripe_pair M t HdM Ht He) as Hpair.
        eapply wp_mono; [apply wp_fill_stripe; try assumption; lia|].
        intros ? s'' [E Hc'']. split.
        -- assert (E' : effect M N (stripe_dom i (up 0 4 t)) no_var
                           (stripe64_log i (up 0 4 t)) s' s'')
             by (unfold stripe64_log; rewrite Hev; exact E).
           apply (loop_inv_S M N _ _ _ _ _ _ _ _ _ _ _ Hinv E'); [auto| |exact I].
           intros r c Hin%in_rect_spec. unfold d, stripe_dom, up. cases_idx.
        -- intros _. replace (up 0 4 (S t)) with (up 0 4 t + 4) by (unfold up; lia).
           exact Hc''.
      * eapply wp_mono; [apply wp_drain_stripe; try assumption; try lia; apply Hc; reflexivity|].
        intros ? s'' E. split.
        -- assert (E' : effect M N (stripe_dom i (up 0 4 t)) is_carry
                           (stripe64_log i (up 0 4 t)) s' s'')
             by (unfold stripe64_log; rewrite Hev; exact E).
           apply (loop_inv_S M N _ _ _ _ _ _ _ _ _ _ _ Hinv E'); [| |exact I].
           ++ intros y Hy. discriminate Hy.
           ++ intros r c Hin%in_rect_spec. unfold d, stripe_dom, up. cases_idx.
        -- rewrite Hnext. discriminate.
  - intros ? s' [[[E _] _] _]. apply (effect_ext M N _ _ _ _ _ _ _ E); [|auto].
    intros r c Hin%in_rect_spec. unfold band_dom, d. cbn [rows cols] in Hin. cases_idx.
Qed.

Lemma wp_transpose64x64 s :
  bufs_ok M N s -> 0 <= M -> (8 | M) -> 0 <= N -> (8 | N) ->
  wp (transpose64x64 M N) (fun _ s' => effect M N all_dom no_var (log64x64 M N) s s') s.
Proof.
  intros Hb HM HdM HN HdN. rewrite transpose64x64_stripes.
  destruct (stride_count 8 N ltac:(lia) HN HdN) as [HNn HfuelN].
  apply (wp_declare M N). intros s0 E0 _.
  assert (Hb0 : bufs_ok M N s0) by apply (effect_bufs M N _ _ _ _ _ E0 Hb).
  eapply wp_mono.
  - apply (for_up_effect M N
             (fun t r c => c <? 8 * Z.of_nat t) no_var (band64_log M) true_state
             _ (Z.to_nat (N / 8))); try (exact I || assumption || lia).
    + intros r c Hin%in_rect_spec. cases_idx.
    + intros t s' Ht Hb' _.
      destruct (stride_index 8 N t ltac:(lia) HdN Ht) as [Hi HiN].
      eapply wp_mono; [apply wp_band64; try assumption; lia|].
      intros ? s'' E. split; [exact I|]. eexists. split; [exact E|].
      intros r c Hin%in_rect_spec. unfold band_dom, up. cases_idx.
  - intros ? s' [E _].
    apply (effect_seq M N _ _ _ _ _ _ all_dom no_var (log64x64 M N) _ _ _ E0 E).
    + intros r c Hin%in_rect_spec. unfold all_dom. cbn [rows cols] in Hin. cases_idx.
    + intros y Hy. discriminate Hy.
    + reflexivity.
Qed.

End Tuned64x64.

(** ** Properties every run keeps, whether it returns or stops at a fault *)

Section Preservation.

Variable I : state -> Prop.

Lemma preserves_ret {X} (x : X) : preserves I (ret x).
Proof. intros s H. exact H. Qed.

Lemma preserves_bind {X Y} (m : prog X) (k : X -> prog Y) :
  preserves I m -> (forall x, preserves I (k x)) -> preserves I (bind m k).
Proof.
  intros Hm Hk s H. unfold bind. specialize (Hm s H).
  destruct (m s) as [x s'|e s']; cbn [final] in *.
  - apply Hk, Hm.
  - exact Hm.
Qed.

Lemma preserves_for_up fuel step hi body :
  (forall k, preserves I (body k)) ->
  forall k, preserves I (for_up fuel k hi step body).
Proof.
  intro Hb. induction fuel as [|f IH]; intros k; cbn [for_up].
  - intros s H. exact H.
  - destruct (k <? hi).
    + apply preserves_bind; [apply Hb | intros _; apply IH].
    + apply preserves_ret.
Qed.

Lemma preserves_for_down fuel lo body :
  (forall k, preserves I (body k)) ->
  forall k, preserves I (for_down fuel k lo body).
Proof.
  intro Hb. induction fuel as [|f IH]; intros k; cbn [for_down].
  - intros s H. exact H.
  - destruct (k >=? lo).
    + apply preserves_bind; [apply Hb | intros _; apply IH].
    + apply preserves_ret.
Qed.

Variables M N : Z.

Hypothesis I_declare : preserves I declare_locals.
Hypothesis I_load : forall x r c, preserves I (load M N x r c).
Hypothesis I_store : forall r c x, preserves I (store M N r c x).

Ltac pres :=
  repeat first
    [ apply I_declare | apply I_load | apply I_store | apply preserves_ret
    | apply preserves_bind; [|intros ?]
    | apply preserves_for_up; intros ?
    | apply preserves_for_down; intros ?
    | match goal with |- preserves _ (if ?b then _ else _) => destruct b end ].

Lemma preserves_trans : preserves I (trans M N).
Proof. unfold trans. pres. Qed.

Lemma preserves_transpose32x32 : preserves I (transpose32x32 M N).
Proof. unfold transpose32x32. pres. Qed.

Lemma preserves_transpose32x64 : preserves I (transpose32x64 M N).
Proof. unfold transpose32x64. pres. Qed.

Lemma preserves_transpose64x64 : preserves I (transpose64x64 M N).
Proof. unfold transpose64x64. pres. Qed.


Lemma preserves_transpose_submit : preserves I (transpose_submit M N).
Proof.
  unfold transpose_submit.
  destruct ((M =? 32) && (N =? 32)); [apply preserves_transpose32x32|].
  destruct ((M =? 32) && (N =? 64)); [apply preserves_transpose32x64|].
  apply preserves_transpose64x64.
Qed.

End Preservation.

Section Frames.

Variables M N : Z.




Lemma bounds_declare : preserves (log_in_bounds M N) declare_locals.
Proof. intros s H. exact H. Qed.

Lemma bounds_load x r c : preserves (log_in_bounds M N) (load M N x r c).
Proof.
  intros s HL. unfold log_in_bounds, load, bind, read in *.
  destruct (in_rect M N ArrA r c) eqn:Hin; [|assumption].
  destruct (mem s ArrA !! offset M N ArrA r c); [|assumption].
  cbn [final assign emit log memA memB locals].
  repeat (apply Forall_app; split); auto.
Qed.

Lemma bounds_store r c x : preserves (log_in_bounds M N) (store M N r c x).
Proof.
  intros s HL. unfold log_in_bounds, store, bind, use in *.
  destruct (locals s x); [|assumption]. unfold write.
  cbn [emit mem memA memB locals log].
  destruct (in_rect M N ArrB r c) eqn:Hin.
  - destruct (_ <? _)%nat; cbn [final emit set_mem log memA memB locals];
      repeat (apply Forall_app; split); auto.
  - cbn [final log]. apply Forall_app; split; auto.
Qed.

End Frames.

(** ** The oracle *)

Section Oracle.

Variables M N : Z.

Lemma wp_for_up_ret (Inv : Z -> state -> Prop) (R : Z -> state -> Prop) body lo0 hi :
  (forall k s, lo0 <= k < hi -> Inv k s ->
     wp (body k)
        (fun r s' => match r with Some v => R v s' | None => Inv (k + 1) s' end) s) ->
  forall fuel lo s,
  lo0 <= lo -> (Z.to_nat (hi - lo) < fuel)%nat -> Inv lo s ->
  wp (for_up_ret fuel lo hi body)
     (fun r s' => match r with
                  | Some v => R v s'
                  | None => exists k, hi <= k /\ (lo <= hi -> k = hi) /\ Inv k s'
                  end) s.
Proof.
  intros Hbody. induction fuel as [|f IH]; intros lo s Hlo Hf H0; [lia|].
  cbn [for_up_ret]. destruct (Z.ltb_spec lo hi) as [Hlt|Hge].
  - apply wp_bind. apply (wp_mono _ _ _ _ (Hbody lo s ltac:(lia) H0)).
    intros [v|] s' H'.
    + apply wp_ret. exact H'.
    + apply (wp_mono _ _ _ _ (IH (lo + 1) s' ltac:(lia) ltac:(lia) H')).
      intros [v|] s'' H''; [exact H''|].
      destruct H'' as (k & Hk1 & Hk2 & Hk3). exists k. repeat split; auto; lia.
  - apply wp_ret. exists lo. repeat split; auto; lia.
Qed.

Lemma wp_read {X} a r c (k : Z -> prog X) Q s :
  bufs_ok M N s -> in_rect M N a r c = true ->
  (forall v, cell M N s a r c = Some v -> wp (k v) Q (emit (Rd a r c) s)) ->
  wp (bind (read M N a r c) k) Q s.
Proof.
  intros Hb Hin Hk. destruct (cell_Some M N s a r c Hb Hin) as [v Hv].
  apply wp_bind. unfold wp at 1, read. rewrite Hin.
  unfold cell in Hv. rewrite Hv. apply Hk. exact Hv.
Qed.

Lemma wp_is_transpose s :
  bufs_ok M N s ->
  wp (is_transpose M N)
     (fun v s' => same_mem s s' /\
                  ((v = 1 /\ agree M N s) \/ (v = 0 /\ mismatch M N s))) s.
Proof.
  intros Hb. unfold is_transpose. apply wp_bind.
  set (R := fun (v : Z) s' => same_mem s s' /\ v = 0 /\ mismatch M N s).
  set (InvI := fun (i : Z) s' =>
         same_mem s s' /\
         forall i' j, 0 <= i' < i -> 0 <= j < M ->
                      cell M N s ArrA i' j = cell M N s ArrB j i').
  eapply wp_mono.
  - apply (wp_for_up_ret InvI R _ 0); [| lia | lia |].
    + intros i s1 Hi [Hm1 Hdone].
      set (InvJ := fun (j : Z) s' =>
             same_mem s s' /\
             forall j', 0 <= j' < j -> cell M N s ArrA i j' = cell M N s ArrB j' i).
      eapply wp_mono.
      * apply (wp_for_up_ret InvJ R _ 0); [| lia | lia |].
        -- intros j s2 Hj (Hm2 & Hrow).
           assert (Hb2 : bufs_ok M N s2)
             by (destruct Hb as [HA HB], Hm2 as [EA EB];
                 split; [rewrite EA | rewrite EB]; assumption).
           apply wp_read; [exact Hb2 | rect |]. intros a Ha.
           apply wp_read; [exact Hb2 | rect |]. intros b Hb'.
           assert (Ha' : cell M N s ArrA i j = Some a)
             by (unfold cell in *; cbn [mem] in *; destruct Hm2 as [<- _]; exact Ha).
           assert (Hb'' : cell M N s ArrB j i = Some b)
             by (unfold cell in *; cbn [mem emit memB] in *;
                 destruct Hm2 as [_ <-]; exact Hb').
           destruct (Z.eqb_spec a b) as [->|Hne]; cbn [negb]; apply wp_ret.
           ++ split; [exact Hm2|]. intros j' Hj'.
              destruct (Z.eq_dec j' j) as [->|Hd]; [congruence | apply Hrow; lia].
           ++ split; [exact Hm2|]. split; [reflexivity|].
              exists i, j. repeat split; try lia. congruence.
        -- split; [exact Hm1|]. intros j' Hj'. lia.
      * intros [v|] s2 H2; [exact H2|].
        destruct H2 as (k & Hk1 & _ & Hm2 & Hrow). split; [exact Hm2|].
        intros i' j Hi' Hj. destruct (Z.eq_dec i' i) as [->|Hd].
        -- apply Hrow. lia.
        -- apply Hdone; lia.
    + split; [split; reflexivity|]. intros i' j Hi'. lia.
  - intros [v|] s' H; apply wp_ret.
    + destruct H as (Hm & -> & Hmis). split; [exact Hm|]. right. split; [reflexivity|exact Hmis].
    + destruct H as (k & Hk1 & _ & Hm & Hall). split; [exact Hm|]. left.
      split; [reflexivity|]. intros i j Hi Hj. apply Hall; lia.
Qed.

End Oracle.

(** ** From effects to the statements about whole matrices *)

Lemma effect_transposed M N keep t s s' :
  bufs_ok M N s -> effect M N all_dom keep t s s' ->
  is_transposed M N (memA s) (memB s').
Proof.
  intros Hb E i j Hi Hj.
  destruct (cell_Some M N s ArrA i j Hb ltac:(rect)) as [v Hv].
  exists v. split; [exact Hv|].
  generalize (eff_dom _ _ _ _ _ _ _ E j i ltac:(rect)).
  unfold all_dom. rewrite Hv. intro H. exact H.
Qed.

(** Two buffers of the declared size that agree on every cell of the
    rectangle of [B] are the same list. *)
Lemma buffers_equal M N (l1 l2 : list Z) :
  0 <= M -> 0 <= N ->
  length l1 = Z.to_nat (M * N) -> length l2 = Z.to_nat (M * N) ->
  (forall r c, in_rect M N ArrB r c = true ->
               l1 !! offset M N ArrB r c = l2 !! offset M N ArrB r c) ->
  l1 = l2.
Proof.
  intros HM0 HN0 H1 H2 Hcells. apply list_eq. intro n.
  destruct (Nat.lt_ge_cases n (Z.to_nat (M * N))) as [Hlt|Hge].
  - assert (HMN : 0 < M * N) by lia.
    destruct (Z.le_gt_cases N 0) as [HN|HN].
    + nia.
    + assert (HM : 0 < M) by nia.
      pose proof (Z.div_mod (Z.of_nat n) N ltac:(lia)) as Hdm.
      pose proof (Z.mod_pos_bound (Z.of_nat n) N HN) as Hmod.
      assert (Hq : 0 <= Z.of_nat n / N < M).
      { split; [apply Z.div_pos; lia|]. apply Z.div_lt_upper_bound; [lia|nia]. }
      specialize (Hcells (Z.of_nat n / N) (Z.of_nat n mod N) ltac:(rect)).
      replace (offset M N ArrB (Z.of_nat n / N) (Z.of_nat n mod N)) with n in Hcells.
      * exact Hcells.
      * unfold offset. cbn [cols]. lia.
  - rewrite !lookup_ge_None_2 by lia. reflexivity.
Qed.

(** ** Counting in logs *)

Lemma fill_stripe_log_rows i j :
  fill_stripe_log i j =
  fill_log i i j ++ fill_log i (i + 1) j ++ fill_log i (i + 2) j ++
  fill_log i (i + 3) j ++ fill_log i (i + 4) j ++ fill_log i (i + 5) j ++
  fill_log i (i + 6) j ++ fill_log i (i + 7) j ++ [].
Proof.
  unfold fill_stripe_log, iters, up. cbn [seq map flat_map].
  replace (i + Z.of_nat 0 * 1) with i by lia.
  replace (i + Z.of_nat 1 * 1) with (i + 1) by lia.
  replace (i + Z.of_nat 2 * 1) with (i + 2) by lia.
  replace (i + Z.of_nat 3 * 1) with (i + 3) by lia.
  replace (i + Z.of_nat 4 * 1) with (i + 4) by lia.
  replace (i + Z.of_nat 5 * 1) with (i + 5) by lia.
  replace (i + Z.of_nat 6 * 1) with (i + 6) by lia.
  replace (i + Z.of_nat 7 * 1) with (i + 7) by lia.
  reflexivity.
Qed.

Lemma drain_stripe_log_rows i j :
  drain_stripe_log i j =
  drain_log i (i + 7) j ++ drain_log i (i + 6) j ++ drain_log i (i + 5) j ++
  drain_log i (i + 4) j ++ drain_log i (i + 3) j ++ drain_log i (i + 2) j ++
  drain_log i (i + 1) j ++ drain_log i i j ++ [].
Proof.
  unfold drain_stripe_log, iters, down. cbn [seq map flat_map].
  replace (i + 7 - Z.of_nat 0) with (i + 7) by lia.
  replace (i + 7 - Z.of_nat 1) with (i + 6) by lia.
  replace (i + 7 - Z.of_nat 2) with (i + 5) by lia.
  replace (i + 7 - Z.of_nat 3) with (i + 4) by lia.
  replace (i + 7 - Z.of_nat 4) with (i + 3) by lia.
  replace (i + 7 - Z.of_nat 5) with (i + 2) by lia.
  replace (i + 7 - Z.of_nat 6) with (i + 1) by lia.
  replace (i + 7 - Z.of_nat 7) with i by lia.
  reflexivity.
Qed.

(** Settle the tests [k == i+1] of an unrolled stripe. *)
Ltac settle_rows :=
  repeat match goal with
  | |- context [?a =? ?b] => destruct (Z.eqb_spec a b); try lia
  end.

Lemma fill_stripe_carry_count i j x :
  is_carry x = true ->
  count (is_def x) (fill_stripe_log i j) = 1%nat /\
  count (is_use x) (fill_stripe_log i j) = 0%nat.
Proof.
  intro Hx. rewrite fill_stripe_log_rows. unfold fill_log. settle_rows.
  destruct x; try discriminate Hx; split; reflexivity.
Qed.

Lemma drain_stripe_carry_count i j x :
  is_carry x = true ->
  count (is_def x) (drain_stripe_log i j) = 0%nat /\
  count (is_use x) (drain_stripe_log i j) = 1%nat.
Proof.
  intro Hx. rewrite drain_stripe_log_rows. unfold drain_log. settle_rows.
  destruct x; try discriminate Hx; split; reflexivity.
Qed.

Lemma drain_stripe_no_reread i j :
  count (reads_row (i + 1)) (drain_stripe_log i j) = 0%nat.
Proof.
  rewrite drain_stripe_log_rows. unfold drain_log. settle_rows.
  unfold quad_log, ev_load, ev_store. cbn [app count reads_row].
  settle_rows; reflexivity.
Qed.

(** ** The checked properties *)

Lemma bufs_ok_start M N A B :
  length A = Z.to_nat (N * M) -> length B = Z.to_nat (M * N) ->
  bufs_ok M N (start A B).
Proof. intros HA HB. split; assumption. Qed.

Lemma run_unit (m : prog unit) Q s :
  wp m Q s -> exists s', m s = Ok tt s' /\ Q tt s'.
Proof.
  intros H. apply wp_ok in H. destruct H as ([] & s' & Hrun & HQ). eauto.
Qed.

Lemma divide_32 : (8 | 32).
Proof. exists 4. reflexivity. Qed.

Lemma divide_64 : (8 | 64).
Proof. exists 8. reflexivity. Qed.

(** On every shape made of whole 8x8 blocks the dispatcher returns and
    has transposed all of [A] into [B]. *)
Lemma wp_transpose_submit M N s :
  bufs_ok M N s -> 0 <= M -> (8 | M) -> 0 <= N -> (8 | N) ->
  wp (transpose_submit M N)
     (fun _ s' => exists t, effect M N all_dom no_var t s s') s.
Proof.
  intros Hb HM HdM HN HdN. unfold transpose_submit.
  destruct ((M =? 32) && (N =? 32)).
  - eapply wp_mono; [apply wp_transpose32x32; assumption|]. intros ? s' E. eexists. exact E.
  - destruct ((M =? 32) && (N =? 64)).
    + eapply wp_mono; [apply wp_transpose32x64; auto using divide_8_4|].
      intros ? s' E. eexists. exact E.
    + eapply wp_mono; [apply wp_transpose64x64; assumption|]. intros ? s' E. eexists. exact E.
Qed.

Lemma supported_blocks M N :
  supported M N -> 0 < M /\ (8 | M) /\ 0 < N /\ (8 | N).
Proof.
  intros [[-> ->]|[[-> ->]|[-> ->]]];
    repeat split; try lia; auto using divide_32, divide_64.
Qed.

(** C1: for each supported shape (32,32), (32,64), (64,64), after
    [transpose_submit] returns, [B[j][i] == A[i][j]] for every [i] in
    [0,N) and [j] in [0,M), with [A] as it was on entry. *)
Theorem transpose_submit_supported M N A B :
  supported M N ->
  length A = Z.to_nat (N * M) -> length B = Z.to_nat (M * N) ->
  exists s', transpose_submit M N (start A B) = Ok tt s' /\
             is_transposed M N A (memB s').
Proof.
  intros Hs HA HB.
  destruct (supported_blocks M N Hs) as (HM & HdM & HN & HdN).
  pose proof (bufs_ok_start M N A B HA HB) as Hb.
  destruct (run_unit _ _ _ (wp_transpose_submit M N _ Hb ltac:(lia) HdM ltac:(lia) HdN))
    as (s' & Hrun & t & E).
  exists s'. split; [exact Hrun|].
  apply (effect_transposed M N _ _ _ _ Hb E).
Qed.

Lemma transpose_submit_supported_witness :
  exists s', transpose_submit 32 64 (start (ramp 2048) (zeros 2048)) = Ok tt s' /\
             is_transposed 32 64 (ramp 2048) (memB s').
Proof.
  apply transpose_submit_supported;
    [right; left; split; reflexivity | reflexivity | reflexivity].
Defined.

(** C3, as the code has it: on a shape that is none of (32,32), (32,64),
    (64,64) and whose [M] and [N] are positive multiples of 8,
    [transpose_submit] runs the 64x64 routine and yields the transpose. *)
Theorem fallback_on_blocks M N A B :
  ~ supported M N ->
  0 < M -> 0 < N -> (8 | M) -> (8 | N) ->
  length A = Z.to_nat (N * M) -> length B = Z.to_nat (M * N) ->
  transpose_submit M N = transpose64x64 M N /\
  exists s', transpose_submit M N (start A B) = Ok tt s' /\
             is_transposed M N A (memB s').
Proof.
  intros Hns HM HN HdM HdN HA HB. split.
  - unfold transpose_submit.
    destruct (Z.eqb_spec M 32) as [->|HM32]; cbn [andb]; [|reflexivity].
    destruct (Z.eqb_spec N 32) as [->|HN32];
      [exfalso; apply Hns; left; split; reflexivity|].
    destruct (Z.eqb_spec N 64) as [->|HN64];
      [exfalso; apply Hns; right; left; split; reflexivity|].
    reflexivity.
  - pose proof (bufs_ok_start M N A B HA HB) as Hb.
    destruct (run_unit _ _ _ (wp_transpose_submit M N _ Hb ltac:(lia) HdM ltac:(lia) HdN))
      as (s' & Hrun & t & E).
    exists s'. split; [exact Hrun|].
    apply (effect_transposed M N _ _ _ _ Hb E).
Qed.

Lemma fallback_on_blocks_witness :
  transpose_submit 8 16 = transpose64x64 8 16 /\
  exists s', transpose_submit 8 16 (start (ramp 128) (zeros 128)) = Ok tt s' /\
             is_transposed 8 16 (ramp 128) (memB s').
Proof.
  apply fallback_on_blocks;
    [ intros [[H _]|[[H _]|[H _]]]; discriminate H | lia | lia
    | exists 1; reflexivity | exists 2; reflexivity
    | reflexivity | reflexivity ].
Defined.

(** C3 fails as stated: on scenario S1, [A = [[1,2],[3,4]]] with
    [N = M = 2], the fallback reads [A[0][2]], outside the 2x2 rectangle,
    and never produces [B = [[1,3],[2,4]]]. *)
Lemma fallback_2x2_stops :
  (exists s, transpose_submit 2 2 (start [1; 2; 3; 4] [0; 0; 0; 0])
             = Fault (OutOfBounds ArrA 0 2) s /\ memB s = [0; 0; 0; 0]) /\
  ~ (exists s', transpose_submit 2 2 (start [1; 2; 3; 4] [0; 0; 0; 0]) = Ok tt s' /\
                memB s' = [1; 3; 2; 4]).
Proof.
  split.
  - eexists. split; reflexivity.
  - intros (s' & Hrun & _). discriminate Hrun.
Qed.

(** C4 fails as stated: on the unrecognized shape [N = M = 2] the
    fallback path of [transpose_submit] subscripts [A[0][2]], a column
    outside the declared 2x2 rectangle of [A]. *)
Lemma fallback_2x2_out_of_bounds :
  in_rect 2 2 ArrA 0 2 = false /\
  exists s, transpose_submit 2 2 (start [1; 2; 3; 4] [0; 0; 0; 0])
            = Fault (OutOfBounds ArrA 0 2) s.
Proof.
  split; [reflexivity|]. eexists. reflexivity.
Qed.

(** C10: for all positive multiples of 8 [M] and [N], [transpose64x64]
    returns with [B[j][i] == A[i][j]] on the whole rectangle, [A] as on
    entry, and every access it logged inside the declared rectangles;
    the dispatcher falls back to it on every such shape it does not
    recognize. *)
Theorem transpose64x64_blocks M N s :
  0 < M -> 0 < N -> (8 | M) -> (8 | N) -> bufs_ok M N s ->
  (exists s', transpose64x64 M N s = Ok tt s' /\
              memA s' = memA s /\
              is_transposed M N (memA s) (memB s') /\
              log s' = log s ++ log64x64 M N /\
              Forall (fun e => in_bounds M N e = true) (log64x64 M N)) /\
  (~ (M = 32 /\ (N = 32 \/ N = 64)) -> transpose_submit M N s = transpose64x64 M N s).
Proof.
  intros HM HN HdM HdN Hb. split.
  - destruct (run_unit _ _ _ (wp_transpose64x64 M N s Hb ltac:(lia) HdM ltac:(lia) HdN))
      as (s' & Hrun & E).
    exists s'. split; [exact Hrun|].
    split; [apply (eff_A _ _ _ _ _ _ _ E)|].
    split; [apply (effect_transposed M N _ _ _ _ Hb E)|].
    split; [apply (eff_log _ _ _ _ _ _ _ E)|].
    set (s0 := mkState (memA s) (memB s) (locals s) []).
    assert (Hb0 : bufs_ok M N s0) by exact Hb.
    destruct (run_unit _ _ _ (wp_transpose64x64 M N s0 Hb0 ltac:(lia) HdM ltac:(lia) HdN))
      as (s0' & Hrun0 & E0).
    assert (H0 : log_in_bounds M N s0) by constructor.
    generalize (preserves_transpose64x64 (log_in_bounds M N) M N
                  (bounds_declare M N) (bounds_load M N) (bounds_store M N)
                  s0 H0).
    rewrite Hrun0. cbn [final]. unfold log_in_bounds.
    rewrite (eff_log _ _ _ _ _ _ _ E0). cbn [log s0 app]. intro H. exact H.
  - intros Hns. unfold transpose_submit.
    destruct (Z.eqb_spec M 32) as [->|HM32]; cbn [andb]; [|reflexivity].
    destruct (Z.eqb_spec N 32) as [->|HN32]; [exfalso; apply Hns; auto|].
    destruct (Z.eqb_spec N 64) as [->|HN64]; [exfalso; apply Hns; auto|].
    reflexivity.
Qed.

Lemma transpose64x64_blocks_witness :
  (exists s', transpose64x64 16 8 (start (ramp 128) (zeros 128)) = Ok tt s' /\
              memA s' = memA (start (ramp 128) (zeros 128)) /\
              is_transposed 16 8 (memA (start (ramp 128) (zeros 128))) (memB s') /\
              log s' = log (start (ramp 128) (zeros 128)) ++ log64x64 16 8 /\
              Forall (fun e => in_bounds 16 8 e = true) (log64x64 16 8)) /\
  (~ (16 = 32 /\ (8 = 32 \/ 8 = 64)) ->
   transpose_submit 16 8 (start (ramp 128) (zeros 128))
   = transpose64x64 16 8 (start (ramp 128) (zeros 128))).
Proof.
  apply transpose64x64_blocks;
    [ lia | lia | exists 2; reflexivity | exists 1; reflexivity
    | split; reflexivity ].
Defined.

(** C5: on each supported shape (32,32), (32,64), (64,64) the routine
    chosen by [transpose_submit] and the baseline [trans], run on the
    same [A], leave identical buffers [B], whatever the two buffers held
    on entry. *)
Theorem tuned_matches_baseline M N A B B' :
  supported M N ->
  length A = Z.to_nat (N * M) ->
  length B = Z.to_nat (M * N) -> length B' = Z.to_nat (M * N) ->
  exists s1 s2,
    transpose_submit M N (start A B) = Ok tt s1 /\
    trans M N (start A B') = Ok tt s2 /\
    memB s1 = memB s2.
Proof.
  intros Hs HA HB HB'.
  destruct (supported_blocks M N Hs) as (HM & HdM & HN & HdN).
  pose proof (bufs_ok_start M N A B HA HB) as Hb.
  pose proof (bufs_ok_start M N A B' HA HB') as Hb'.
  destruct (run_unit _ _ _ (wp_transpose_submit M N _ Hb ltac:(lia) HdM ltac:(lia) HdN))
    as (s1 & Hrun1 & t & E1).
  destruct (run_unit _ _ _ (wp_trans M N _ Hb' ltac:(lia) ltac:(lia))) as (s2 & Hrun2 & E2).
  exists s1, s2. split; [exact Hrun1|]. split; [exact Hrun2|].
  apply (buffers_equal M N); try lia.
  - rewrite (eff_len _ _ _ _ _ _ _ E1). exact HB.
  - rewrite (eff_len _ _ _ _ _ _ _ E2). exact HB'.
  - intros r c Hin.
    generalize (eff_dom _ _ _ _ _ _ _ E1 r c Hin), (eff_dom _ _ _ _ _ _ _ E2 r c Hin).
    unfold cell, all_dom. cbn [mem start memA]. intros -> ->. reflexivity.
Qed.

Lemma tuned_matches_baseline_witness :
  exists s1 s2,
    transpose_submit 32 32 (start (ramp 1024) (zeros 1024)) = Ok tt s1 /\
    trans 32 32 (start (ramp 1024) (ramp 1024)) = Ok tt s2 /\
    memB s1 = memB s2.
Proof.
  apply tuned_matches_baseline;
    [left; split; reflexivity | reflexivity | reflexivity | reflexivity].
Defined.

(** C6: [transpose_submit] dispatches by exact shape match: (32,32) runs
    [transpose32x32], (32,64) runs [transpose32x64], and every other
    shape, (64,64) included, runs [transpose64x64]. *)
Theorem dispatch_by_shape M N :
  (M = 32 -> N = 32 -> transpose_submit M N = transpose32x32 M N) /\
  (M = 32 -> N = 64 -> transpose_submit M N = transpose32x64 M N) /\
  (~ (M = 32 /\ N = 32) -> ~ (M = 32 /\ N = 64) ->
   transpose_submit M N = transpose64x64 M N).
Proof.
  unfold transpose_submit. repeat split.
  - intros -> ->. reflexivity.
  - intros -> ->. reflexivity.
  - intros H1 H2.
    destruct (Z.eqb_spec M 32) as [->|HM32]; cbn [andb]; [|reflexivity].
    destruct (Z.eqb_spec N 32) as [->|HN32]; [exfalso; apply H1; auto|].
    destruct (Z.eqb_spec N 64) as [->|HN64]; [exfalso; apply H2; auto|].
    reflexivity.
Qed.

Lemma dispatch_by_shape_witness :
  transpose_submit 32 32 = transpose32x32 32 32 /\
  transpose_submit 32 64 = transpose32x64 32 64 /\
  transpose_submit 64 64 = transpose64x64 64 64.
Proof.
  split; [|split].
  - apply (proj1 (dispatch_by_shape 32 32)); reflexivity.
  - apply (proj1 (proj2 (dispatch_by_shape 32 64))); reflexivity.
  - apply (proj2 (proj2 (dispatch_by_shape 64 64))); intros [H _]; discriminate H.
Defined.


(** C8: [is_transpose] returns 1 when [A[i][j] == B[j][i]] for every [i]
    in [0,N) and [j] in [0,M), returns 0 otherwise, and leaves [A] and [B]
    as they were. *)
Theorem is_transpose_decides M N A B :
  length A = Z.to_nat (N * M) -> length B = Z.to_nat (M * N) ->
  exists v s',
    is_transpose M N (start A B) = Ok v s' /\
    memA s' = A /\ memB s' = B /\
    (agree M N (start A B) -> v = 1) /\
    (~ agree M N (start A B) -> v = 0).
Proof.
  intros HA HB.
  pose proof (bufs_ok_start M N A B HA HB) as Hb.
  pose proof (wp_is_transpose M N _ Hb) as H. apply wp_ok in H.
  destruct H as (v & s' & Hrun & [HmA HmB] & Hv).
  exists v, s'. split; [exact Hrun|]. split; [exact HmA|]. split; [exact HmB|].
  destruct Hv as [[-> Hag]|[-> (i & j & Hi & Hj & Hne)]]; split; intro H;
    try reflexivity.
  - contradiction.
  - exfalso. apply Hne, H; assumption.
Qed.

Lemma is_transpose_decides_witness :
  exists v s',
    is_transpose 2 2 (start [1; 2; 3; 4] [1; 3; 2; 4]) = Ok v s' /\
    memA s' = [1; 2; 3; 4] /\ memB s' = [1; 3; 2; 4] /\
    (agree 2 2 (start [1; 2; 3; 4] [1; 3; 2; 4]) -> v = 1) /\
    (~ agree 2 2 (start [1; 2; 3; 4] [1; 3; 2; 4]) -> v = 0).
Proof.
  apply is_transpose_decides; reflexivity.
Defined.

Lemma carried_app x held l1 l2 :
  carried x held (l1 ++ l2) =
  match carried x held l1 with
  | Some held' => carried x held' l2
  | None => None
  end.
Proof.
  revert held. induction l1 as [|e l1 IH]; intro held; [reflexivity|].
  destruct e as [a r c|a r c|y|y]; cbn [app carried]; try apply IH;
    destruct (var_eqb y x), held; try apply IH; reflexivity.
Qed.

Lemma fill_stripe_carried i j x :
  is_carry x = true -> carried x false (fill_stripe_log i j) = Some true.
Proof.
  intro Hx. rewrite fill_stripe_log_rows. unfold fill_log. settle_rows.
  destruct x; try discriminate Hx; reflexivity.
Qed.

Lemma drain_stripe_carried i j x :
  is_carry x = true -> carried x true (drain_stripe_log i j) = Some false.
Proof.
  intro Hx. rewrite drain_stripe_log_rows. unfold drain_log. settle_rows.
  destruct x; try discriminate Hx; reflexivity.
Qed.

Lemma flat_map_carried (g : Z -> list event) x l :
  (forall k, carried x false (g k) = Some false) ->
  carried x false (flat_map g l) = Some false.
Proof.
  intro Hg. induction l as [|k l IH]; cbn [flat_map]; [reflexivity|].
  rewrite carried_app, Hg. exact IH.
Qed.

(** The stripes of a band come in pairs, an even one and then an odd one. *)
Lemma band64_pairs i (q : nat) :
  flat_map (stripe64_log i) (iters (up 0 4) (2 * q)) =
  flat_map (pair64_log i) (iters (up 0 8) q).
Proof.
  induction q as [|q IH]; [reflexivity|].
  replace (2 * S q)%nat with (S (S (2 * q))) by lia.
  rewrite !flat_map_iters_S, IH, <- app_assoc. f_equal.
  unfold stripe64_log, pair64_log.
  rewrite !even_stripe_up, Nat.even_succ, <- Nat.negb_even.
  replace (Nat.even (2 * q)) with true
    by (symmetry; apply Nat.even_spec; exists q; reflexivity).
  cbn [negb].
  replace (up 0 4 (2 * q)) with (up 0 8 q) by (unfold up; lia).
  replace (up 0 4 (S (2 * q))) with (up 0 8 q + 4) by (unfold up; lia).
  reflexivity.
Qed.

Lemma log64x64_pairs M N :
  0 <= M -> (8 | M) ->
  log64x64 M N =
  flat_map (fun i => flat_map (pair64_log i) (iters (up 0 8) (Z.to_nat (M / 8))))
           (iters (up 0 8) (Z.to_nat (N / 8))).
Proof.
  intros HM [m ->]. unfold log64x64, band64_log.
  replace (Z.to_nat (m * 8 / 4)) with (2 * Z.to_nat (m * 8 / 8))%nat.
  - apply flat_map_ext. intro i. apply band64_pairs.
  - rewrite Z.div_mul by lia. replace (m * 8) with (m * 2 * 4) by lia.
    rewrite Z.div_mul by lia. lia.
Qed.

Lemma even_stripe_8 j :
  0 <= j -> (8 | j) -> even_stripe j = true /\ even_stripe (j + 4) = false.
Proof.
  intros Hj [z ->]. unfold even_stripe.
  split; [apply Z.eqb_eq | apply Z.eqb_neq];
    Z.to_euclidean_division_equations; lia.
Qed.

(** The index [k] is one of those a loop [for (k = 0; k < X; k += w)]
    goes through. *)
Lemma iters_up_elem w X k :
  0 < w -> (w | k) -> 0 <= k -> k + w <= X ->
  k ∈ iters (up 0 w) (Z.to_nat (X / w)).
Proof.
  intros Hw [z ->] Hk HX. apply list_elem_of_In, in_map_iff.
  exists (Z.to_nat z). split; [unfold up; nia|].
  apply in_seq. split; [lia|].
  assert (z + 1 <= X / w) by (apply Z.div_le_lower_bound; nia).
  nia.
Qed.

(** C2: in a run of [transpose64x64] the stripes come in pairs, the
    even stripe at columns [j..j+3] and then the odd stripe at columns
    [j+4..j+7], and along the whole run each of [c4..c7] is assigned and
    then used, in turn, never used before it is assigned.  The even stripe
    reads [A[i+1][j+4..j+7]] into [c4..c7] at its iteration [k == i+1] and
    holds them at the stripe boundary; the odd stripe that follows stores
    them into [B[j+4..j+7][i+1]] at its iteration [k == i+1] without
    reading row [i+1] of [A] again, and the cells stored are exactly
    [A[i+1][j+4..j+7]]; over the pair each of [c4..c7] is assigned once,
    in the even stripe, and used once, in the odd stripe. *)
Theorem carry_across_stripes M N i j s p :
  0 < M -> 0 < N -> (8 | M) -> (8 | N) ->
  bufs_ok M N s -> bufs_ok M N p ->
  (8 | i) -> 0 <= i -> i + 8 <= N -> (8 | j) -> 0 <= j -> j + 8 <= M ->
  (* the stripes are the two branches of the routine's stripe loop *)
  transpose64x64 M N =
    (declare_locals ;;
     for_up (S (Z.to_nat N)) 0 N 8 (fun i =>
       for_up (S (Z.to_nat M)) 0 M 4 (fun j =>
         if even_stripe j then fill_stripe M N i j else drain_stripe M N i j))) /\
  (* the stripe at [j] takes the even branch, the next one the odd branch *)
  even_stripe j = true /\ even_stripe (j + 4) = false /\
  (* the whole run, from the entry state [s] *)
  (exists s',
     transpose64x64 M N s = Ok tt s' /\
     log s' = log s ++ log64x64 M N /\
     log64x64 M N =
       flat_map (fun i' => flat_map (pair64_log i') (iters (up 0 8) (Z.to_nat (M / 8))))
                (iters (up 0 8) (Z.to_nat (N / 8))) /\
     i ∈ iters (up 0 8) (Z.to_nat (N / 8)) /\
     j ∈ iters (up 0 8) (Z.to_nat (M / 8)) /\
     forall x, is_carry x = true -> carried x false (log64x64 M N) = Some false) /\
  (* the pair of stripes at [(i, j)], from any state [p] at which it starts *)
  exists s1 s2,
    (* the even stripe *)
    fill_stripe M N i j p = Ok tt s1 /\
    log s1 = log p ++ fill_stripe_log i j /\
    fill_log i (i + 1) j =
      ev_load c0 (i + 1) j ++ ev_load c1 (i + 1) (j + 1) ++
      ev_load c2 (i + 1) (j + 2) ++ ev_load c3 (i + 1) (j + 3) ++
      (ev_load c4 (i + 1) (j + 4) ++ ev_load c5 (i + 1) (j + 5) ++
       ev_load c6 (i + 1) (j + 6) ++ ev_load c7 (i + 1) (j + 7)) ++
      ev_store j (i + 1) c0 ++ ev_store (j + 1) (i + 1) c1 ++
      ev_store (j + 2) (i + 1) c2 ++ ev_store (j + 3) (i + 1) c3 /\
    carry M N s1 i (j + 4) /\
    (* the odd stripe *)
    drain_stripe M N i (j + 4) s1 = Ok tt s2 /\
    log s2 = log s1 ++ drain_stripe_log i (j + 4) /\
    drain_log i (i + 1) (j + 4) =
      ev_store (j + 4) (i + 1) c4 ++ ev_store (j + 4 + 1) (i + 1) c5 ++
      ev_store (j + 4 + 2) (i + 1) c6 ++ ev_store (j + 4 + 3) (i + 1) c7 /\
    count (reads_row (i + 1)) (drain_stripe_log i (j + 4)) = 0%nat /\
    (forall r, j + 4 <= r < j + 8 ->
               cell M N s2 ArrB r (i + 1) = cell M N p ArrA (i + 1) r) /\
    (* written before read, once *)
    (forall x, is_carry x = true ->
       count (is_def x) (fill_stripe_log i j) = 1%nat /\
       count (is_use x) (fill_stripe_log i j) = 0%nat /\
       count (is_def x) (drain_stripe_log i (j + 4)) = 0%nat /\
       count (is_use x) (drain_stripe_log i (j + 4)) = 1%nat).
Proof.
  intros HM HN HdM HdN Hbs Hb Hdi Hi HiN Hdj Hj HjM.
  destruct (run_unit _ _ _ (wp_fill_stripe M N i j p Hb Hi HiN Hj HjM))
    as (s1 & Hrun1 & E1 & Hc).
  pose proof (effect_bufs M N _ _ _ _ _ E1 Hb) as Hb1.
  destruct (run_unit _ _ _
              (wp_drain_stripe M N i (j + 4) s1 Hb1 Hc Hi HiN ltac:(lia) ltac:(lia)))
    as (s2 & Hrun2 & E2).
  destruct (even_stripe_8 j Hj Hdj) as [Hev Hodd].
  split; [apply transpose64x64_stripes|].
  split; [exact Hev|]. split; [exact Hodd|].
  split.
  { destruct (run_unit _ _ _ (wp_transpose64x64 M N s Hbs ltac:(lia) HdM ltac:(lia) HdN))
      as (s' & Hrun & E).
    exists s'. split; [exact Hrun|].
    split; [apply (eff_log _ _ _ _ _ _ _ E)|].
    split; [apply log64x64_pairs; [lia | exact HdM]|].
    split; [apply iters_up_elem; (lia || assumption)|].
    split; [apply iters_up_elem; (lia || assumption)|].
    intros x Hx. rewrite log64x64_pairs by (lia || assumption).
    apply flat_map_carried. intro i'. apply flat_map_carried. intro j'.
    unfold pair64_log.
    rewrite carried_app, (fill_stripe_carried _ _ _ Hx).
    apply drain_stripe_carried, Hx. }
  exists s1, s2.
  split; [exact Hrun1|].
  split; [apply (eff_log _ _ _ _ _ _ _ E1)|].
  split; [unfold fill_log; rewrite Z.eqb_refl; reflexivity|].
  split; [exact Hc|].
  split; [exact Hrun2|].
  split; [apply (eff_log _ _ _ _ _ _ _ E2)|].
  split; [unfold drain_log; rewrite Z.eqb_refl; reflexivity|].
  split; [apply drain_stripe_no_reread|].
  split.
  - intros r Hr.
    rewrite (eff_dom _ _ _ _ _ _ _ E2 r (i + 1) ltac:(rect)).
    replace (stripe_dom i (j + 4) r (i + 1)) with true
      by (unfold stripe_dom; cases_idx).
    unfold cell. cbn [mem]. rewrite (eff_A _ _ _ _ _ _ _ E1). reflexivity.
  - intros x Hx.
    destruct (fill_stripe_carry_count i j x Hx) as [H1 H2].
    destruct (drain_stripe_carry_count i (j + 4) x Hx) as [H3 H4].
    repeat split; assumption.
Qed.

Lemma carry_across_stripes_witness :
  transpose64x64 16 8 =
    (declare_locals ;;
     for_up (S (Z.to_nat 8)) 0 8 8 (fun i =>
       for_up (S (Z.to_nat 16)) 0 16 4 (fun j =>
         if even_stripe j then fill_stripe 16 8 i j else drain_stripe 16 8 i j))) /\
  even_stripe 8 = true /\ even_stripe (8 + 4) = false /\
  (exists s',
     transpose64x64 16 8 (start (ramp 128) (zeros 128)) = Ok tt s' /\
     log s' = log (start (ramp 128) (zeros 128)) ++ log64x64 16 8 /\
     log64x64 16 8 =
       flat_map (fun i' => flat_map (pair64_log i') (iters (up 0 8) (Z.to_nat (16 / 8))))
                (iters (up 0 8) (Z.to_nat (8 / 8))) /\
     0 ∈ iters (up 0 8) (Z.to_nat (8 / 8)) /\
     8 ∈ iters (up 0 8) (Z.to_nat (16 / 8)) /\
     forall x, is_carry x = true -> carried x false (log64x64 16 8) = Some false) /\
  exists s1 s2,
    fill_stripe 16 8 0 8 (start (ramp 128) (zeros 128)) = Ok tt s1 /\
    log s1 = log (start (ramp 128) (zeros 128)) ++ fill_stripe_log 0 8 /\
    fill_log 0 (0 + 1) 8 =
      ev_load c0 (0 + 1) 8 ++ ev_load c1 (0 + 1) (8 + 1) ++
      ev_load c2 (0 + 1) (8 + 2) ++ ev_load c3 (0 + 1) (8 + 3) ++
      (ev_load c4 (0 + 1) (8 + 4) ++ ev_load c5 (0 + 1) (8 + 5) ++
       ev_load c6 (0 + 1) (8 + 6) ++ ev_load c7 (0 + 1) (8 + 7)) ++
      ev_store 8 (0 + 1) c0 ++ ev_store (8 + 1) (0 + 1) c1 ++
      ev_store (8 + 2) (0 + 1) c2 ++ ev_store (8 + 3) (0 + 1) c3 /\
    carry 16 8 s1 0 (8 + 4) /\
    drain_stripe 16 8 0 (8 + 4) s1 = Ok tt s2 /\
    log s2 = log s1 ++ drain_stripe_log 0 (8 + 4) /\
    drain_log 0 (0 + 1) (8 + 4) =
      ev_store (8 + 4) (0 + 1) c4 ++ ev_store (8 + 4 + 1) (0 + 1) c5 ++
      ev_store (8 + 4 + 2) (0 + 1) c6 ++ ev_store (8 + 4 + 3) (0 + 1) c7 /\
    count (reads_row (0 + 1)) (drain_stripe_log 0 (8 + 4)) = 0%nat /\
    (forall r, 8 + 4 <= r < 8 + 8 ->
               cell 16 8 s2 ArrB r (0 + 1)
               = cell 16 8 (start (ramp 128) (zeros 128)) ArrA (0 + 1) r) /\
    (forall x, is_carry x = true ->
       count (is_def x) (fill_stripe_log 0 8) = 1%nat /\
       count (is_use x) (fill_stripe_log 0 8) = 0%nat /\
       count (is_def x) (drain_stripe_log 0 (8 + 4)) = 0%nat /\
       count (is_use x) (drain_stripe_log 0 (8 + 4)) = 1%nat).
Proof.
  apply (carry_across_stripes 16 8 0 8
           (start (ramp 128) (zeros 128)) (start (ramp 128) (zeros 128)));
    [ lia | lia | exists 2; reflexivity | exists 1; reflexivity
    | split; reflexivity | split; reflexivity
    | exists 0; reflexivity | lia | lia | exists 1; reflexivity | lia | lia ].
Defined.

(** ** Miss counts *)

Lemma misses_32x32 A B :
  length A = Z.to_nat (32 * 32) -> length B = Z.to_nat (32 * 32) ->
  exists s', transpose_submit 32 32 (start A B) = Ok tt s' /\
             Cache.misses 32 32 (log s') = 284%nat.
Proof.
  intros HA HB. pose proof (bufs_ok_start 32 32 A B HA HB) as Hb.
  change (transpose_submit 32 32) with (transpose32x32 32 32).
  destruct (run_unit _ _ _
              (wp_transpose32x32 32 32 _ Hb ltac:(lia) divide_32 ltac:(lia) divide_32))
    as (s' & Hrun & E).
  exists s'. split; [exact Hrun|].
  rewrite (eff_log _ _ _ _ _ _ _ E). cbn [log start app].
  vm_compute. reflexivity.
Qed.

Lemma misses_32x64 A B :
  length A = Z.to_nat (64 * 32) -> length B = Z.to_nat (32 * 64) ->
  exists s', transpose_submit 32 64 (start A B) = Ok tt s' /\
             Cache.misses 32 64 (log s') = 600%nat.
Proof.
  intros HA HB. pose proof (bufs_ok_start 32 64 A B HA HB) as Hb.
  change (transpose_submit 32 64) with (transpose32x64 32 64).
  destruct (run_unit _ _ _
              (wp_transpose32x64 32 64 _ Hb ltac:(lia)
                 (divide_8_4 32 divide_32) ltac:(lia) divide_64))
    as (s' & Hrun & E).
  exists s'. split; [exact Hrun|].
  rewrite (eff_log _ _ _ _ _ _ _ E). cbn [log start app].
  vm_compute. reflexivity.
Qed.

Lemma misses_64x64 A B :
  length A = Z.to_nat (64 * 64) -> length B = Z.to_nat (64 * 64) ->
  exists s', transpose_submit 64 64 (start A B) = Ok tt s' /\
             Cache.misses 64 64 (log s') = 1352%nat.
Proof.
  intros HA HB. pose proof (bufs_ok_start 64 64 A B HA HB) as Hb.
  change (transpose_submit 64 64) with (transpose64x64 64 64).
  destruct (run_unit _ _ _
              (wp_transpose64x64 64 64 _ Hb ltac:(lia) divide_64 ltac:(lia) divide_64))
    as (s' & Hrun & E).
  exists s'. split; [exact Hrun|].
  rewrite (eff_log _ _ _ _ _ _ _ E). cbn [log start app].
  vm_compute. reflexivity.
Qed.

Lemma misses_trans_64x64 A B :
  length A = Z.to_nat (64 * 64) -> length B = Z.to_nat (64 * 64) ->
  exists s', trans 64 64 (start A B) = Ok tt s' /\
             Cache.misses 64 64 (log s') = 4720%nat.
Proof.
  intros HA HB. pose proof (bufs_ok_start 64 64 A B HA HB) as Hb.
  destruct (run_unit _ _ _ (wp_trans 64 64 _ Hb ltac:(lia) ltac:(lia)))
    as (s' & Hrun & E).
  exists s'. split; [exact Hrun|].
  rewrite (eff_log _ _ _ _ _ _ _ E). cbn [log start app].
  vm_compute. reflexivity.
Qed.

(** C9, as the code has it: against the cold 1 KiB direct-mapped cache
    with 32-byte lines, whatever the contents of the matrices, the routine
    chosen by [transpose_submit] misses 284 times on 32x32 (fewer than
    300), 600 times on 32x64 and 1352 times on 64x64, where the baseline
    [trans] misses 4720 times: an improvement by more than 3 and less
    than 4. *)
Theorem miss_counts M N A B :
  supported M N ->
  length A = Z.to_nat (N * M) -> length B = Z.to_nat (M * N) ->
  exists s', transpose_submit M N (start A B) = Ok tt s' /\
    ((M = 32 /\ N = 32 /\ Cache.misses M N (log s') = 284%nat /\
      (Cache.misses M N (log s') < 300)%nat) \/
     (M = 32 /\ N = 64 /\ Cache.misses M N (log s') = 600%nat) \/
     (M = 64 /\ N = 64 /\ Cache.misses M N (log s') = 1352%nat /\
      exists sb, trans M N (start A B) = Ok tt sb /\
                 Cache.misses M N (log sb) = 4720%nat /\
                 (3 * Cache.misses M N (log s') < Cache.misses M N (log sb)
                  < 4 * Cache.misses M N (log s'))%nat)).
Proof.
  intros [[-> ->]|[[-> ->]|[-> ->]]] HA HB.
  - destruct (misses_32x32 A B HA HB) as (s' & Hrun & Hm).
    exists s'. split; [exact Hrun|]. left. rewrite Hm. repeat split; lia.
  - destruct (misses_32x64 A B HA HB) as (s' & Hrun & Hm).
    exists s'. split; [exact Hrun|]. right. left. repeat split; assumption.
  - destruct (misses_64x64 A B HA HB) as (s' & Hrun & Hm).
    destruct (misses_trans_64x64 A B HA HB) as (sb & Hrunb & Hmb).
    exists s'. split; [exact Hrun|]. right. right.
    split; [reflexivity|]. split; [reflexivity|]. split; [exact Hm|].
    exists sb. split; [exact Hrunb|]. split; [exact Hmb|]. rewrite Hm, Hmb. lia.
Qed.

Lemma miss_counts_witness :
  exists s', transpose_submit 64 64 (start (ramp 4096) (zeros 4096)) = Ok tt s' /\
    ((64 = 32 /\ 64 = 32 /\ Cache.misses 64 64 (log s') = 284%nat /\
      (Cache.misses 64 64 (log s') < 300)%nat) \/
     (64 = 32 /\ 64 = 64 /\ Cache.misses 64 64 (log s') = 600%nat) \/
     (64 = 64 /\ 64 = 64 /\ Cache.misses 64 64 (log s') = 1352%nat /\
      exists sb, trans 64 64 (start (ramp 4096) (zeros 4096)) = Ok tt sb /\
                 Cache.misses 64 64 (log sb) = 4720%nat /\
                 (3 * Cache.misses 64 64 (log s') < Cache.misses 64 64 (log sb)
                  < 4 * Cache.misses 64 64 (log s'))%nat)).
Proof.
  apply miss_counts;
    [right; right; split; reflexivity | reflexivity | reflexivity].
Defined.

(** C9 fails as stated: on the ramp matrices the chosen routine misses
    600 times on 32x64, not fewer than 300, and 1352 times on 64x64, not
    fewer than 1300; the baseline's 4720 misses on 64x64 are not more
    than four times as many. *)
Lemma miss_budget_not_met :
  exists s1 s2 sb,
    transpose_submit 32 64 (start (ramp 2048) (zeros 2048)) = Ok tt s1 /\
    transpose_submit 64 64 (start (ramp 4096) (zeros 4096)) = Ok tt s2 /\
    trans 64 64 (start (ramp 4096) (zeros 4096)) = Ok tt sb /\
    (~ Cache.misses 32 64 (log s1) < 300 /\
     ~ Cache.misses 64 64 (log s2) < 1300 /\
     ~ 4 * Cache.misses 64 64 (log s2) < Cache.misses 64 64 (log sb))%nat.
Proof.
  destruct (misses_32x64 (ramp 2048) (zeros 2048) eq_refl eq_refl) as (s1 & H1 & M1).
  destruct (misses_64x64 (ramp 4096) (zeros 4096) eq_refl eq_refl) as (s2 & H2 & M2).
  destruct (misses_trans_64x64 (ramp 4096) (zeros 4096) eq_refl eq_refl)
    as (sb & Hb & Mb).
  exists s1, s2, sb.
  split; [exact H1|]. split; [exact H2|]. split; [exact Hb|].
  rewrite M1, M2, Mb. clear. split; [lia|]. split; lia.
Qed.

(** ** Further properties of the routines *)

Lemma effect_agree M N keep t s s' :
  effect M N all_dom keep t s s' -> agree M N s'.
Proof.
  intros E i j Hi Hj.
  rewrite (eff_dom _ _ _ _ _ _ _ E j i ltac:(rect)).
  unfold cell, all_dom. cbn [mem]. rewrite (eff_A _ _ _ _ _ _ _ E). reflexivity.
Qed.

(** What a run with the effect of a whole transpose leaves behind. *)
Lemma whole_effect_run M N (m : prog unit) t A B :
  length A = Z.to_nat (N * M) -> length B = Z.to_nat (M * N) ->
  wp m (fun _ s' => effect M N all_dom no_var t (start A B) s') (start A B) ->
  exists s', m (start A B) = Ok tt s' /\
             memA s' = A /\ length (memB s') = length B /\
             is_transposed M N A (memB s') /\ log s' = t.
Proof.
  intros HA HB H. pose proof (bufs_ok_start M N A B HA HB) as Hb.
  destruct (run_unit _ _ _ H) as (s' & Hrun & E).
  exists s'. split; [exact Hrun|].
  split; [apply (eff_A _ _ _ _ _ _ _ E)|].
  split; [apply (eff_len _ _ _ _ _ _ _ E)|].
  split; [apply (effect_transposed M N _ _ _ _ Hb E)|].
  apply (eff_log _ _ _ _ _ _ _ E).
Qed.

(** X1: the baseline [trans] transposes a matrix of any shape, square or
    not, multiple of 8 or not: it returns, [B[j][i] == A[i][j]] on the
    whole rectangle, [A] and the size of [B] are unchanged, and its
    accesses are those of [trans_log], row by row. *)
Theorem trans_any_shape M N A B :
  0 <= M -> 0 <= N ->
  length A = Z.to_nat (N * M) -> length B = Z.to_nat (M * N) ->
  exists s', trans M N (start A B) = Ok tt s' /\
             memA s' = A /\ length (memB s') = length B /\
             is_transposed M N A (memB s') /\ log s' = trans_log M N.
Proof.
  intros HM HN HA HB. apply whole_effect_run; [exact HA | exact HB |].
  apply wp_trans; [apply bufs_ok_start; assumption | exact HM | exact HN].
Qed.

Lemma trans_any_shape_witness :
  exists s', trans 3 2 (start [1; 2; 3; 4; 5; 6] [0; 0; 0; 0; 0; 0]) = Ok tt s' /\
             memA s' = [1; 2; 3; 4; 5; 6] /\
             length (memB s') = length [0; 0; 0; 0; 0; 0] /\
             is_transposed 3 2 [1; 2; 3; 4; 5; 6] (memB s') /\
             log s' = trans_log 3 2.
Proof.
  apply trans_any_shape; [lia | lia | reflexivity | reflexivity].
Defined.

(** X2: [transpose32x32] is not tied to the shape in its name: it
    transposes every matrix whose [M] and [N] are multiples of 8, with the
    accesses of [log32x32]. *)
Theorem transpose32x32_blocks M N A B :
  0 <= M -> 0 <= N -> (8 | M) -> (8 | N) ->
  length A = Z.to_nat (N * M) -> length B = Z.to_nat (M * N) ->
  exists s', transpose32x32 M N (start A B) = Ok tt s' /\
             memA s' = A /\ length (memB s') = length B /\
             is_transposed M N A (memB s') /\ log s' = log32x32 M N.
Proof.
  intros HM HN HdM HdN HA HB. apply whole_effect_run; [exact HA | exact HB |].
  apply wp_transpose32x32; try assumption. apply bufs_ok_start; assumption.
Qed.

Lemma transpose32x32_blocks_witness :
  exists s', transpose32x32 8 16 (start (ramp 128) (zeros 128)) = Ok tt s' /\
             memA s' = ramp 128 /\ length (memB s') = length (zeros 128) /\
             is_transposed 8 16 (ramp 128) (memB s') /\ log s' = log32x32 8 16.
Proof.
  apply transpose32x32_blocks;
    [ lia | lia | exists 1; reflexivity | exists 2; reflexivity
    | reflexivity | reflexivity ].
Defined.



(** Transposing the transpose gives the matrix back. *)
Lemma transposed_twice M N (A B C : list Z) :
  0 <= M -> 0 <= N ->
  length A = Z.to_nat (N * M) -> length C = Z.to_nat (N * M) ->
  is_transposed M N A B -> is_transposed N M B C -> C = A.
Proof.
  intros HM HN HA HC H1 H2.
  apply (buffers_equal N M); try assumption.
  intros r c Hin%in_rect_spec. cbn [rows cols] in Hin.
  destruct (H1 r c ltac:(lia) ltac:(lia)) as (v & Hv1 & Hv2).
  destruct (H2 c r ltac:(lia) ltac:(lia)) as (w & Hw1 & Hw2).
  change (offset N M ArrA c r) with (offset M N ArrB c r) in Hw1.
  change (offset N M ArrB r c) with (offset M N ArrA r c) in *.
  congruence.
Qed.

(** X5: a round trip through [trans]: transposing an [N] x [M] matrix
    into [B] and then [B], as an [M] x [N] matrix, into a third buffer
    gives the first matrix back, whatever the shape. *)
Theorem trans_round_trip M N A B C :
  0 <= M -> 0 <= N ->
  length A = Z.to_nat (N * M) -> length B = Z.to_nat (M * N) ->
  length C = Z.to_nat (N * M) ->
  exists s1 s2,
    trans M N (start A B) = Ok tt s1 /\
    trans N M (start (memB s1) C) = Ok tt s2 /\
    memB s2 = A.
Proof.
  intros HM HN HA HB HC.
  destruct (whole_effect_run M N (trans M N) (trans_log M N) A B HA HB
              (wp_trans M N _ (bufs_ok_start M N A B HA HB) HM HN))
    as (s1 & Hrun1 & _ & Hlen1 & Ht1 & _).
  assert (HB1 : length (memB s1) = Z.to_nat (M * N)) by congruence.
  destruct (whole_effect_run N M (trans N M) (trans_log N M) (memB s1) C HB1 HC
              (wp_trans N M _ (bufs_ok_start N M _ C HB1 HC) HN HM))
    as (s2 & Hrun2 & _ & Hlen2 & Ht2 & _).
  exists s1, s2. split; [exact Hrun1|]. split; [exact Hrun2|].
  apply (transposed_twice M N A (memB s1)); try assumption. congruence.
Qed.

Lemma trans_round_trip_witness :
  exists s1 s2,
    trans 3 2 (start [1; 2; 3; 4; 5; 6] [0; 0; 0; 0; 0; 0]) = Ok tt s1 /\
    trans 2 3 (start (memB s1) [9; 9; 9; 9; 9; 9]) = Ok tt s2 /\
    memB s2 = [1; 2; 3; 4; 5; 6].
Proof.
  apply trans_round_trip; [lia | lia | reflexivity | reflexivity | reflexivity].
Defined.

(** X6: a round trip through the dispatcher: when [M] and [N] are
    positive multiples of 8, [transpose_submit] on (M,N) followed by
    [transpose_submit] on (N,M) gives the first matrix back, also when
    the two calls are dispatched to different routines, as for (32,64)
    and (64,32). *)
Theorem transpose_submit_round_trip M N A B C :
  0 < M -> 0 < N -> (8 | M) -> (8 | N) ->
  length A = Z.to_nat (N * M) -> length B = Z.to_nat (M * N) ->
  length C = Z.to_nat (N * M) ->
  exists s1 s2,
    transpose_submit M N (start A B) = Ok tt s1 /\
    transpose_submit N M (start (memB s1) C) = Ok tt s2 /\
    memB s2 = A.
Proof.
  intros HM HN HdM HdN HA HB HC.
  pose proof (bufs_ok_start M N A B HA HB) as Hb.
  destruct (run_unit _ _ _ (wp_transpose_submit M N _ Hb ltac:(lia) HdM ltac:(lia) HdN))
    as (s1 & Hrun1 & t1 & E1).
  assert (HB1 : length (memB s1) = Z.to_nat (M * N))
    by (rewrite (eff_len _ _ _ _ _ _ _ E1); exact HB).
  pose proof (bufs_ok_start N M (memB s1) C HB1 HC) as Hb1.
  destruct (run_unit _ _ _ (wp_transpose_submit N M _ Hb1 ltac:(lia) HdN ltac:(lia) HdM))
    as (s2 & Hrun2 & t2 & E2).
  exists s1, s2. split; [exact Hrun1|]. split; [exact Hrun2|].
  apply (transposed_twice M N A (memB s1)); try lia; try assumption.
  - rewrite (eff_len _ _ _ _ _ _ _ E2). exact HC.
  - apply (effect_transposed M N _ _ _ _ Hb E1).
  - apply (effect_transposed N M _ _ _ _ Hb1 E2).
Qed.

Lemma transpose_submit_round_trip_witness :
  exists s1 s2,
    transpose_submit 32 64 (start (ramp 2048) (zeros 2048)) = Ok tt s1 /\
    transpose_submit 64 32 (start (memB s1) (zeros 2048)) = Ok tt s2 /\
    memB s2 = ramp 2048.
Proof.
  apply transpose_submit_round_trip;
    [ lia | lia | exists 4; reflexivity | exists 8; reflexivity
    | reflexivity | reflexivity | reflexivity ].
Defined.

(** X7: the oracle accepts what the routines produce: run on the state
    a transpose left, [is_transpose] returns 1, after [trans] on any shape
    and after [transpose_submit] on positive multiples of 8. *)
Theorem oracle_accepts_outputs M N A B :
  0 <= M -> 0 <= N ->
  length A = Z.to_nat (N * M) -> length B = Z.to_nat (M * N) ->
  (exists s1 s2, trans M N (start A B) = Ok tt s1 /\
                 is_transpose M N s1 = Ok 1 s2) /\
  ((8 | M) -> (8 | N) ->
   exists s1 s2, transpose_submit M N (start A B) = Ok tt s1 /\
                 is_transpose M N s1 = Ok 1 s2).
Proof.
  intros HM HN HA HB. pose proof (bufs_ok_start M N A B HA HB) as Hb.
  assert (Hacc : forall keep t s1,
            effect M N all_dom keep t (start A B) s1 ->
            exists s2, is_transpose M N s1 = Ok 1 s2).
  { intros keep t s1 E.
    pose proof (effect_bufs M N _ _ _ _ _ E Hb) as Hb1.
    pose proof (wp_is_transpose M N s1 Hb1) as H. apply wp_ok in H.
    destruct H as (v & s2 & Hrun & _ & [[-> _]|[_ (i & j & Hi & Hj & Hne)]]).
    - exists s2. exact Hrun.
    - exfalso. apply Hne. apply (effect_agree M N _ _ _ _ E); assumption. }
  split.
  - destruct (run_unit _ _ _ (wp_trans M N _ Hb HM HN)) as (s1 & Hrun1 & E).
    destruct (Hacc _ _ _ E) as [s2 Hrun2]. exists s1, s2. split; assumption.
  - intros HdM HdN.
    destruct (run_unit _ _ _ (wp_transpose_submit M N _ Hb HM HdM HN HdN))
      as (s1 & Hrun1 & t & E).
    destruct (Hacc _ _ _ E) as [s2 Hrun2]. exists s1, s2. split; assumption.
Qed.

Lemma oracle_accepts_outputs_witness :
  (exists s1 s2, trans 8 16 (start (ramp 128) (zeros 128)) = Ok tt s1 /\
                 is_transpose 8 16 s1 = Ok 1 s2) /\
  exists s1 s2, transpose_submit 8 16 (start (ramp 128) (zeros 128)) = Ok tt s1 /\
                is_transpose 8 16 s1 = Ok 1 s2.
Proof.
  destruct (oracle_accepts_outputs 8 16 (ramp 128) (zeros 128)
              ltac:(lia) ltac:(lia) eq_refl eq_refl) as [H1 H2].
  split; [exact H1|]. apply H2; [exists 1; reflexivity | exists 2; reflexivity].
Defined.

(** X8: the output does not depend on what [B] held on entry: no cell
    of [B] is left stale.  Two calls on the same [A] and different
    buffers [B] end with equal buffers, for [trans] on any shape and for
    [transpose_submit] on positive multiples of 8. *)
Theorem output_ignores_B M N A B B' :
  0 <= M -> 0 <= N ->
  length A = Z.to_nat (N * M) ->
  length B = Z.to_nat (M * N) -> length B' = Z.to_nat (M * N) ->
  (exists s s', trans M N (start A B) = Ok tt s /\
                trans M N (start A B') = Ok tt s' /\ memB s = memB s') /\
  ((8 | M) -> (8 | N) ->
   exists s s', transpose_submit M N (start A B) = Ok tt s /\
                transpose_submit M N (start A B') = Ok tt s' /\ memB s = memB s').
Proof.
  intros HM HN HA HB HB'.
  pose proof (bufs_ok_start M N A B HA HB) as Hb.
  pose proof (bufs_ok_start M N A B' HA HB') as Hb'.
  assert (Heq : forall k1 t1 k2 t2 s s',
            effect M N all_dom k1 t1 (start A B) s ->
            effect M N all_dom k2 t2 (start A B') s' -> memB s = memB s').
  { intros k1 t1 k2 t2 s s' E E'. apply (buffers_equal M N); try assumption.
    - rewrite (eff_len _ _ _ _ _ _ _ E). exact HB.
    - rewrite (eff_len _ _ _ _ _ _ _ E'). exact HB'.
    - intros r c Hin.
      generalize (eff_dom _ _ _ _ _ _ _ E r c Hin), (eff_dom _ _ _ _ _ _ _ E' r c Hin).
      unfold cell, all_dom. cbn [mem start memA]. intros -> ->. reflexivity. }
  split.
  - destruct (run_unit _ _ _ (wp_trans M N _ Hb HM HN)) as (s & Hrun & E).
    destruct (run_unit _ _ _ (wp_trans M N _ Hb' HM HN)) as (s' & Hrun' & E').
    exists s, s'. split; [exact Hrun|]. split; [exact Hrun'|]. apply (Heq _ _ _ _ _ _ E E').
  - intros HdM HdN.
    destruct (run_unit _ _ _ (wp_transpose_submit M N _ Hb HM HdM HN HdN))
      as (s & Hrun & t & E).
    destruct (run_unit _ _ _ (wp_transpose_submit M N _ Hb' HM HdM HN HdN))
      as (s' & Hrun' & t' & E').
    exists s, s'. split; [exact Hrun|]. split; [exact Hrun'|]. apply (Heq _ _ _ _ _ _ E E').
Qed.

Lemma output_ignores_B_witness :
  (exists s s', trans 8 8 (start (ramp 64) (zeros 64)) = Ok tt s /\
                trans 8 8 (start (ramp 64) (ramp 64)) = Ok tt s' /\
                memB s = memB s') /\
  exists s s', transpose_submit 8 8 (start (ramp 64) (zeros 64)) = Ok tt s /\
               transpose_submit 8 8 (start (ramp 64) (ramp 64)) = Ok tt s' /\
               memB s = memB s'.
Proof.
  destruct (output_ignores_B 8 8 (ramp 64) (zeros 64) (ramp 64)
              ltac:(lia) ltac:(lia) eq_refl eq_refl eq_refl) as [H1 H2].
  split; [exact H1|]. apply H2; exists 1; reflexivity.
Defined.

(** ** How the routines stop *)

Section Stops.

Variables M N : Z.

Lemma wpf_ret {X} ok (x : X) (Q : X -> state -> Prop) s : Q x s -> wpf ok (ret x) Q s.
Proof. intro H. exact H. Qed.

Lemma wpf_bind {X Y} ok (m : prog X) (k : X -> prog Y) Q s :
  wpf ok m (fun x s' => wpf ok (k x) Q s') s -> wpf ok (bind m k) Q s.
Proof.
  unfold wpf, bind. destruct (m s) as [x s'|e s']; intro H; exact H.
Qed.

Lemma wpf_mono {X} ok (m : prog X) (Q Q' : X -> state -> Prop) s :
  wpf ok m Q s -> (forall x s', Q x s' -> Q' x s') -> wpf ok m Q' s.
Proof.
  unfold wpf. destruct (m s) as [x s'|e s']; [auto | intros H _; exact H].
Qed.

(** A loop with enough fuel for its index to reach the bound. *)
Lemma wpf_for_up ok (Inv : Z -> state -> Prop) body step lo0 hi :
  0 < step ->
  (forall k s, lo0 <= k < hi -> Inv k s ->
     wpf ok (body k) (fun _ => Inv (k + step)) s) ->
  forall fuel lo s,
  lo0 <= lo -> (Z.to_nat (hi - lo) < fuel)%nat -> Inv lo s ->
  wpf ok (for_up fuel lo hi step body)
      (fun _ s' => exists k, hi <= k /\ lo <= k /\ Inv k s') s.
Proof.
  intros Hstep Hbody. induction fuel as [|f IH]; intros lo s Hlo Hf H0; [lia|].
  cbn [for_up]. destruct (Z.ltb_spec lo hi) as [Hlt|Hge].
  - apply wpf_bind. apply (wpf_mono _ _ _ _ _ (Hbody lo s ltac:(lia) H0)).
    intros _ s' H'.
    apply (wpf_mono _ _ _ _ _ (IH (lo + step) s' ltac:(lia) ltac:(lia) H')).
    intros _ s'' (k & Hk1 & Hk2 & Hk3). exists k. repeat split; try assumption; lia.
  - apply wpf_ret. exists lo. repeat split; try assumption; lia.
Qed.

Lemma wpf_for_down ok (Inv : Z -> state -> Prop) body hi0 lo :
  (forall k s, lo <= k <= hi0 -> Inv k s ->
     wpf ok (body k) (fun _ => Inv (k - 1)) s) ->
  forall fuel hi s,
  hi <= hi0 -> (Z.to_nat (hi - lo + 1) < fuel)%nat -> Inv hi s ->
  wpf ok (for_down fuel hi lo body)
      (fun _ s' => exists k, k < lo /\ Inv k s') s.
Proof.
  intros Hbody. induction fuel as [|f IH]; intros hi s Hhi Hf H0; [lia|].
  cbn [for_down]. rewrite Z.geb_leb. destruct (Z.leb_spec lo hi) as [Hle|Hgt].
  - apply wpf_bind. apply (wpf_mono _ _ _ _ _ (Hbody hi s ltac:(lia) H0)).
    intros _ s' H'.
    apply (IH (hi - 1) s' ltac:(lia) ltac:(lia) H').
  - apply wpf_ret. exists hi. split; [lia | exact H0].
Qed.

Lemma wpf_load {X} x r c (k : prog X) Q s :
  bufs_ok M N s ->
  (forall v, wpf (out_of_rect M N) k Q (after_load x v r c s)) ->
  wpf (out_of_rect M N) (load M N x r c ;; k) Q s.
Proof.
  intros Hb Hk. destruct (in_rect M N ArrA r c) eqn:Hin.
  - destruct (cell_Some M N s ArrA r c Hb Hin) as [v Hv].
    apply wpf_bind. unfold wpf at 1. rewrite (load_run M N x r c v s Hin Hv). apply Hk.
  - unfold wpf, bind, load, bind, read. rewrite Hin. exact Hin.
Qed.

Lemma wpf_load_last x r c (Q : unit -> state -> Prop) s :
  bufs_ok M N s ->
  (forall v, Q tt (after_load x v r c s)) ->
  wpf (out_of_rect M N) (load M N x r c) Q s.
Proof.
  intros Hb Hk. destruct (in_rect M N ArrA r c) eqn:Hin.
  - destruct (cell_Some M N s ArrA r c Hb Hin) as [v Hv].
    unfold wpf. rewrite (load_run M N x r c v s Hin Hv). apply Hk.
  - unfold wpf, load, bind, read. rewrite Hin. exact Hin.
Qed.

Lemma store_stops r c x v s :
  in_rect M N ArrB r c = false -> locals s x = Some v ->
  store M N r c x s = Fault (OutOfBounds ArrB r c) (emit (Use x) s).
Proof.
  intros Hin Hx. unfold store, bind, use, write. rewrite Hx, Hin. reflexivity.
Qed.

Lemma wpf_store {X} r c x v (k : prog X) Q s :
  bufs_ok M N s -> locals s x = Some v ->
  wpf (out_of_rect M N) k Q (after_store M N r c x v s) ->
  wpf (out_of_rect M N) (store M N r c x ;; k) Q s.
Proof.
  intros Hb Hx Hk. destruct (in_rect M N ArrB r c) eqn:Hin.
  - apply wpf_bind. unfold wpf at 1. rewrite (store_run M N r c x v s Hb Hin Hx).
    exact Hk.
  - unfold wpf, bind. rewrite (store_stops r c x v s Hin Hx). exact Hin.
Qed.

Lemma wpf_store_last r c x v (Q : unit -> state -> Prop) s :
  bufs_ok M N s -> locals s x = Some v ->
  Q tt (after_store M N r c x v s) ->
  wpf (out_of_rect M N) (store M N r c x) Q s.
Proof.
  intros Hb Hx Hk. destruct (in_rect M N ArrB r c) eqn:Hin.
  - unfold wpf. rewrite (store_run M N r c x v s Hb Hin Hx). exact Hk.
  - unfold wpf. rewrite (store_stops r c x v s Hin Hx). exact Hin.
Qed.

End Stops.

Ltac fstep :=
  lazymatch goal with
  | |- wpf _ (load _ _ _ _ _ ;; _) _ _ =>
      apply wpf_load; [bufs | intros ?v]
  | |- wpf _ (load _ _ _ _ _) _ _ =>
      apply wpf_load_last; [bufs | intros ?v]
  | |- wpf _ (store _ _ _ _ _ ;; _) _ _ =>
      eapply wpf_store; [bufs | held | ]
  | |- wpf _ (store _ _ _ _ _) _ _ =>
      eapply wpf_store_last; [bufs | held | ]
  | |- wpf _ (ret tt ;; _) _ _ => apply wpf_bind, wpf_ret
  | |- wpf _ ((_ ;; _) ;; _) _ _ => apply wpf_bind
  end.

(** The carry locals stay assigned through loads and stores. *)
Ltac carry_kept Hc :=
  let x := fresh "x" in
  let Hx := fresh "Hx" in
  intros x Hx; destruct x; try discriminate Hx;
  cbn [locals after_store after_load set_local var_eqb];
  first [ discriminate | apply Hc; reflexivity ].

Section StopsOnlyOutOfRect.

Variables M N : Z.

Lemma wpf_quad k j s :
  bufs_ok M N s ->
  wpf (out_of_rect M N)
      (load M N c0 k j ;;
       load M N c1 k (j + 1) ;;
       load M N c2 k (j + 2) ;;
       load M N c3 k (j + 3) ;;
       store M N j k c0 ;;
       store M N (j + 1) k c1 ;;
       store M N (j + 2) k c2 ;;
       store M N (j + 3) k c3)
      (fun _ s' => bufs_ok M N s' /\ (carry_set s -> carry_set s')) s.
Proof.
  intros Hb. do 8 fstep. split; [bufs|]. intro Hc. carry_kept Hc.
Qed.

Lemma wpf_oct k j s :
  bufs_ok M N s ->
  wpf (out_of_rect M N)
      (load M N c0 k j ;;
       load M N c1 k (j + 1) ;;
       load M N c2 k (j + 2) ;;
       load M N c3 k (j + 3) ;;
       load M N c4 k (j + 4) ;;
       load M N c5 k (j + 5) ;;
       load M N c6 k (j + 6) ;;
       load M N c7 k (j + 7) ;;
       store M N j k c0 ;;
       store M N (j + 1) k c1 ;;
       store M N (j + 2) k c2 ;;
       store M N (j + 3) k c3 ;;
       store M N (j + 4) k c4 ;;
       store M N (j + 5) k c5 ;;
       store M N (j + 6) k c6 ;;
       store M N (j + 7) k c7)
      (fun _ s' => bufs_ok M N s') s.
Proof.
  intros Hb. do 16 fstep. bufs.
Qed.

Lemma wpf_fill i k j s :
  bufs_ok M N s ->
  wpf (out_of_rect M N)
      (load M N c0 k j ;;
       load M N c1 k (j + 1) ;;
       load M N c2 k (j + 2) ;;
       load M N c3 k (j + 3) ;;
       (if k =? i + 1 then
          load M N c4 k (j + 4) ;;
          load M N c5 k (j + 5) ;;
          load M N c6 k (j + 6) ;;
          load M N c7 k (j + 7)
        else ret tt) ;;
       store M N j k c0 ;;
       store M N (j + 1) k c1 ;;
       store M N (j + 2) k c2 ;;
       store M N (j + 3) k c3)
      (fun _ s' => bufs_ok M N s' /\
                   (k = i + 1 -> carry_set s') /\
                   (carry_set s -> carry_set s')) s.
Proof.
  intros Hb. do 4 fstep.
  destruct (Z.eqb_spec k (i + 1)) as [->|Hne].
  - do 9 fstep. split; [bufs|]. split.
    + intros _ x Hx. destruct x; try discriminate Hx; discriminate.
    + intros _ x Hx. destruct x; try discriminate Hx; discriminate.
  - do 5 fstep. split; [bufs|]. split; [intro; contradiction|].
    intro Hc. carry_kept Hc.
Qed.

Lemma wpf_drain i k j s :
  bufs_ok M N s -> carry_set s ->
  wpf (out_of_rect M N)
      (if k =? i + 1 then
         store M N j k c4 ;;
         store M N (j + 1) k c5 ;;
         store M N (j + 2) k c6 ;;
         store M N (j + 3) k c7
       else
         load M N c0 k j ;;
         load M N c1 k (j + 1) ;;
         load M N c2 k (j + 2) ;;
         load M N c3 k (j + 3) ;;
         store M N j k c0 ;;
         store M N (j + 1) k c1 ;;
         store M N (j + 2) k c2 ;;
         store M N (j + 3) k c3)
      (fun _ s' => bufs_ok M N s' /\ carry_set s') s.
Proof.
  intros Hb Hc. destruct (k =? i + 1).
  - destruct (locals s c4) as [v4|] eqn:H4; [|destruct (Hc c4 eq_refl H4)].
    destruct (locals s c5) as [v5|] eqn:H5; [|destruct (Hc c5 eq_refl H5)].
    destruct (locals s c6) as [v6|] eqn:H6; [|destruct (Hc c6 eq_refl H6)].
    destruct (locals s c7) as [v7|] eqn:H7; [|destruct (Hc c7 eq_refl H7)].
    do 4 fstep. split; [bufs|]. carry_kept Hc.
  - eapply wpf_mono; [apply wpf_quad, Hb|].
    intros _ s' [Hb' Hc']. split; [exact Hb' | apply Hc', Hc].
Qed.

Lemma wpf_declare {X} (k : prog X) Q s :
  wpf (out_of_rect M N) k Q (mkState (memA s) (memB s) no_locals (log s)) ->
  wpf (out_of_rect M N) (declare_locals ;; k) Q s.
Proof. intro H. apply wpf_bind. exact H. Qed.

Lemma wpf_transpose32x32 s :
  bufs_ok M N s ->
  wpf (out_of_rect M N) (transpose32x32 M N) (fun _ s' => bufs_ok M N s') s.
Proof.
  intros Hb. unfold transpose32x32. apply wpf_declare.
  eapply wpf_mono.
  - apply (wpf_for_up _ (fun _ => bufs_ok M N) _ _ 0); [lia | | lia | lia | exact Hb].
    intros i s1 _ Hb1. eapply wpf_mono.
    + apply (wpf_for_up _ (fun _ => bufs_ok M N) _ _ 0); [lia | | lia | lia | exact Hb1].
      intros j s2 _ Hb2. eapply wpf_mono.
      * apply (wpf_for_up _ (fun _ => bufs_ok M N) _ _ i); [lia | | lia | lia | exact Hb2].
        intros k s3 _ Hb3. apply wpf_oct, Hb3.
      * intros _ s3 (k & _ & _ & H). exact H.
    + intros _ s2 (k & _ & _ & H). exact H.
  - intros _ s1 (k & _ & _ & H). exact H.
Qed.

Lemma wpf_transpose32x64 s :
  bufs_ok M N s ->
  wpf (out_of_rect M N) (transpose32x64 M N) (fun _ s' => bufs_ok M N s') s.
Proof.
  intros Hb. unfold transpose32x64. apply wpf_declare.
  eapply wpf_mono.
  - apply (wpf_for_up _ (fun _ => bufs_ok M N) _ _ 0); [lia | | lia | lia | exact Hb].
    intros i s1 _ Hb1. eapply wpf_mono.
    + apply (wpf_for_up _ (fun _ => bufs_ok M N) _ _ 0); [lia | | lia | lia | exact Hb1].
      intros j s2 _ Hb2. destruct (even_stripe j).
      * eapply wpf_mono.
        -- apply (wpf_for_up _ (fun _ => bufs_ok M N) _ _ i); [lia | | lia | lia | exact Hb2].
           intros k s3 _ Hb3. eapply wpf_mono; [apply wpf_quad, Hb3|].
           intros _ s4 [H _]. exact H.
        -- intros _ s3 (k & _ & _ & H). exact H.
      * eapply wpf_mono.
        -- apply (wpf_for_down _ (fun _ => bufs_ok M N) _ (i + 7)); [| lia | lia | exact Hb2].
           intros k s3 _ Hb3. eapply wpf_mono; [apply wpf_quad, Hb3|].
           intros _ s4 [H _]. exact H.
        -- intros _ s3 (k & _ & H). exact H.
    + intros _ s2 (k & _ & _ & H). exact H.
  - intros _ s1 (k & _ & _ & H). exact H.
Qed.

Lemma wpf_fill_stripe i j s :
  bufs_ok M N s ->
  wpf (out_of_rect M N) (fill_stripe M N i j)
      (fun _ s' => bufs_ok M N s' /\ carry_set s') s.
Proof.
  intros Hb. unfold fill_stripe. eapply wpf_mono.
  - apply (wpf_for_up _ (fun k s' => bufs_ok M N s' /\ (i + 1 < k -> carry_set s')) _ _ i);
      [lia | | lia | lia | split; [exact Hb | lia]].
    intros k s1 Hk [Hb1 Hc1].
    eapply wpf_mono; [apply (wpf_fill i), Hb1|].
    intros _ s2 (Hb2 & Hnew & Hkeep). split; [exact Hb2|]. intro Hlt.
    destruct (Z.eq_dec k (i + 1)) as [Heq|Hne]; [apply Hnew, Heq|].
    apply Hkeep, Hc1. lia.
  - intros _ s1 (k & Hk & _ & Hb1 & Hc1). split; [exact Hb1 | apply Hc1; lia].
Qed.

Lemma wpf_drain_stripe i j s :
  bufs_ok M N s -> carry_set s ->
  wpf (out_of_rect M N) (drain_stripe M N i j)
      (fun _ s' => bufs_ok M N s' /\ carry_set s') s.
Proof.
  intros Hb Hc. unfold drain_stripe. eapply wpf_mono.
  - apply (wpf_for_down _ (fun _ s' => bufs_ok M N s' /\ carry_set s') _ (i + 7));
      [| lia | lia | split; assumption].
    intros k s1 _ [Hb1 Hc1]. apply (wpf_drain i); assumption.
  - intros _ s1 (k & _ & H). exact H.
Qed.

(** On any shape the odd stripes of [transpose64x64] find [c4..c7]
    assigned: every band starts with the even stripe [j = 0], and every
    stripe that returns leaves them assigned. *)
Lemma wpf_transpose64x64 s :
  bufs_ok M N s ->
  wpf (out_of_rect M N) (transpose64x64 M N) (fun _ s' => bufs_ok M N s') s.
Proof.
  intros Hb. rewrite transpose64x64_stripes. apply wpf_declare.
  eapply wpf_mono.
  - apply (wpf_for_up _ (fun _ => bufs_ok M N) _ _ 0); [lia | | lia | lia | exact Hb].
    intros i s1 _ Hb1. eapply wpf_mono.
    + apply (wpf_for_up _
               (fun j s' => bufs_ok M N s' /\ (even_stripe j = false -> carry_set s'))
               _ _ 0); [lia | | lia | lia | split; [exact Hb1 | discriminate]].
      intros j s2 _ [Hb2 Hc2]. destruct (even_stripe j).
      * eapply wpf_mono; [apply wpf_fill_stripe, Hb2|].
        intros _ s3 [Hb3 Hc3]. split; [exact Hb3 | intros _; exact Hc3].
      * eapply wpf_mono; [apply wpf_drain_stripe; [exact Hb2 | apply Hc2; reflexivity]|].
        intros _ s3 [Hb3 Hc3]. split; [exact Hb3 | intros _; exact Hc3].
    + intros _ s2 (k & _ & _ & H & _). exact H.
  - intros _ s1 (k & _ & _ & H). exact H.
Qed.

End StopsOnlyOutOfRect.

(** ** Shapes on which a run leaves the declared rectangles *)

Section AlwaysStops.

Variables M N : Z.

Lemma stops_bind_l {X Y} (m : prog X) (k : X -> prog Y) :
  always_stops m -> always_stops (bind m k).
Proof.
  intros Hm s. unfold bind. specialize (Hm s). destruct (m s); [contradiction | exact I].
Qed.

Lemma stops_bind_r {X Y} (m : prog X) (k : X -> prog Y) :
  (forall x, always_stops (k x)) -> always_stops (bind m k).
Proof.
  intros Hk s. unfold bind. destruct (m s) as [x s'|e s']; [apply Hk | exact I].
Qed.

Lemma stops_load x r c :
  in_rect M N ArrA r c = false -> always_stops (load M N x r c).
Proof.
  intros Hin s. unfold load, bind, read. rewrite Hin. exact I.
Qed.

(** A loop stops when its [t]-th iteration does. *)
Lemma stops_for_up body step :
  0 < step ->
  forall (t : nat) fuel lo hi k,
  k = lo + Z.of_nat t * step -> k < hi -> always_stops (body k) ->
  always_stops (for_up fuel lo hi step body).
Proof.
  intros Hstep. induction t as [|t IH]; intros fuel lo hi k Hk Hlt Hb;
    (destruct fuel as [|f]; [intro s; exact I|]); cbn [for_up].
  - replace (lo <? hi) with true by (symmetry; apply Z.ltb_lt; lia).
    apply stops_bind_l. replace lo with k by lia. exact Hb.
  - replace (lo <? hi) with true by (symmetry; apply Z.ltb_lt; nia).
    apply stops_bind_r. intros _. apply (IH f (lo + step) hi k); [lia | exact Hlt | exact Hb].
Qed.

Lemma stops_for_down body :
  forall (t : nat) fuel hi lo k,
  k = hi - Z.of_nat t -> lo <= k -> always_stops (body k) ->
  always_stops (for_down fuel hi lo body).
Proof.
  induction t as [|t IH]; intros fuel hi lo k Hk Hle Hb;
    (destruct fuel as [|f]; [intro s; exact I|]); cbn [for_down].
  - replace (hi >=? lo) with true by (rewrite Z.geb_leb; symmetry; apply Z.leb_le; lia).
    apply stops_bind_l. replace hi with k by lia. exact Hb.
  - replace (hi >=? lo) with true by (rewrite Z.geb_leb; symmetry; apply Z.leb_le; lia).
    apply stops_bind_r. intros _. apply (IH f (hi - 1) lo k); [lia | exact Hle | exact Hb].
Qed.

End AlwaysStops.

Ltac not_in_rect :=
  apply not_true_iff_false; rewrite in_rect_spec; cbn [rows cols]; lia.

(** Walk down a sequence of statements to a load outside the rectangle. *)
Ltac seek_load :=
  first
    [ apply stops_load; not_in_rect
    | apply stops_bind_l; apply stops_load; not_in_rect
    | apply stops_bind_l; seek_load
    | apply stops_bind_r; intros _; seek_load ].

Lemma last_block w X :
  0 < w -> 0 < X -> X mod w <> 0 ->
  exists t : nat, 0 + Z.of_nat t * w < X /\ X < 0 + Z.of_nat t * w + w.
Proof.
  intros Hw HX Hmod. exists (Z.to_nat (X / w)).
  pose proof (Z.div_mod X w ltac:(lia)) as Hdm.
  pose proof (Z.mod_pos_bound X w Hw) as Hb.
  assert (0 <= X / w) by (apply Z.div_pos; lia).
  rewrite Z2Nat.id by lia. lia.
Qed.

Section Domains.

Variables M N : Z.

Hypothesis M_pos : 0 < M.
Hypothesis N_pos : 0 < N.

Lemma stops_transpose32x32 :
  M mod 8 <> 0 \/ N mod 8 <> 0 -> always_stops (transpose32x32 M N).
Proof.
  intros [HM|HN]; unfold transpose32x32; apply stops_bind_r; intros _.
  - destruct (last_block 8 M ltac:(lia) M_pos HM) as (t & Ht1 & Ht2).
    apply (stops_for_up _ 8 ltac:(lia) 0%nat _ _ _ 0); [lia | lia |].
    apply (stops_for_up _ 8 ltac:(lia) t _ _ _ (0 + Z.of_nat t * 8)); [lia | lia |].
    apply (stops_for_up _ 1 ltac:(lia) 0%nat _ _ _ 0); [lia | lia |].
    seek_load.
  - destruct (last_block 8 N ltac:(lia) N_pos HN) as (t & Ht1 & Ht2).
    apply (stops_for_up _ 8 ltac:(lia) t _ _ _ (0 + Z.of_nat t * 8)); [lia | lia |].
    apply (stops_for_up _ 8 ltac:(lia) 0%nat _ _ _ 0); [lia | lia |].
    apply (stops_for_up _ 1 ltac:(lia) (Z.to_nat (N - (0 + Z.of_nat t * 8))) _ _ _ N);
      [lia | lia |].
    seek_load.
Qed.

Lemma stops_transpose32x64 :
  M mod 4 <> 0 \/ N mod 8 <> 0 -> always_stops (transpose32x64 M N).
Proof.
  intros [HM|HN]; unfold transpose32x64; apply stops_bind_r; intros _.
  - destruct (last_block 4 M ltac:(lia) M_pos HM) as (t & Ht1 & Ht2).
    apply (stops_for_up _ 8 ltac:(lia) 0%nat _ _ _ 0); [lia | lia |].
    apply (stops_for_up _ 4 ltac:(lia) t _ _ _ (0 + Z.of_nat t * 4)); [lia | lia |].
    destruct (even_stripe _).
    + apply (stops_for_up _ 1 ltac:(lia) 0%nat _ _ _ 0); [lia | lia |]. seek_load.
    + apply (stops_for_down _ 0%nat _ _ _ (0 + 7)); [lia | lia |]. seek_load.
  - destruct (last_block 8 N ltac:(lia) N_pos HN) as (t & Ht1 & Ht2).
    apply (stops_for_up _ 8 ltac:(lia) t _ _ _ (0 + Z.of_nat t * 8)); [lia | lia |].
    apply (stops_for_up _ 4 ltac:(lia) 0%nat _ _ _ 0); [lia | lia |].
    change (even_stripe 0) with true. cbv iota.
    apply (stops_for_up _ 1 ltac:(lia) (Z.to_nat (N - (0 + Z.of_nat t * 8))) _ _ _ N);
      [lia | lia |].
    seek_load.
Qed.

Lemma stops_transpose64x64 :
  M mod 8 <> 0 \/ N mod 8 <> 0 -> always_stops (transpose64x64 M N).
Proof.
  intros [HM|HN]; unfold transpose64x64; apply stops_bind_r; intros _.
  - destruct (last_block 8 M ltac:(lia) M_pos HM) as (t & Ht1 & Ht2).
    apply (stops_for_up _ 8 ltac:(lia) 0%nat _ _ _ 0); [lia | lia |].
    apply (stops_for_up _ 4 ltac:(lia) (2 * t)%nat _ _ _ (0 + Z.of_nat t * 8)); [lia | lia |].
    replace (even_stripe (0 + Z.of_nat t * 8)) with true.
    + apply (stops_for_up _ 1 ltac:(lia) 1%nat _ _ _ (0 + 1)); [lia | lia |].
      change (0 + 1 =? 0 + 1) with true. cbv iota. seek_load.
    + symmetry. unfold even_stripe. apply Z.eqb_eq.
      Z.to_euclidean_division_equations. lia.
  - destruct (last_block 8 N ltac:(lia) N_pos HN) as (t & Ht1 & Ht2).
    apply (stops_for_up _ 8 ltac:(lia) t _ _ _ (0 + Z.of_nat t * 8)); [lia | lia |].
    apply (stops_for_up _ 4 ltac:(lia) 0%nat _ _ _ 0); [lia | lia |].
    change (even_stripe 0) with true. cbv iota.
    apply (stops_for_up _ 1 ltac:(lia) (Z.to_nat (N - (0 + Z.of_nat t * 8))) _ _ _ N);
      [lia | lia |].
    seek_load.
Qed.

End Domains.

Lemma mod_divide_iff w X : 0 < w -> (X mod w = 0 <-> (w | X)).
Proof. intro Hw. apply Z.mod_divide. lia. Qed.

Lemma stops_outside M N (m : prog unit) Q s :
  always_stops m -> wpf (out_of_rect M N) m Q s ->
  exists a r c s', m s = Fault (OutOfBounds a r c) s' /\ in_rect M N a r c = false.
Proof.
  intros Hnr Hw. specialize (Hnr s). unfold wpf in Hw.
  destruct (m s) as [x s'|e s']; [contradiction|].
  destruct e as [a r c| | |]; try contradiction.
  exists a, r, c, s'. split; [reflexivity | exact Hw].
Qed.

Lemma wpf_transpose_submit M N s :
  bufs_ok M N s ->
  wpf (out_of_rect M N) (transpose_submit M N) (fun _ s' => bufs_ok M N s') s.
Proof.
  intros Hb. unfold transpose_submit.
  destruct ((M =? 32) && (N =? 32)); [apply wpf_transpose32x32, Hb|].
  destruct ((M =? 32) && (N =? 64)); [apply wpf_transpose32x64, Hb|].
  apply wpf_transpose64x64, Hb.
Qed.

(** X9: with buffers of the declared sizes, on any shape at all, the
    only way [transpose_submit], [transpose32x32], [transpose32x64],
    [transpose64x64] or [test] stops short is a subscript outside a
    declared rectangle: no run reads a local before it is assigned (the
    carry [c4..c7] included), none exhausts its loops, none addresses
    memory beyond a buffer from inside the rectangles. *)
Theorem stops_only_out_of_rect M N s e s' :
  bufs_ok M N s ->
  transpose_submit M N s = Fault e s' \/
  transpose32x32 M N s = Fault e s' \/
  transpose32x64 M N s = Fault e s' \/
  transpose64x64 M N s = Fault e s' \/
  test M N s = Fault e s' ->
  exists a r c, e = OutOfBounds a r c /\ in_rect M N a r c = false.
Proof.
  intros Hb H.
  assert (He : out_of_rect M N e).
  { destruct H as [H|[H|[H|[H|H]]]].
    - generalize (wpf_transpose_submit M N s Hb). unfold wpf. rewrite H. auto.
    - generalize (wpf_transpose32x32 M N s Hb). unfold wpf. rewrite H. auto.
    - generalize (wpf_transpose32x64 M N s Hb). unfold wpf. rewrite H. auto.
    - generalize (wpf_transpose64x64 M N s Hb). unfold wpf. rewrite H. auto.
    - change (test M N) with (transpose64x64 M N) in H.
      generalize (wpf_transpose64x64 M N s Hb). unfold wpf. rewrite H. auto. }
  destruct e as [a r c| | |]; try contradiction.
  exists a, r, c. split; [reflexivity | exact He].
Qed.

Lemma stops_only_out_of_rect_witness :
  exists a r c, OutOfBounds ArrA 1 4 = OutOfBounds a r c /\ in_rect 4 8 a r c = false.
Proof.
  apply (stops_only_out_of_rect 4 8 (start (ramp 32) (zeros 32)) (OutOfBounds ArrA 1 4)
           (final (transpose64x64 4 8 (start (ramp 32) (zeros 32))))).
  - split; reflexivity.
  - right. right. right. left. vm_compute. reflexivity.
Defined.

Lemma keeps_rect_intro M N (m : prog unit) Q s :
  wp m Q s -> log_in_bounds M N s -> preserves (log_in_bounds M N) m ->
  keeps_rect M N m s.
Proof.
  intros Hw H0 Hp. destruct (run_unit _ _ _ Hw) as (s' & Hrun & _).
  exists s'. split; [exact Hrun|].
  generalize (Hp s H0). rewrite Hrun. intro H. exact H.
Qed.

Lemma leaves_rect_intro M N (m : prog unit) Q s :
  always_stops m -> wpf (out_of_rect M N) m Q s ->
  log_in_bounds M N s -> preserves (log_in_bounds M N) m ->
  leaves_rect M N m s.
Proof.
  intros Hst Hw H0 Hp.
  destruct (stops_outside M N m Q s Hst Hw) as (a & r & c & s' & Hrun & Hout).
  exists a, r, c, s'. split; [exact Hrun|]. split; [exact Hout|].
  generalize (Hp s H0). rewrite Hrun. intro H. exact H.
Qed.

Lemma divides_or_not w X : 0 < w -> (w | X) \/ X mod w <> 0.
Proof.
  intros Hw. destruct (Z.eq_dec (X mod w) 0) as [H|H]; [left|right; exact H].
  apply mod_divide_iff; assumption.
Qed.

(** Off the multiples of 8 the dispatcher, whichever routine it picks,
    comes to a subscript outside the rectangles. *)
Lemma transpose_submit_stops M N :
  0 < M -> 0 < N -> ~ ((8 | M) /\ (8 | N)) -> always_stops (transpose_submit M N).
Proof.
  intros HM HN Hnd. unfold transpose_submit.
  destruct (Z.eqb_spec M 32) as [->|HM32]; cbn [andb].
  - destruct (Z.eqb_spec N 32) as [->|HN32];
      [exfalso; apply Hnd; split; apply divide_32|].
    destruct (Z.eqb_spec N 64) as [->|HN64];
      [exfalso; apply Hnd; split; [apply divide_32 | apply divide_64]|].
    apply (stops_transpose64x64 32 N ltac:(lia) HN).
    right. intro H. apply Hnd. split; [apply divide_32|].
    apply mod_divide_iff; [lia | exact H].
  - apply (stops_transpose64x64 M N HM HN).
    destruct (Z.eq_dec (M mod 8) 0) as [H8|H8]; [|left; exact H8].
    right. intro H. apply Hnd. split; apply mod_divide_iff; (lia || assumption).
Qed.

(** C4, as the code has it: when [M] and [N] are multiples of 8 (the
    three supported shapes among them) the run of [transpose_submit]
    returns and every read of [A] and every write of [B] it made lies
    inside the declared rectangle; so does every access of the baseline
    [trans], on every shape.  On every other shape with positive [M] and
    [N] the run of [transpose_submit] comes to a subscript outside a
    declared rectangle, every access before it being inside. *)
Theorem accesses_in_bounds M N A B :
  0 <= M -> 0 <= N ->
  length A = Z.to_nat (N * M) -> length B = Z.to_nat (M * N) ->
  ((8 | M) -> (8 | N) ->
   exists s', transpose_submit M N (start A B) = Ok tt s' /\ log_in_bounds M N s') /\
  (exists s', trans M N (start A B) = Ok tt s' /\ log_in_bounds M N s') /\
  (0 < M -> 0 < N -> ~ ((8 | M) /\ (8 | N)) ->
   exists a r c s',
     transpose_submit M N (start A B) = Fault (OutOfBounds a r c) s' /\
     in_rect M N a r c = false /\ log_in_bounds M N s').
Proof.
  intros HM HN HA HB.
  pose proof (bufs_ok_start M N A B HA HB) as Hb.
  assert (H0 : log_in_bounds M N (start A B)) by constructor.
  pose proof (preserves_transpose_submit (log_in_bounds M N) M N
                (bounds_declare M N) (bounds_load M N) (bounds_store M N)) as Hsub.
  split; [|split].
  - intros HdM HdN.
    apply (keeps_rect_intro M N _ _ _
             (wp_transpose_submit M N _ Hb HM HdM HN HdN) H0 Hsub).
  - apply (keeps_rect_intro M N _ _ _ (wp_trans M N _ Hb HM HN) H0).
    apply preserves_trans; [apply bounds_declare | apply bounds_load | apply bounds_store].
  - intros HM' HN' Hnd.
    apply (leaves_rect_intro M N _ _ _
             (transpose_submit_stops M N HM' HN' Hnd)
             (wpf_transpose_submit M N _ Hb) H0 Hsub).
Qed.

Lemma accesses_in_bounds_witness :
  (exists s', transpose_submit 16 8 (start (ramp 128) (zeros 128)) = Ok tt s' /\
              log_in_bounds 16 8 s') /\
  (exists s', trans 3 2 (start (ramp 6) (zeros 6)) = Ok tt s' /\
              log_in_bounds 3 2 s') /\
  (exists a r c s',
     transpose_submit 4 8 (start (ramp 32) (zeros 32)) = Fault (OutOfBounds a r c) s' /\
     in_rect 4 8 a r c = false /\ log_in_bounds 4 8 s').
Proof.
  split; [|split].
  - apply (proj1 (accesses_in_bounds 16 8 (ramp 128) (zeros 128)
                    ltac:(lia) ltac:(lia) eq_refl eq_refl));
      [exists 2; reflexivity | exists 1; reflexivity].
  - apply (proj1 (proj2 (accesses_in_bounds 3 2 (ramp 6) (zeros 6)
                           ltac:(lia) ltac:(lia) eq_refl eq_refl))).
  - apply (proj2 (proj2 (accesses_in_bounds 4 8 (ramp 32) (zeros 32)
                           ltac:(lia) ltac:(lia) eq_refl eq_refl)));
      [lia | lia | intros [[z Hz] _]; lia].
Defined.

(** X11: where each tuned routine keeps to the declared rectangles, for
    positive [M] and [N] and buffers of the declared sizes.
    [transpose32x32] and [transpose64x64] return with every access inside
    the rectangles when 8 divides both [M] and [N], and [transpose32x64]
    when 4 divides [M] and 8 divides [N]; on every other shape the run
    comes to a subscript outside a declared rectangle. *)
Theorem tuned_domains M N A B :
  0 < M -> 0 < N ->
  length A = Z.to_nat (N * M) -> length B = Z.to_nat (M * N) ->
  ((8 | M) /\ (8 | N) -> keeps_rect M N (transpose32x32 M N) (start A B)) /\
  (~ ((8 | M) /\ (8 | N)) -> leaves_rect M N (transpose32x32 M N) (start A B)) /\
  ((4 | M) /\ (8 | N) -> keeps_rect M N (transpose32x64 M N) (start A B)) /\
  (~ ((4 | M) /\ (8 | N)) -> leaves_rect M N (transpose32x64 M N) (start A B)) /\
  ((8 | M) /\ (8 | N) -> keeps_rect M N (transpose64x64 M N) (start A B)) /\
  (~ ((8 | M) /\ (8 | N)) -> leaves_rect M N (transpose64x64 M N) (start A B)).
Proof.
  intros HM HN HA HB.
  pose proof (bufs_ok_start M N A B HA HB) as Hb.
  assert (H0 : log_in_bounds M N (start A B)) by constructor.
  pose proof (preserves_transpose32x32 (log_in_bounds M N) M N
                (bounds_declare M N) (bounds_load M N) (bounds_store M N)) as H32.
  pose proof (preserves_transpose32x64 (log_in_bounds M N) M N
                (bounds_declare M N) (bounds_load M N) (bounds_store M N)) as H3264.
  pose proof (preserves_transpose64x64 (log_in_bounds M N) M N
                (bounds_declare M N) (bounds_load M N) (bounds_store M N)) as H64.
  assert (Hcase : forall w, 0 < w -> ~ ((w | M) /\ (8 | N)) ->
                    M mod w <> 0 \/ N mod 8 <> 0).
  { intros w Hw Hnd.
    destruct (divides_or_not w M Hw) as [H1|H1]; [|left; exact H1].
    destruct (divides_or_not 8 N ltac:(lia)) as [H2|H2]; [|right; exact H2].
    exfalso. apply Hnd. split; assumption. }
  split; [|split; [|split; [|split; [|split]]]].
  - intros [HdM HdN].
    apply (keeps_rect_intro M N _ _ _
             (wp_transpose32x32 M N _ Hb ltac:(lia) HdM ltac:(lia) HdN) H0 H32).
  - intros Hnd.
    apply (leaves_rect_intro M N _ _ _
             (stops_transpose32x32 M N HM HN (Hcase 8 ltac:(lia) Hnd))
             (wpf_transpose32x32 M N _ Hb) H0 H32).
  - intros [HdM HdN].
    apply (keeps_rect_intro M N _ _ _
             (wp_transpose32x64 M N _ Hb ltac:(lia) HdM ltac:(lia) HdN) H0 H3264).
  - intros Hnd.
    apply (leaves_rect_intro M N _ _ _
             (stops_transpose32x64 M N HM HN (Hcase 4 ltac:(lia) Hnd))
             (wpf_transpose32x64 M N _ Hb) H0 H3264).
  - intros [HdM HdN].
    apply (keeps_rect_intro M N _ _ _
             (wp_transpose64x64 M N _ Hb ltac:(lia) HdM ltac:(lia) HdN) H0 H64).
  - intros Hnd.
    apply (leaves_rect_intro M N _ _ _
             (stops_transpose64x64 M N HM HN (Hcase 8 ltac:(lia) Hnd))
             (wpf_transpose64x64 M N _ Hb) H0 H64).
Qed.

Lemma tuned_domains_witness :
  (keeps_rect 8 16 (transpose32x32 8 16) (start (ramp 128) (zeros 128)) /\
   keeps_rect 8 16 (transpose64x64 8 16) (start (ramp 128) (zeros 128))) /\
  (leaves_rect 12 8 (transpose32x32 12 8) (start (ramp 96) (zeros 96)) /\
   keeps_rect 12 8 (transpose32x64 12 8) (start (ramp 96) (zeros 96)) /\
   leaves_rect 12 8 (transpose64x64 12 8) (start (ramp 96) (zeros 96))) /\
  leaves_rect 6 8 (transpose32x64 6 8) (start (ramp 48) (zeros 48)).
Proof.
  pose proof (tuned_domains 8 16 (ramp 128) (zeros 128)
                ltac:(lia) ltac:(lia) eq_refl eq_refl) as (K1 & _ & _ & _ & K3 & _).
  pose proof (tuned_domains 12 8 (ramp 96) (zeros 96)
                ltac:(lia) ltac:(lia) eq_refl eq_refl) as (_ & L1 & K2 & _ & _ & L3).
  pose proof (tuned_domains 6 8 (ramp 48) (zeros 48)
                ltac:(lia) ltac:(lia) eq_refl eq_refl) as (_ & _ & _ & L2 & _ & _).
  split; [split|split; [split; [|split]|]].
  - apply K1. split; [exists 1; reflexivity | exists 2; reflexivity].
  - apply K3. split; [exists 1; reflexivity | exists 2; reflexivity].
  - apply L1. intros [[z Hz] _]. lia.
  - apply K2. split; [exists 3; reflexivity | exists 1; reflexivity].
  - apply L3. intros [[z Hz] _]. lia.
  - apply L2. intros [[z Hz] _]. lia.
Defined.

(** ** Every cell exactly once *)

Lemma written_app l1 l2 : written (l1 ++ l2) = written l1 ++ written l2.
Proof.
  induction l1 as [|e l1 IH]; [reflexivity|].
  destruct e as [a r c|a r c|x|x]; cbn [app written]; try exact IH.
  destruct a; cbn; [exact IH | rewrite IH; reflexivity].
Qed.

Lemma fetched_app l1 l2 : fetched (l1 ++ l2) = fetched l1 ++ fetched l2.
Proof.
  induction l1 as [|e l1 IH]; [reflexivity|].
  destruct e as [a r c|a r c|x|x]; cbn [app fetched]; try exact IH.
  destruct a; cbn; [rewrite IH; reflexivity | exact IH].
Qed.

Lemma written_elem r c l : (r, c) ∈ written l <-> Wr ArrB r c ∈ l.
Proof.
  induction l as [|e l IH]; cbn [written].
  - split; intro H; inversion H.
  - destruct e as [a r' c'|a r' c'|x|x]; try destruct a;
      rewrite ?elem_of_cons, IH; intuition congruence.
Qed.

Lemma fetched_elem r c l : (r, c) ∈ fetched l <-> Rd ArrA r c ∈ l.
Proof.
  induction l as [|e l IH]; cbn [fetched].
  - split; intro H; inversion H.
  - destruct e as [a r' c'|a r' c'|x|x]; try destruct a;
      rewrite ?elem_of_cons, IH; intuition congruence.
Qed.

Lemma iters_length ix n : length (iters ix n) = n.
Proof. unfold iters. rewrite length_map, length_seq. reflexivity. Qed.

Lemma written_flat_map_length (g : Z -> list event) l n :
  (forall x, length (written (g x)) = n) ->
  length (written (flat_map g l)) = (n * length l)%nat.
Proof.
  intro Hg. induction l as [|x l IH]; cbn [flat_map length written]; [lia|].
  rewrite written_app, length_app, Hg, IH. lia.
Qed.

Lemma fetched_flat_map_length (g : Z -> list event) l n :
  (forall x, length (fetched (g x)) = n) ->
  length (fetched (flat_map g l)) = (n * length l)%nat.
Proof.
  intro Hg. induction l as [|x l IH]; cbn [flat_map length fetched]; [lia|].
  rewrite fetched_app, length_app, Hg, IH. lia.
Qed.

Lemma blocks_nat w X :
  0 < w -> 0 <= X -> (w | X) ->
  exists q : nat, X = Z.of_nat q * w /\ Z.to_nat (X / w) = q.
Proof.
  intros Hw HX [z ->]. exists (Z.to_nat z). rewrite Z.div_mul by lia. split; nia.
Qed.

Lemma fill_log_touches i k j :
  length (written (fill_log i k j)) = 4%nat /\
  length (fetched (fill_log i k j)) = if k =? i + 1 then 8%nat else 4%nat.
Proof. unfold fill_log. destruct (k =? i + 1); split; reflexivity. Qed.

Lemma drain_log_touches i k j :
  length (written (drain_log i k j)) = 4%nat /\
  length (fetched (drain_log i k j)) = if k =? i + 1 then 0%nat else 4%nat.
Proof. unfold drain_log. destruct (k =? i + 1); split; reflexivity. Qed.

Lemma fill_stripe_touches i j :
  length (written (fill_stripe_log i j)) = 32%nat /\
  length (fetched (fill_stripe_log i j)) = 36%nat.
Proof.
  split.
  - unfold fill_stripe_log.
    rewrite (written_flat_map_length _ _ 4), iters_length; [reflexivity|].
    intro k. apply fill_log_touches.
  - rewrite fill_stripe_log_rows, !fetched_app, !length_app.
    rewrite !(proj2 (fill_log_touches _ _ _)). settle_rows. reflexivity.
Qed.

Lemma drain_stripe_touches i j :
  length (written (drain_stripe_log i j)) = 32%nat /\
  length (fetched (drain_stripe_log i j)) = 28%nat.
Proof.
  split.
  - unfold drain_stripe_log.
    rewrite (written_flat_map_length _ _ 4), iters_length; [reflexivity|].
    intro k. apply drain_log_touches.
  - rewrite drain_stripe_log_rows, !fetched_app, !length_app.
    rewrite !(proj2 (drain_log_touches _ _ _)). settle_rows. reflexivity.
Qed.

Lemma band64_touches i (q : nat) :
  length (written (flat_map (stripe64_log i) (iters (up 0 4) (2 * q)))) = (64 * q)%nat /\
  length (fetched (flat_map (stripe64_log i) (iters (up 0 4) (2 * q)))) = (64 * q)%nat.
Proof.
  induction q as [|q [IHw IHf]]; [split; reflexivity|].
  replace (2 * S q)%nat with (S (S (2 * q))) by lia.
  rewrite !flat_map_iters_S, !written_app, !fetched_app, !length_app, IHw, IHf.
  unfold stripe64_log. rewrite !even_stripe_up, Nat.even_succ, <- Nat.negb_even.
  replace (Nat.even (2 * q)) with true
    by (symmetry; apply Nat.even_spec; exists q; reflexivity).
  cbn [negb].
  rewrite (proj1 (fill_stripe_touches _ _)), (proj2 (fill_stripe_touches _ _)),
          (proj1 (drain_stripe_touches _ _)), (proj2 (drain_stripe_touches _ _)).
  split; lia.
Qed.

(** The number of writes and of reads in the log of each routine. *)
Lemma log64x64_touches M N :
  0 <= M -> 0 <= N -> (8 | M) -> (8 | N) ->
  length (written (log64x64 M N)) = Z.to_nat (M * N) /\
  length (fetched (log64x64 M N)) = Z.to_nat (M * N).
Proof.
  intros HM HN HdM HdN.
  destruct (blocks_nat 8 M ltac:(lia) HM HdM) as (m & Hm & _).
  destruct (blocks_nat 8 N ltac:(lia) HN HdN) as (n & Hn & Hn').
  assert (Hm4 : Z.to_nat (M / 4) = (2 * m)%nat).
  { rewrite Hm. replace (Z.of_nat m * 8) with (Z.of_nat (2 * m) * 4) by lia.
    rewrite Z.div_mul by lia. lia. }
  unfold log64x64, band64_log. rewrite Hm4, Hn'.
  rewrite (written_flat_map_length _ _ (64 * m)), (fetched_flat_map_length _ _ (64 * m)),
    iters_length; [split; nia | |]; intro i; apply band64_touches.
Qed.

Lemma log32x64_touches M N :
  0 <= M -> 0 <= N -> (4 | M) -> (8 | N) ->
  length (written (log32x64 M N)) = Z.to_nat (M * N) /\
  length (fetched (log32x64 M N)) = Z.to_nat (M * N).
Proof.
  intros HM HN HdM HdN.
  destruct (blocks_nat 4 M ltac:(lia) HM HdM) as (m & Hm & Hm').
  destruct (blocks_nat 8 N ltac:(lia) HN HdN) as (n & Hn & Hn').
  assert (Hstripe : forall i j,
            length (written (stripe_log i j)) = 32%nat /\
            length (fetched (stripe_log i j)) = 32%nat).
  { intros i j. unfold stripe_log, up_stripe_log, down_stripe_log.
    destruct (even_stripe j);
      rewrite (written_flat_map_length _ _ 4), (fetched_flat_map_length _ _ 4),
        iters_length; try (split; reflexivity); intro k; reflexivity. }
  unfold log32x64, band3264_log. rewrite Hm', Hn'.
  rewrite (written_flat_map_length _ _ (32 * m)), (fetched_flat_map_length _ _ (32 * m)),
    iters_length; [split; nia | |]; intro i.
  - rewrite (fetched_flat_map_length _ _ 32), iters_length; [reflexivity|].
    intro j. apply Hstripe.
  - rewrite (written_flat_map_length _ _ 32), iters_length; [reflexivity|].
    intro j. apply Hstripe.
Qed.

Lemma log32x32_touches M N :
  0 <= M -> 0 <= N -> (8 | M) -> (8 | N) ->
  length (written (log32x32 M N)) = Z.to_nat (M * N) /\
  length (fetched (log32x32 M N)) = Z.to_nat (M * N).
Proof.
  intros HM HN HdM HdN.
  destruct (blocks_nat 8 M ltac:(lia) HM HdM) as (m & Hm & Hm').
  destruct (blocks_nat 8 N ltac:(lia) HN HdN) as (n & Hn & Hn').
  assert (Hblock : forall i j,
            length (written (block32_log i j)) = 64%nat /\
            length (fetched (block32_log i j)) = 64%nat).
  { intros i j. unfold block32_log.
    rewrite (written_flat_map_length _ _ 8), (fetched_flat_map_length _ _ 8),
      iters_length; try (split; reflexivity); intro k; reflexivity. }
  unfold log32x32, band32_log. rewrite Hm', Hn'.
  rewrite (written_flat_map_length _ _ (64 * m)), (fetched_flat_map_length _ _ (64 * m)),
    iters_length; [split; nia | |]; intro i.
  - rewrite (fetched_flat_map_length _ _ 64), iters_length; [reflexivity|].
    intro j. apply Hblock.
  - rewrite (written_flat_map_length _ _ 64), iters_length; [reflexivity|].
    intro j. apply Hblock.
Qed.

Lemma trans_log_touches M N :
  0 <= M -> 0 <= N ->
  length (written (trans_log M N)) = Z.to_nat (M * N) /\
  length (fetched (trans_log M N)) = Z.to_nat (M * N).
Proof.
  intros HM HN. unfold trans_log, row_log.
  rewrite (written_flat_map_length _ _ (Z.to_nat M)),
          (fetched_flat_map_length _ _ (Z.to_nat M)), iters_length;
    [split; nia | |]; intro i.
  - rewrite (fetched_flat_map_length _ _ 1), iters_length; [lia|]. intro j. reflexivity.
  - rewrite (written_flat_map_length _ _ 1), iters_length; [lia|]. intro j. reflexivity.
Qed.

(** Pigeonhole: a list of as many cells as the rectangle has, which holds
    every cell of the rectangle, holds none twice. *)
Lemma cells_once (R C : Z) (l : list (Z * Z)) :
  0 <= R -> 0 <= C ->
  length l = Z.to_nat (R * C) ->
  (forall r c, 0 <= r < R -> 0 <= c < C -> (r, c) ∈ l) ->
  NoDup l.
Proof.
  intros HR0 HC0 Hlen Hall.
  set (f := fun p : Z * Z => Z.to_nat (fst p * C + snd p)).
  apply (NoDup_fmap_1 f).
  assert (Hsub : seq 0 (Z.to_nat (R * C)) ⊆+ f <$> l).
  { apply NoDup_submseteq; [apply NoDup_seq|].
    intros n Hn%elem_of_seq.
    assert (HRC : 0 < R * C) by lia.
    assert (HC : 0 < C) by nia.
    assert (HR : 0 < R) by nia.
    pose proof (Z.div_mod (Z.of_nat n) C ltac:(lia)) as Hdm.
    pose proof (Z.mod_pos_bound (Z.of_nat n) C HC) as Hmod.
    assert (Hq : 0 <= Z.of_nat n / C < R).
    { split; [apply Z.div_pos; lia|]. apply Z.div_lt_upper_bound; [lia|nia]. }
    apply (list_elem_of_fmap_2' f _ (Z.of_nat n / C, Z.of_nat n mod C)).
    - apply Hall; lia.
    - unfold f. cbn [fst snd]. lia. }
  apply submseteq_length_Permutation in Hsub.
  - rewrite <- Hsub. apply NoDup_seq.
  - rewrite length_fmap, length_seq. lia.
Qed.

Section OneCell.

Variables M N r c : Z.

Lemma uk_declare v0 : preserves (unwritten_kept M N r c v0) declare_locals.
Proof. intros s H. exact H. Qed.

Lemma uk_load v0 x r' c' : preserves (unwritten_kept M N r c v0) (load M N x r' c').
Proof.
  intros s H. unfold load, bind, read.
  destruct (in_rect M N ArrA r' c'); [|exact H].
  destruct (mem s ArrA !! offset M N ArrA r' c'); [|exact H].
  unfold unwritten_kept in *. cbn [final assign emit log memA memB locals].
  rewrite !written_app. cbn [written]. rewrite !app_nil_r. exact H.
Qed.

Lemma uk_store v0 r' c' x :
  in_rect M N ArrB r c = true ->
  preserves (unwritten_kept M N r c v0) (store M N r' c' x).
Proof.
  intros Hin s H. unfold store, bind, use.
  destruct (locals s x) as [v|]; [|exact H]. unfold write.
  cbn [emit mem memA memB locals log].
  assert (Hemit : unwritten_kept M N r c v0
                    (mkState (memA s) (memB s) (locals s) (log s ++ [Use x]))).
  { unfold unwritten_kept in *. cbn [log memB]. rewrite written_app. cbn [written].
    rewrite app_nil_r. exact H. }
  destruct (in_rect M N ArrB r' c') eqn:Hin'; [|exact Hemit].
  destruct (_ <? _)%nat; [|exact Hemit].
  unfold unwritten_kept in *. cbn [final emit set_mem log memA memB locals].
  rewrite !written_app. cbn [written]. rewrite app_nil_r, elem_of_app, list_elem_of_singleton.
  destruct H as [H|H]; [left; left; exact H|].
  destruct (Z.eq_dec r' r) as [->|Hr]; [destruct (Z.eq_dec c' c) as [->|Hc]|].
  - left. right. reflexivity.
  - right. rewrite list_lookup_insert_ne; [exact H|]. intro Heq.
    apply offset_inj in Heq; [lia | assumption | assumption].
  - right. rewrite list_lookup_insert_ne; [exact H|]. intro Heq.
    apply offset_inj in Heq; [lia | assumption | assumption].
Qed.

End OneCell.

Section TwoRuns.

Variable R : state -> state -> Prop.

Lemma preserves2_ret : preserves2 R (ret tt).
Proof. intros s1 s2 H. exact H. Qed.

Lemma preserves2_bind (m : prog unit) (k : unit -> prog unit) :
  preserves2 R m -> (forall x, preserves2 R (k x)) -> preserves2 R (bind m k).
Proof.
  intros Hm Hk s1 s2 H. unfold bind. specialize (Hm s1 s2 H).
  destruct (m s1) as [x1 s1'|e1 s1'], (m s2) as [x2 s2'|e2 s2']; try contradiction.
  - destruct x1, x2. apply (Hk tt), Hm.
  - exact Hm.
Qed.

Lemma preserves2_for_up fuel step hi body :
  (forall k, preserves2 R (body k)) ->
  forall k, preserves2 R (for_up fuel k hi step body).
Proof.
  intro Hb. induction fuel as [|f IH]; intros k; cbn [for_up].
  - intros s1 s2 H. split; [reflexivity | exact H].
  - destruct (k <? hi).
    + apply preserves2_bind; [apply Hb | intros _; apply IH].
    + apply preserves2_ret.
Qed.

Lemma preserves2_for_down fuel lo body :
  (forall k, preserves2 R (body k)) ->
  forall k, preserves2 R (for_down fuel k lo body).
Proof.
  intro Hb. induction fuel as [|f IH]; intros k; cbn [for_down].
  - intros s1 s2 H. split; [reflexivity | exact H].
  - destruct (k >=? lo).
    + apply preserves2_bind; [apply Hb | intros _; apply IH].
    + apply preserves2_ret.
Qed.

Variables M N : Z.

Hypothesis R_declare : preserves2 R declare_locals.
Hypothesis R_load : forall x r c, preserves2 R (load M N x r c).
Hypothesis R_store : forall r c x, preserves2 R (store M N r c x).

Ltac pres2 :=
  repeat first
    [ apply R_declare | apply R_load | apply R_store | apply preserves2_ret
    | apply preserves2_bind; [|intros ?]
    | apply preserves2_for_up; intros ?
    | apply preserves2_for_down; intros ?
    | match goal with |- preserves2 _ (if ?b then _ else _) => destruct b end ].

Lemma preserves2_trans : preserves2 R (trans M N).
Proof. unfold trans. pres2. Qed.

Lemma preserves2_transpose32x32 : preserves2 R (transpose32x32 M N).
Proof. unfold transpose32x32. pres2. Qed.

Lemma preserves2_transpose32x64 : preserves2 R (transpose32x64 M N).
Proof. unfold transpose32x64. pres2. Qed.

Lemma preserves2_transpose64x64 : preserves2 R (transpose64x64 M N).
Proof. unfold transpose64x64. pres2. Qed.

End TwoRuns.

Section OneCellRead.

Variables M N r c : Z.

Hypothesis cell_in_A : in_rect M N ArrA r c = true.

Lemma in_step_declare : preserves2 (in_step M N r c) declare_locals.
Proof.
  intros s1 s2 (Hlog & HlA & HlB & Hloc & H). unfold declare_locals, in_step.
  cbn [log memA memB locals].
  repeat split; try assumption; try reflexivity.
  destruct H as [H|(HB & _ & HA)]; [left; exact H|right].
  repeat split; assumption || reflexivity.
Qed.

Lemma in_step_load x r' c' : preserves2 (in_step M N r c) (load M N x r' c').
Proof.
  intros s1 s2 Hstep. pose proof Hstep as (Hlog & HlA & HlB & Hloc & H).
  unfold load, bind, read. destruct (in_rect M N ArrA r' c') eqn:Hin';
    [|split; [reflexivity | exact Hstep]].
  cbn [mem].
  destruct (memA s1 !! offset M N ArrA r' c') as [v1|] eqn:H1,
           (memA s2 !! offset M N ArrA r' c') as [v2|] eqn:H2.
  - unfold assign, emit, in_step. cbn [log memA memB locals].
    split; [rewrite Hlog; reflexivity|]. split; [exact HlA|]. split; [exact HlB|].
    split.
    + intro y. unfold set_local.
      destruct (var_eqb y x); [split; intro Hd; discriminate Hd | apply Hloc].
    + rewrite !fetched_app. cbn [fetched]. rewrite app_nil_r, elem_of_app,
        list_elem_of_singleton.
      destruct H as [H|(HB & HL & HA)]; [left; left; exact H|].
      destruct (Z.eq_dec r' r) as [->|Hr]; [destruct (Z.eq_dec c' c) as [->|Hc]|].
      * left. right. reflexivity.
      * right. assert (v1 = v2); [|subst v2].
        { rewrite HA in H1 by (intro Heq; apply offset_inj in Heq;
                                [lia | assumption | assumption]). congruence. }
        repeat split; try assumption. intro y. unfold set_local. rewrite HL. reflexivity.
      * right. assert (v1 = v2); [|subst v2].
        { rewrite HA in H1 by (intro Heq; apply offset_inj in Heq;
                                [lia | assumption | assumption]). congruence. }
        repeat split; try assumption. intro y. unfold set_local. rewrite HL. reflexivity.
  - exfalso. apply lookup_ge_None in H2. apply lookup_lt_Some in H1. lia.
  - exfalso. apply lookup_ge_None in H1. apply lookup_lt_Some in H2. lia.
  - split; [reflexivity | exact Hstep].
Qed.

Lemma in_step_store r' c' x : preserves2 (in_step M N r c) (store M N r' c' x).
Proof.
  intros s1 s2 Hstep. pose proof Hstep as (Hlog & HlA & HlB & Hloc & H).
  unfold store, bind, use.
  destruct (locals s1 x) as [v1|] eqn:H1, (locals s2 x) as [v2|] eqn:H2.
  - assert (Hemit : in_step M N r c (emit (Use x) s1) (emit (Use x) s2)).
    { unfold emit, in_step. cbn [log memA memB locals].
      split; [rewrite Hlog; reflexivity|].
      split; [exact HlA|]. split; [exact HlB|]. split; [exact Hloc|].
      cbn [log memA memB locals]. rewrite fetched_app. cbn [fetched]. rewrite app_nil_r.
      exact H. }
    unfold write. cbn [mem emit memB].
    destruct (in_rect M N ArrB r' c'); [|split; [reflexivity | exact Hemit]].
    rewrite HlB.
    destruct (_ <? _)%nat; [|split; [reflexivity | exact Hemit]].
    unfold set_mem, emit, in_step. cbn [log memA memB locals].
    split; [rewrite Hlog; reflexivity|]. split; [exact HlA|].
    split; [rewrite !length_insert; exact HlB|]. split; [exact Hloc|].
    rewrite !fetched_app. cbn [fetched]. rewrite !app_nil_r.
    destruct H as [H|(HB & HL & HA)]; [left; exact H|right].
    assert (v1 = v2) by (rewrite HL in H1; congruence). subst v2.
    rewrite HB. repeat split; assumption.
  - exfalso. apply Hloc in H2. congruence.
  - exfalso. apply Hloc in H1. congruence.
  - split; [reflexivity | exact Hstep].
Qed.

End OneCellRead.

Section OneWay.

Variables M N : Z.

Lemma one_way_declare : preserves log_one_way declare_locals.
Proof. intros s H. exact H. Qed.

Lemma one_way_load x r c : preserves log_one_way (load M N x r c).
Proof.
  intros s HL. unfold log_one_way, load, bind, read in *.
  destruct (in_rect M N ArrA r c); [|assumption].
  destruct (mem s ArrA !! offset M N ArrA r c); [|assumption].
  cbn [final assign emit log memA memB locals].
  repeat (apply Forall_app; split); auto.
Qed.

Lemma one_way_store r c x : preserves log_one_way (store M N r c x).
Proof.
  intros s HL. unfold log_one_way, store, bind, use in *.
  destruct (locals s x); [|assumption]. unfold write.
  cbn [emit mem memA memB locals log].
  destruct (in_rect M N ArrB r c).
  - destruct (_ <? _)%nat; cbn [final emit set_mem log memA memB locals];
      repeat (apply Forall_app; split); auto.
  - cbn [final log]. apply Forall_app; split; auto.
Qed.

End OneWay.

Lemma zeros_length n : length (zeros n) = n.
Proof. unfold zeros. apply repeat_length. Qed.

(** A routine that transposes whatever the buffers hold, with a log [t]
    that has as many writes and reads as the matrix has cells, touches
    each cell once. *)
Lemma touches_each_once M N (m : prog unit) t :
  0 <= M -> 0 <= N ->
  (forall A B, length A = Z.to_nat (N * M) -> length B = Z.to_nat (M * N) ->
     wp m (fun _ s' => effect M N all_dom no_var t (start A B) s') (start A B)) ->
  (forall r c v0, in_rect M N ArrB r c = true ->
     preserves (unwritten_kept M N r c v0) m) ->
  (forall r c, in_rect M N ArrA r c = true -> preserves2 (in_step M N r c) m) ->
  preserves (log_in_bounds M N) m ->
  preserves log_one_way m ->
  length (written t) = Z.to_nat (M * N) ->
  length (fetched t) = Z.to_nat (M * N) ->
  each_cell_once M N t.
Proof.
  intros HM HN Hrun Hkept Hstep Hbounds Hway Hlw Hlf.
  set (A0 := zeros (Z.to_nat (N * M))). set (B0 := zeros (Z.to_nat (M * N))).
  assert (HA0 : length A0 = Z.to_nat (N * M)) by apply zeros_length.
  assert (HB0 : length B0 = Z.to_nat (M * N)) by apply zeros_length.
  assert (Hin_t : Forall (fun e => in_bounds M N e = true) t).
  { destruct (run_unit _ _ _ (Hrun A0 B0 HA0 HB0)) as (s' & Hr & E).
    assert (H0 : log_in_bounds M N (start A0 B0)) by constructor.
    generalize (Hbounds _ H0). rewrite Hr. cbn [final]. unfold log_in_bounds.
    rewrite (eff_log _ _ _ _ _ _ _ E). intro H. exact H. }
  assert (Hw_in : forall r c, (r, c) ∈ written t -> in_rect M N ArrB r c = true).
  { intros r c H%written_elem. rewrite Forall_forall in Hin_t. apply (Hin_t _ H). }
  assert (Hf_in : forall r c, (r, c) ∈ fetched t -> in_rect M N ArrA r c = true).
  { intros r c H%fetched_elem. rewrite Forall_forall in Hin_t. apply (Hin_t _ H). }
  assert (Hw_all : forall r c, in_rect M N ArrB r c = true -> (r, c) ∈ written t).
  { intros r c Hin.
    set (B1 := <[offset M N ArrB r c := 1]> B0).
    assert (HB1 : length B1 = Z.to_nat (M * N))
      by (unfold B1; rewrite length_insert; exact HB0).
    destruct (run_unit _ _ _ (Hrun A0 B1 HA0 HB1)) as (s' & Hr & E).
    assert (H0 : unwritten_kept M N r c (Some 1) (start A0 B1)).
    { right. unfold B1. cbn [start memB]. apply list_lookup_insert_eq.
      rewrite HB0. apply (offset_lt M N ArrB), Hin. }
    generalize (Hkept r c (Some 1) Hin _ H0). rewrite Hr. cbn [final].
    unfold unwritten_kept. rewrite (eff_log _ _ _ _ _ _ _ E). cbn [start log app].
    intros [H|H]; [exact H|]. exfalso.
    generalize (eff_dom _ _ _ _ _ _ _ E r c Hin). unfold cell, all_dom. cbn [mem start memA].
    rewrite H. unfold A0, zeros. intro Heq. symmetry in Heq.
    apply list_elem_of_lookup_2, list_elem_of_In, repeat_spec in Heq. discriminate Heq. }
  assert (Hf_all : forall r c, in_rect M N ArrA r c = true -> (r, c) ∈ fetched t).
  { intros r c Hin.
    set (A1 := <[offset M N ArrA r c := 1]> A0).
    assert (HA1 : length A1 = Z.to_nat (N * M))
      by (unfold A1; rewrite length_insert; exact HA0).
    destruct (run_unit _ _ _ (Hrun A0 B0 HA0 HB0)) as (s0 & Hr0 & E0).
    destruct (run_unit _ _ _ (Hrun A1 B0 HA1 HB0)) as (s1 & Hr1 & E1).
    assert (H0 : in_step M N r c (start A0 B0) (start A1 B0)).
    { unfold in_step. cbn [start log memA memB locals].
      split; [reflexivity|]. split; [congruence|]. split; [reflexivity|].
      split; [tauto|]. right. split; [reflexivity|]. split; [reflexivity|].
      intros n Hn. unfold A1. symmetry. apply list_lookup_insert_ne. congruence. }
    generalize (Hstep r c Hin _ _ H0). rewrite Hr0, Hr1.
    intros (_ & _ & _ & _ & [H|(HB & _ & _)]).
    - rewrite (eff_log _ _ _ _ _ _ _ E0) in H. exact H.
    - exfalso. pose proof (proj1 (in_rect_spec M N ArrA r c) Hin) as Hrc.
      cbn [rows cols] in Hrc.
      generalize (eff_dom _ _ _ _ _ _ _ E0 c r ltac:(rect)),
                 (eff_dom _ _ _ _ _ _ _ E1 c r ltac:(rect)).
      unfold cell, all_dom. cbn [mem start memA]. rewrite HB. intros -> Heq.
      unfold A1 in Heq. rewrite list_lookup_insert_eq in Heq
        by (rewrite HA0; apply (offset_lt M N ArrA), Hin).
      unfold A0, zeros in Heq.
      apply list_elem_of_lookup_2, list_elem_of_In, repeat_spec in Heq. discriminate Heq. }
  split; [|split; [|split; [|split]]].
  - destruct (run_unit _ _ _ (Hrun A0 B0 HA0 HB0)) as (s' & Hr & E).
    assert (H0 : log_one_way (start A0 B0)) by constructor.
    generalize (Hway _ H0). rewrite Hr. cbn [final]. unfold log_one_way.
    rewrite (eff_log _ _ _ _ _ _ _ E). intro H. exact H.
  - apply (cells_once M N); try assumption.
    intros r c Hr Hc. apply Hw_all. rect.
  - intros r c. split; [apply Hw_in | apply Hw_all].
  - apply (cells_once N M); try assumption; [rewrite Z.mul_comm; exact Hlf|].
    intros r c Hr Hc. apply Hf_all. rect.
  - intros r c. split; [apply Hf_in | apply Hf_all].
Qed.

Lemma trans_each_once M N :
  0 <= M -> 0 <= N -> each_cell_once M N (trans_log M N).
Proof.
  intros HM HN. apply (touches_each_once M N (trans M N)); try assumption.
  - intros A B HA HB. apply wp_trans; [apply bufs_ok_start| |]; assumption.
  - intros r c v0 Hin. apply preserves_trans;
      [apply uk_declare | apply uk_load | intros; apply uk_store, Hin].
  - intros r c Hin. apply preserves2_trans;
      [apply in_step_declare | apply in_step_load, Hin | apply in_step_store].
  - apply preserves_trans; [apply bounds_declare | apply bounds_load | apply bounds_store].
  - apply preserves_trans;
      [apply one_way_declare | apply one_way_load | apply one_way_store].
  - apply trans_log_touches; assumption.
  - apply trans_log_touches; assumption.
Qed.

Lemma log32x32_each_once M N :
  0 <= M -> 0 <= N -> (8 | M) -> (8 | N) -> each_cell_once M N (log32x32 M N).
Proof.
  intros HM HN HdM HdN. apply (touches_each_once M N (transpose32x32 M N)); try assumption.
  - intros A B HA HB. apply wp_transpose32x32; try assumption. apply bufs_ok_start; assumption.
  - intros r c v0 Hin. apply preserves_transpose32x32;
      [apply uk_declare | apply uk_load | intros; apply uk_store, Hin].
  - intros r c Hin. apply preserves2_transpose32x32;
      [apply in_step_declare | apply in_step_load, Hin | apply in_step_store].
  - apply preserves_transpose32x32;
      [apply bounds_declare | apply bounds_load | apply bounds_store].
  - apply preserves_transpose32x32;
      [apply one_way_declare | apply one_way_load | apply one_way_store].
  - apply log32x32_touches; assumption.
  - apply log32x32_touches; assumption.
Qed.

Lemma log32x64_each_once M N :
  0 <= M -> 0 <= N -> (4 | M) -> (8 | N) -> each_cell_once M N (log32x64 M N).
Proof.
  intros HM HN HdM HdN. apply (touches_each_once M N (transpose32x64 M N)); try assumption.
  - intros A B HA HB. apply wp_transpose32x64; try assumption. apply bufs_ok_start; assumption.
  - intros r c v0 Hin. apply preserves_transpose32x64;
      [apply uk_declare | apply uk_load | intros; apply uk_store, Hin].
  - intros r c Hin. apply preserves2_transpose32x64;
      [apply in_step_declare | apply in_step_load, Hin | apply in_step_store].
  - apply preserves_transpose32x64;
      [apply bounds_declare | apply bounds_load | apply bounds_store].
  - apply preserves_transpose32x64;
      [apply one_way_declare | apply one_way_load | apply one_way_store].
  - apply log32x64_touches; assumption.
  - apply log32x64_touches; assumption.
Qed.

Lemma log64x64_each_once M N :
  0 <= M -> 0 <= N -> (8 | M) -> (8 | N) -> each_cell_once M N (log64x64 M N).
Proof.
  intros HM HN HdM HdN. apply (touches_each_once M N (transpose64x64 M N)); try assumption.
  - intros A B HA HB. apply wp_transpose64x64; try assumption. apply bufs_ok_start; assumption.
  - intros r c v0 Hin. apply preserves_transpose64x64;
      [apply uk_declare | apply uk_load | intros; apply uk_store, Hin].
  - intros r c Hin. apply preserves2_transpose64x64;
      [apply in_step_declare | apply in_step_load, Hin | apply in_step_store].
  - apply preserves_transpose64x64;
      [apply bounds_declare | apply bounds_load | apply bounds_store].
  - apply preserves_transpose64x64;
      [apply one_way_declare | apply one_way_load | apply one_way_store].
  - apply log64x64_touches; assumption.
  - apply log64x64_touches; assumption.
Qed.

(** X12: every cell exactly once.  A run of [trans], on any shape, and a
    run of [transpose_submit], on multiples of 8, reads only [A] and
    writes only [B], writes each cell of [B] exactly once and reads each
    cell of [A] exactly once, and touches nothing outside the two
    rectangles; in the 64x64 routine the carry replaces the second read
    of row [i+1], it adds none. *)
Theorem every_cell_once M N A B :
  0 <= M -> 0 <= N ->
  length A = Z.to_nat (N * M) -> length B = Z.to_nat (M * N) ->
  (exists s', trans M N (start A B) = Ok tt s' /\ each_cell_once M N (log s')) /\
  ((8 | M) -> (8 | N) ->
   exists s', transpose_submit M N (start A B) = Ok tt s' /\
              each_cell_once M N (log s')).
Proof.
  intros HM HN HA HB. pose proof (bufs_ok_start M N A B HA HB) as Hb. split.
  - destruct (run_unit _ _ _ (wp_trans M N _ Hb HM HN)) as (s' & Hrun & E).
    exists s'. split; [exact Hrun|]. rewrite (eff_log _ _ _ _ _ _ _ E).
    apply trans_each_once; assumption.
  - intros HdM HdN. unfold transpose_submit.
    destruct ((M =? 32) && (N =? 32)); [|destruct ((M =? 32) && (N =? 64))].
    + destruct (run_unit _ _ _ (wp_transpose32x32 M N _ Hb HM HdM HN HdN))
        as (s' & Hrun & E).
      exists s'. split; [exact Hrun|]. rewrite (eff_log _ _ _ _ _ _ _ E).
      apply log32x32_each_once; assumption.
    + destruct (run_unit _ _ _
                  (wp_transpose32x64 M N _ Hb HM (divide_8_4 M HdM) HN HdN))
        as (s' & Hrun & E).
      exists s'. split; [exact Hrun|]. rewrite (eff_log _ _ _ _ _ _ _ E).
      apply log32x64_each_once; auto using divide_8_4.
    + destruct (run_unit _ _ _ (wp_transpose64x64 M N _ Hb HM HdM HN HdN))
        as (s' & Hrun & E).
      exists s'. split; [exact Hrun|]. rewrite (eff_log _ _ _ _ _ _ _ E).
      apply log64x64_each_once; assumption.
Qed.

Lemma every_cell_once_witness :
  (exists s', trans 8 16 (start (ramp 128) (zeros 128)) = Ok tt s' /\
              each_cell_once 8 16 (log s')) /\
  exists s', transpose_submit 8 16 (start (ramp 128) (zeros 128)) = Ok tt s' /\
             each_cell_once 8 16 (log s').
Proof.
  destruct (every_cell_once 8 16 (ramp 128) (zeros 128)
              ltac:(lia) ltac:(lia) eq_refl eq_refl) as [H1 H2].
  split; [exact H1|]. apply H2; [exists 1; reflexivity | exists 2; reflexivity].
Defined.

(** ** Empty shapes *)







(** ** More on the oracle *)

(** X14: the oracle is symmetric: asked whether [B] is the transpose of
    the [N] x [M] matrix [A], or whether [A] is the transpose of the
    [M] x [N] matrix [B], it gives the same answer. *)
Theorem oracle_symmetric M N A B :
  length A = Z.to_nat (N * M) -> length B = Z.to_nat (M * N) ->
  exists v s1 s2,
    is_transpose M N (start A B) = Ok v s1 /\
    is_transpose N M (start B A) = Ok v s2.
Proof.
  intros HA HB.
  pose proof (wp_is_transpose M N _ (bufs_ok_start M N A B HA HB)) as H1.
  pose proof (wp_is_transpose N M _ (bufs_ok_start N M B A HB HA)) as H2.
  apply wp_ok in H1, H2.
  destruct H1 as (v1 & s1 & Hrun1 & _ & Hv1), H2 as (v2 & s2 & Hrun2 & _ & Hv2).
  assert (Hsym : forall i j, cell M N (start A B) ArrA i j = cell N M (start B A) ArrB i j)
    by reflexivity.
  assert (Hsym' : forall i j, cell M N (start A B) ArrB j i = cell N M (start B A) ArrA j i)
    by reflexivity.
  exists v1, s1, s2. split; [exact Hrun1|].
  replace v1 with v2; [exact Hrun2|].
  destruct Hv1 as [[-> Hag]|[-> (i & j & Hi & Hj & Hne)]],
           Hv2 as [[-> Hag']|[-> (i' & j' & Hi' & Hj' & Hne')]]; try reflexivity; exfalso.
  - apply Hne'. rewrite <- Hsym', <- Hsym. symmetry. apply Hag; assumption.
  - apply Hne. rewrite Hsym, Hsym'. symmetry. apply Hag'; assumption.
Qed.

Lemma oracle_symmetric_witness :
  exists v s1 s2,
    is_transpose 3 2 (start [1; 2; 3; 4; 5; 6] [1; 4; 2; 5; 3; 6]) = Ok v s1 /\
    is_transpose 2 3 (start [1; 4; 2; 5; 3; 6] [1; 2; 3; 4; 5; 6]) = Ok v s2.
Proof.
  apply oracle_symmetric; reflexivity.
Defined.

Lemma checked_log_next M i j :
  0 <= j -> checked_log M i (j + 1) = checked_log M i j ++ pair_log i j.
Proof.
  intro Hj. unfold checked_log.
  replace (Z.to_nat (j + 1)) with (S (Z.to_nat j)) by lia.
  rewrite flat_map_iters_S, app_assoc.
  replace (up 0 1 (Z.to_nat j)) with j by (unfold up; lia). reflexivity.
Qed.

Lemma checked_log_row M i :
  0 <= i -> checked_log M i M = checked_log M (i + 1) 0.
Proof.
  intro Hi. unfold checked_log.
  replace (Z.to_nat (i + 1)) with (S (Z.to_nat i)) by lia.
  rewrite flat_map_iters_S.
  replace (up 0 1 (Z.to_nat i)) with i by (unfold up; lia).
  cbn [Z.to_nat iters seq map flat_map]. rewrite app_nil_r. reflexivity.
Qed.

Section OracleReads.

Variables M N : Z.

Hypothesis M_nonneg : 0 <= M.
Hypothesis N_nonneg : 0 <= N.

Lemma wp_is_transpose_reads s :
  bufs_ok M N s ->
  wp (is_transpose M N)
     (fun v s' =>
        (v = 1 /\ log s' = log s ++ checked_log M N 0) \/
        (v = 0 /\ exists i j,
           0 <= i < N /\ 0 <= j < M /\
           cell M N s ArrA i j <> cell M N s ArrB j i /\
           (forall i' j', 0 <= i' < N -> 0 <= j' < M ->
              i' < i \/ (i' = i /\ j' < j) ->
              cell M N s ArrA i' j' = cell M N s ArrB j' i') /\
           log s' = log s ++ checked_log M i j ++ pair_log i j)) s.
Proof.
  intros Hb. unfold is_transpose. apply wp_bind.
  set (R := fun (v : Z) s' =>
         v = 0 /\ exists i j,
           0 <= i < N /\ 0 <= j < M /\
           cell M N s ArrA i j <> cell M N s ArrB j i /\
           (forall i' j', 0 <= i' < N -> 0 <= j' < M ->
              i' < i \/ (i' = i /\ j' < j) ->
              cell M N s ArrA i' j' = cell M N s ArrB j' i') /\
           log s' = log s ++ checked_log M i j ++ pair_log i j).
  set (InvI := fun (i : Z) s' =>
         same_mem s s' /\
         (forall i' j', 0 <= i' < i -> 0 <= j' < M ->
            cell M N s ArrA i' j' = cell M N s ArrB j' i') /\
         log s' = log s ++ checked_log M i 0).
  eapply wp_mono.
  - apply (wp_for_up_ret InvI R _ 0); [| lia | lia |].
    + intros i s1 Hi (Hm1 & Hdone & Hlog1).
      set (InvJ := fun (j : Z) s' =>
             same_mem s s' /\
             (forall j', 0 <= j' < j -> cell M N s ArrA i j' = cell M N s ArrB j' i) /\
             log s' = log s ++ checked_log M i j).
      eapply wp_mono.
      * apply (wp_for_up_ret InvJ R _ 0); [| lia | lia |].
        -- intros j s2 Hj (Hm2 & Hrow & Hlog2).
           assert (Hb2 : bufs_ok M N s2)
             by (destruct Hb as [HA HB], Hm2 as [EA EB];
                 split; [rewrite EA | rewrite EB]; assumption).
           apply wp_read; [exact Hb2 | rect |]. intros a Ha.
           apply wp_read; [exact Hb2 | rect |]. intros b Hb'.
           assert (Ha' : cell M N s ArrA i j = Some a)
             by (unfold cell in *; cbn [mem] in *; destruct Hm2 as [<- _]; exact Ha).
           assert (Hb'' : cell M N s ArrB j i = Some b)
             by (unfold cell in *; cbn [mem emit memB] in *;
                 destruct Hm2 as [_ <-]; exact Hb').
           assert (Hlog3 : log (emit (Rd ArrB j i) (emit (Rd ArrA i j) s2))
                           = log s ++ checked_log M i j ++ pair_log i j).
           { cbn [emit log]. rewrite Hlog2, <- !app_assoc. reflexivity. }
           destruct (Z.eqb_spec a b) as [->|Hne]; cbn [negb]; apply wp_ret.
           ++ split; [exact Hm2|]. split.
              ** intros j' Hj'. destruct (Z.eq_dec j' j) as [->|Hd];
                   [congruence | apply Hrow; lia].
              ** rewrite Hlog3, checked_log_next by lia. reflexivity.
           ++ split; [reflexivity|]. exists i, j.
              split; [lia|]. split; [lia|]. split; [congruence|].
              split; [|exact Hlog3].
              intros i' j' Hi' Hj' [Hlt|[-> Hlt]]; [apply Hdone; lia | apply Hrow; lia].
        -- split; [exact Hm1|]. split; [intros j' Hj'; lia | exact Hlog1].
      * intros [v|] s2 H2; [exact H2|].
        destruct H2 as (k & Hk1 & Hk2 & Hm2 & Hrow & Hlog2).
        rewrite (Hk2 M_nonneg) in *.
        split; [exact Hm2|]. split.
        -- intros i' j' Hi' Hj'. destruct (Z.eq_dec i' i) as [->|Hd];
             [apply Hrow; lia | apply Hdone; lia].
        -- rewrite Hlog2, checked_log_row by lia. reflexivity.
    + split; [split; reflexivity|]. split; [intros i' j' Hi'; lia|].
      unfold checked_log. cbn. rewrite app_nil_r. reflexivity.
  - intros [v|] s' H; apply wp_ret.
    + right. exact H.
    + destruct H as (k & Hk1 & Hk2 & Hm & Hall & Hlog).
      rewrite (Hk2 N_nonneg) in *. left. split; [reflexivity | exact Hlog].
Qed.

End OracleReads.

(** X15: the oracle scans [A] in row-major order and returns at the
    first mismatch.  When it answers 0 there is a first cell [(i, j)] with
    [A[i][j] != B[j][i]]: every cell before it agrees, and the oracle has
    read exactly the cells before it and that pair, nothing after.  When
    it answers 1 it has read every pair of cells once, in order. *)
Theorem oracle_first_mismatch M N A B :
  0 <= M -> 0 <= N ->
  length A = Z.to_nat (N * M) -> length B = Z.to_nat (M * N) ->
  exists v s',
    is_transpose M N (start A B) = Ok v s' /\
    ((v = 1 /\ log s' = checked_log M N 0) \/
     (v = 0 /\ exists i j,
        0 <= i < N /\ 0 <= j < M /\
        A !! offset M N ArrA i j <> B !! offset M N ArrB j i /\
        (forall i' j', 0 <= i' < N -> 0 <= j' < M ->
           i' < i \/ (i' = i /\ j' < j) ->
           A !! offset M N ArrA i' j' = B !! offset M N ArrB j' i') /\
        log s' = checked_log M i j ++ pair_log i j)).
Proof.
  intros HM HN HA HB.
  pose proof (wp_is_transpose_reads M N HM HN _ (bufs_ok_start M N A B HA HB)) as H.
  apply wp_ok in H. destruct H as (v & s' & Hrun & H).
  exists v, s'. split; [exact Hrun | exact H].
Qed.

Lemma oracle_first_mismatch_witness :
  exists v s',
    is_transpose 2 2 (start [1; 2; 3; 4] [1; 3; 7; 4]) = Ok v s' /\
    ((v = 1 /\ log s' = checked_log 2 2 0) \/
     (v = 0 /\ exists i j,
        0 <= i < 2 /\ 0 <= j < 2 /\
        [1; 2; 3; 4] !! offset 2 2 ArrA i j <> [1; 3; 7; 4] !! offset 2 2 ArrB j i /\
        (forall i' j', 0 <= i' < 2 -> 0 <= j' < 2 ->
           i' < i \/ (i' = i /\ j' < j) ->
           [1; 2; 3; 4] !! offset 2 2 ArrA i' j' = [1; 3; 7; 4] !! offset 2 2 ArrB j' i') /\
        log s' = checked_log 2 i j ++ pair_log i j)).
Proof.
  apply oracle_first_mismatch; [lia | lia | reflexivity | reflexivity].
Defined.
